(** * SIPE HTTP transport layer: a shallow embedding of
      [src/core/sipe-http-transport.c] and the properties of its
      connection pool, response framing and timeout queue. *)

From Stdlib Require Import ZArith Lia Ascii String Sorted.
From stdpp Require Import base option list gmap strings pretty.

Local Open Scope Z_scope.

(** ** Characters and C strings *)

(** A [gchar] buffer is a list of characters; the terminating NUL that
    the backend keeps at index [buffer_used] is implicit at the end of
    the list.  Embedded NUL characters are possible and cut every
    C-string function short, as they do in C. *)

Definition code (c : ascii) : Z := Z.of_N (N_of_ascii c).
Definition chr (n : Z) : ascii := ascii_of_N (Z.to_N n).

Definition NUL : ascii := chr 0.
Definition CR : ascii := chr 13.
Definition LF : ascii := chr 10.
Definition CRLF : list ascii := [CR; LF].
Definition CRLFCRLF : list ascii := [CR; LF; CR; LF].

Definition bytes (s : string) : list ascii := list_ascii_of_string s.

(** The C string that starts at a pointer: everything up to the first NUL. *)
Fixpoint cstr (l : list ascii) : list ascii :=
  match l with
  | [] => []
  | c :: l' => if Ascii.eqb c NUL then [] else c :: cstr l'
  end.

Definition strlen (l : list ascii) : nat := length (cstr l).

Fixpoint starts_with (needle hay : list ascii) : bool :=
  match needle, hay with
  | [], _ => true
  | _ :: _, [] => false
  | a :: needle', b :: hay' => Ascii.eqb a b && starts_with needle' hay'
  end.

(** [strstr]: offset of the first occurrence of [needle] in the C string
    at [hay], [None] for a NULL result. *)
Fixpoint strstr (hay needle : list ascii) : option nat :=
  if starts_with needle (cstr hay) then Some 0%nat
  else match hay with
       | [] => None
       | c :: hay' => if Ascii.eqb c NUL then None else S <$> strstr hay' needle
       end.

(** ** Fixed-width integers *)

Definition guint (z : Z) : Z := z mod 2 ^ 32.
Definition gint (z : Z) : Z := (z + 2 ^ 31) mod 2 ^ 32 - 2 ^ 31.

Definition G_MAXUINT64 : Z := 2 ^ 64 - 1.
Definition G_MAXINT64 : Z := 2 ^ 63 - 1.
Definition G_MININT64 : Z := - 2 ^ 63.

(** ** GLib: [g_ascii_strtoll] with base 16, [g_ascii_strdown] *)

Definition ISSPACE (c : ascii) : bool :=
  let n := code c in
  (n =? 32) || (n =? 12) || (n =? 10) || (n =? 13) || (n =? 9) || (n =? 11).
Definition ISUPPER (c : ascii) : bool := (65 <=? code c) && (code c <=? 90).
Definition ISLOWER (c : ascii) : bool := (97 <=? code c) && (code c <=? 122).
Definition ISALPHA (c : ascii) : bool := ISUPPER c || ISLOWER c.
Definition TOUPPER (c : ascii) : ascii :=
  if ISLOWER c then chr (code c - 97 + 65) else c.
Definition TOLOWER (c : ascii) : ascii :=
  if ISUPPER c then chr (code c - 65 + 97) else c.

(** Value of [c] as a digit of base 16, [None] where the digit loop of
    [g_parse_long_long] breaks. *)
Definition digit16 (c : ascii) : option Z :=
  if (48 <=? code c) && (code c <=? 57) then Some (code c - 48)
  else if ISALPHA c then
         let d := code (TOUPPER c) - 65 + 10 in
         if 16 <=? d then None else Some d
       else None.

(** The digit loop: accumulator, overflow flag, number of characters read. *)
Fixpoint parse_digits (s : list ascii) (ui64 : Z) (overflow : bool)
  : Z * bool * nat :=
  match s with
  | [] => (ui64, overflow, 0%nat)
  | c :: s' =>
      match digit16 c with
      | None => (ui64, overflow, 0%nat)
      | Some d =>
          let cutoff := G_MAXUINT64 / 16 in
          let cutlim := G_MAXUINT64 mod 16 in
          let '(r, o, n) :=
            if (cutoff <? ui64) || ((ui64 =? cutoff) && (cutlim <? d))
            then parse_digits s' ui64 true
            else parse_digits s' (ui64 * 16 + d) overflow in
          (r, o, S n)
      end
  end.

Fixpoint count_space (s : list ascii) : nat :=
  match s with
  | c :: s' => if ISSPACE c then S (count_space s') else 0%nat
  | [] => 0%nat
  end.

(** [g_parse_long_long nptr &endptr 16 &negative]: magnitude, sign and
    the offset of [endptr] from [nptr]. *)
Definition g_parse_long_long (nptr : list ascii) : Z * bool * nat :=
  let ws := count_space nptr in
  let s := drop ws nptr in
  match s with
  | [] => (0, false, 0%nat)
  | c0 :: _ =>
      let negative := Ascii.eqb c0 (chr 45) in
      let sg := if negative || Ascii.eqb c0 (chr 43) then 1%nat else 0%nat in
      let s := drop sg s in
      let px :=
        match s with
        | z :: x :: _ =>
            if Ascii.eqb z (chr 48) && Ascii.eqb (TOUPPER x) (chr 88)
            then 2%nat else 0%nat
        | _ => 0%nat
        end in
      let save := (ws + sg + px)%nat in
      let '(ui64, overflow, n) := parse_digits (drop px s) 0 false in
      match n with
      | O => (0, negative, if px is O then 0%nat else (save - 1)%nat)
      | _ => (if overflow then G_MAXUINT64 else ui64, negative, (save + n)%nat)
      end
  end.

Definition g_ascii_strtoll (nptr : list ascii) : Z * nat :=
  let '(result, negative, endoff) := g_parse_long_long nptr in
  (if negative && (- G_MININT64 <? result) then G_MININT64
   else if negb negative && (G_MAXINT64 <? result) then G_MAXINT64
   else if negative then - result
   else result, endoff).

Definition g_ascii_tolower (c : ascii) : ascii := TOLOWER c.

Fixpoint g_ascii_strdown (s : string) : string :=
  match s with
  | EmptyString => EmptyString
  | String c s' => String (g_ascii_tolower c) (g_ascii_strdown s')
  end.

(** ** Messages *)

(** Modelled from the spec: [struct sipmsg] is declared in [sipmsg.h],
    which is not part of the sources at hand.  The transport reads and
    writes [bodylen] and [body] and looks headers up by name. *)
Record sipmsg := Sipmsg {
  response : Z;
  headers : list (string * string);
  bodylen : Z;
  body : option (list ascii)
}.

Definition set_body (msg : sipmsg) (len : Z) (b : list ascii) : sipmsg :=
  {| response := response msg; headers := headers msg;
     bodylen := len; body := Some b |}.

(** Modelled from the spec: [sipe_strcase_equal] and [sipmsg_find_header]
    live in [sipe-utils.c] and [sipmsg.c]; the comparison is
    case-insensitive, a missing header is NULL and NULL equals only NULL. *)
Definition sipe_strcase_equal (left right : option string) : bool :=
  match left, right with
  | None, None => true
  | Some l, Some r => String.eqb (g_ascii_strdown l) (g_ascii_strdown r)
  | _, _ => false
  end.

Fixpoint find_nameval (l : list (string * string)) (name : string)
  : option string :=
  match l with
  | [] => None
  | (n, v) :: l' =>
      if sipe_strcase_equal (Some n) (Some name) then Some v
      else find_nameval l' name
  end.

Definition sipmsg_find_header (msg : sipmsg) (name : string) : option string :=
  find_nameval (headers msg) name.

(** ** The response framer of [sipe_http_transport_input] *)

Definition skip_crlf : list ascii → list ascii :=
  fix go l :=
    match l with
    | c :: l' => if Ascii.eqb c CR || Ascii.eqb c LF then go l' else l
    | [] => []
    end.

(** [sipe_utils_shrink_buffer connection unread]: the bytes before
    [unread] are dropped, [buffer_used] shrinks accordingly. *)
Definition sipe_utils_shrink_buffer (buffer : list ascii) (unread : nat)
  : list ascii := drop unread buffer.

Record chunk := Chunk { chunk_length : Z; chunk_start : nat }.

Definition chunk_data (buffer : list ascii) (c : chunk) : list ascii :=
  take (Z.to_nat (chunk_length c)) (drop (chunk_start c) buffer).

Inductive chunk_result :=
| ChunkIncomplete
| ChunkFault
| ChunkDone (len : Z) (data : list ascii) (next : nat).

(** The [while (strlen(start) > 0)] loop of the chunked branch.  [start]
    and [tmp] are offsets into [buffer].  [ChunkFault] stands for a
    [start] behind the terminating NUL of the buffer, which the next
    [strlen (start)] reads, and for a write behind the [bodylen + 1]
    bytes allocated for the assembled body. *)
Fixpoint chunk_loop (fuel : nat) (buffer : list ascii) (start : nat)
    (len : Z) (chunks : list chunk) : chunk_result :=
  match fuel with
  | O => ChunkFault
  | S fuel' =>
    if (strlen (drop start buffer) =? 0)%nat then ChunkIncomplete
    else
      let '(v, off) := g_ascii_strtoll (cstr (drop start buffer)) in
      let length_ := guint v in
      let tmp := (start + off)%nat in
      if (length_ =? 0) && (start =? tmp)%nat then ChunkIncomplete
      else
        let len := gint (len + length_) in
        match strstr (drop tmp buffer) CRLF with
        | None => ChunkIncomplete
        | Some k =>
          let tmp := (tmp + k + 2)%nat in
          let remainder := guint (Z.of_nat (length buffer) - Z.of_nat tmp) in
          if remainder <? guint (length_ + 2) then ChunkIncomplete
          else
            let start := Z.of_nat tmp + length_ + 2 in
            if length_ =? 0 then
              let data := concat (chunk_data buffer <$> chunks) in
              if Z.of_nat (length data) =? len
              then ChunkDone len data (Z.to_nat start)
              else ChunkFault
            else if Z.of_nat (length buffer) <? start then ChunkFault
            else
              chunk_loop fuel' buffer (Z.to_nat start) len
                         (chunks ++ [Chunk length_ tmp])
        end
  end.

Inductive frame_result :=
| Incomplete
| Malformed
| Complete (msg : sipmsg)
| Fault.

Section Framer.

(** The header parser and the marker it uses for a chunked body come
    from [sipmsg.c] and [sipmsg.h]. *)
Variable sipmsg_parse_header : list ascii → option sipmsg.
Variable SIPMSG_BODYLEN_CHUNKED : Z.

(** Lines 192-324 of [sipe_http_transport_input]: the result and the
    buffer the connection is left with. *)
Definition framer (buffer : list ascii) : frame_result * list ascii :=
  let buffer := sipe_utils_shrink_buffer buffer
                  (length buffer - length (skip_crlf buffer)) in
  match strstr buffer CRLFCRLF with
  | None => (Incomplete, buffer)
  | Some pos =>
    let current := (pos + 2)%nat in
    let buffer := <[current := NUL]> buffer in
    match sipmsg_parse_header (cstr buffer) with
    | None => (Malformed, <[current := CR]> buffer)
    | Some msg =>
      if bodylen msg =? SIPMSG_BODYLEN_CHUNKED then
        match chunk_loop (S (length buffer)) buffer (current + 2) 0 [] with
        | ChunkDone len data start =>
            (Complete (set_body msg len data),
             sipe_utils_shrink_buffer buffer start)
        | ChunkIncomplete => (Incomplete, <[current := CR]> buffer)
        | ChunkFault => (Fault, buffer)
        end
      else
        let remainder :=
          guint (Z.of_nat (length buffer) - Z.of_nat (current + 2)) in
        if guint (bodylen msg) <=? remainder then
          if bodylen msg <? 0 then (Fault, buffer)
          else
            let n := Z.to_nat (bodylen msg) in
            (Complete (set_body msg (bodylen msg)
                         (take n (drop (current + 2) buffer))),
             sipe_utils_shrink_buffer buffer (current + 2 + n))
        else (Incomplete, <[current := CR]> buffer)
    end
  end.

End Framer.

(** A parser for examples: every header block is a response with the
    given headers and declared body length. *)
Definition const_parser (hs : list (string * string)) (len : Z)
  : list ascii → option sipmsg :=
  λ _, Some (Sipmsg 200 hs len None).


(** ** Connections, the pool and the timeout queue *)

(** Connection objects live on a heap and are named by their address.
    The public and the private half of a connection are allocated and
    freed together and point to each other, so one address and one
    record stand for both. *)
Definition conn_id := nat.

(** [struct sipe_transport_connection] of the backend: the socket handle
    and the input buffer, whose length is [buffer_used]. *)
Record sipe_transport_connection := TransportConnection {
  handle : nat;
  buffer : list ascii
}.

Record sipe_http_connection := HttpConnection {
  (* struct sipe_http_connection_public *)
  host : string;
  port : N;
  connected : bool;
  (* struct sipe_http_connection_private *)
  connection : option sipe_transport_connection;
  host_port : string;
  timeout : Z
}.

Record sipe_http := Http {
  connections : gmap string conn_id;
  timeouts : list conn_id;
  next_timeout : Z
}.

(** Calls into the collaborators, in the order they are made. *)
Inductive event :=
| BackendConnect (h : string) (p : N) (conn : conn_id) (sock : nat)
| BackendDisconnect (sock : nat)
| BackendMessage (sock : nat) (message : list ascii)
| RequestNext (conn : conn_id)
| RequestResponse (conn : conn_id) (msg : sipmsg)
| RequestShutdown (conn : conn_id)
| ScheduleSeconds (payload : conn_id) (seconds : Z)
| ScheduleCancel.

(** [struct sipe_core_private] as far as the transport uses it, with the
    heap of connection objects, the allocation counters, the slot of the
    ["<+http-timeout>"] action in the scheduler and the calls made. *)
Record sipe_core_private := CorePrivate {
  http : option sipe_http;
  heap : gmap conn_id sipe_http_connection;
  next_conn : conn_id;
  next_handle : nat;
  timer : option (conn_id * Z);
  trace : list event
}.

Definition SIPE_HTTP_DEFAULT_TIMEOUT : Z := 60.

Definition set_http (s : sipe_core_private) (h : option sipe_http) :=
  CorePrivate h (heap s) (next_conn s) (next_handle s) (timer s) (trace s).
Definition set_heap (s : sipe_core_private) (m : gmap conn_id sipe_http_connection) :=
  CorePrivate (http s) m (next_conn s) (next_handle s) (timer s) (trace s).
Definition set_timer (s : sipe_core_private) (t : option (conn_id * Z)) :=
  CorePrivate (http s) (heap s) (next_conn s) (next_handle s) t (trace s).
Definition emit (s : sipe_core_private) (e : event) :=
  CorePrivate (http s) (heap s) (next_conn s) (next_handle s) (timer s)
              (trace s ++ [e]).

Definition set_timeouts (h : sipe_http) (q : list conn_id) :=
  Http (connections h) q (next_timeout h).
Definition set_next_timeout (h : sipe_http) (t : Z) :=
  Http (connections h) (timeouts h) t.
Definition set_connections (h : sipe_http) (m : gmap string conn_id) :=
  Http m (timeouts h) (next_timeout h).

Definition set_connection (c : sipe_http_connection)
    (t : option sipe_transport_connection) :=
  HttpConnection (host c) (port c) (connected c) t (host_port c) (timeout c).
Definition set_connected (c : sipe_http_connection) (b : bool) :=
  HttpConnection (host c) (port c) b (connection c) (host_port c) (timeout c).
Definition set_timeout (c : sipe_http_connection) (t : Z) :=
  HttpConnection (host c) (port c) (connected c) (connection c) (host_port c) t.

(** *** GLib queues *)

Definition g_queue_peek_head (q : list conn_id) : option conn_id := head q.

Fixpoint g_queue_remove (q : list conn_id) (data : conn_id) : list conn_id :=
  match q with
  | [] => []
  | x :: q' => if decide (x = data) then q' else x :: g_queue_remove q' data
  end.

(** [g_queue_insert_sorted]: [data] goes in front of the first element
    that does not compare below it.  The comparison reads both objects
    and fails on a dangling one. *)
Fixpoint g_queue_insert_sorted (func : conn_id → conn_id → option Z)
    (q : list conn_id) (data : conn_id) : option (list conn_id) :=
  match q with
  | [] => Some [data]
  | x :: q' =>
      c ← func x data;
      if c <? 0 then (x ::.) <$> g_queue_insert_sorted func q' data
      else Some (data :: q)
  end.

Definition timeout_compare (m : gmap conn_id sipe_http_connection)
    (a b : conn_id) : option Z :=
  ca ← m !! a; cb ← m !! b; Some (gint (timeout ca - timeout cb)).

(** *** The transport *)

(** Every operation returns [None] where the C code would read an
    object that is not allocated (a dangling or NULL pointer). *)

Definition sipe_http_transport_free (s : sipe_core_private) (data : conn_id)
  : option sipe_core_private :=
  c ← heap s !! data;
  h ← http s;
  let s := match connection c with
           | Some t => emit s (BackendDisconnect (handle t))
           | None => s
           end in
  let s := set_http s (Some (set_timeouts h (g_queue_remove (timeouts h) data))) in
  let s := set_heap s (delete data (heap s)) in
  Some (emit s (RequestShutdown data)).

(** [g_hash_table_remove]: the value of a removed key is handed to the
    destroy function the table was created with. *)
Definition g_hash_table_remove (s : sipe_core_private) (key : string)
  : option sipe_core_private :=
  h ← http s;
  match connections h !! key with
  | None => Some s
  | Some v =>
      let s := set_http s (Some (set_connections h (delete key (connections h)))) in
      sipe_http_transport_free s v
  end.

Definition sipe_http_transport_drop (s : sipe_core_private)
    (conn_private : conn_id) : option sipe_core_private :=
  c ← heap s !! conn_private;
  g_hash_table_remove s (host_port c).

(** Modelled from the spec: [sipe_schedule_seconds] and
    [sipe_schedule_cancel] of [sipe-schedule.c]; one named timer slot,
    re-arming supersedes what was scheduled. *)
Definition sipe_schedule_seconds (s : sipe_core_private) (payload : conn_id)
    (seconds : Z) : sipe_core_private :=
  set_timer (emit s (ScheduleSeconds payload seconds)) (Some (payload, seconds)).
Definition sipe_schedule_cancel (s : sipe_core_private) : sipe_core_private :=
  set_timer (emit s ScheduleCancel) None.

Definition start_timer (s : sipe_core_private) (current_time : Z)
  : option sipe_core_private :=
  h ← http s;
  conn_private ← g_queue_peek_head (timeouts h);
  c ← heap s !! conn_private;
  let s := set_http s (Some (set_next_timeout h (timeout c))) in
  Some (sipe_schedule_seconds s conn_private (guint (timeout c - current_time))).

(** The [while (1)] loop of [sipe_http_transport_timeout]. *)
Fixpoint timeout_loop (fuel : nat) (s : sipe_core_private)
    (conn_private : conn_id) (current_time : Z) : option sipe_core_private :=
  match fuel with
  | O => None
  | S fuel' =>
      s ← sipe_http_transport_drop s conn_private;
      h ← http s;
      match g_queue_peek_head (timeouts h) with
      | None => Some s
      | Some conn_private =>
          c ← heap s !! conn_private;
          if current_time <? timeout c then start_timer s current_time
          else timeout_loop fuel' s conn_private current_time
      end
  end.

Definition sipe_http_transport_timeout (s : sipe_core_private)
    (data : conn_id) (current_time : Z) : option sipe_core_private :=
  h ← http s;
  let s := set_http s (Some (set_next_timeout h 0)) in
  timeout_loop (S (length (timeouts h))) s data current_time.

Fixpoint destroy_values (s : sipe_core_private) (vs : list conn_id)
  : option sipe_core_private :=
  match vs with
  | [] => Some s
  | v :: vs' => s ← sipe_http_transport_free s v; destroy_values s vs'
  end.

Definition sipe_http_free (s : sipe_core_private) : option sipe_core_private :=
  match http s with
  | None => Some s
  | Some h =>
      let s := sipe_schedule_cancel s in
      s ← destroy_values s (snd <$> map_to_list (connections h));
      Some (set_http s None)
  end.

Definition sipe_http_init (s : sipe_core_private) : sipe_core_private :=
  match http s with
  | Some _ => s
  | None => set_http s (Some (Http ∅ [] 0))
  end.

Definition sipe_http_transport_connected (s : sipe_core_private)
    (conn : conn_id) : option sipe_core_private :=
  c ← heap s !! conn;
  let s := set_heap s (<[conn := set_connected c true]> (heap s)) in
  Some (emit s (RequestNext conn)).

Definition sipe_http_transport_error (s : sipe_core_private) (conn : conn_id)
  : option sipe_core_private :=
  sipe_http_transport_drop s conn.

Definition make_host_port (h : string) (p : N) : string :=
  h +:+ ":" +:+ pretty p.

(** The first half of [sipe_http_transport_new]: the connection found
    under the key, taken off the timeout queue when it has lost its
    socket, or a new connection entered into the table. *)
Definition transport_lookup (s : sipe_core_private) (host_ : string)
    (port_ : N) (host_port_ : string) : option (sipe_core_private * conn_id) :=
  h ← http s;
  match connections h !! host_port_ with
  | Some conn =>
      (* re-establishing connection *)
      c ← heap s !! conn;
      match connection c with
      | None =>
          Some (set_http s (Some (set_timeouts h
                                    (g_queue_remove (timeouts h) conn))), conn)
      | Some _ => Some (s, conn)
      end
  | None =>
      (* new connection: sipe_http_connection_new and the private half *)
      let conn := next_conn s in
      let c := HttpConnection host_ port_ false None host_port_ 0 in
      Some (CorePrivate
              (Some (set_connections h (<[host_port_ := conn]> (connections h))))
              (<[conn := c]> (heap s)) (S conn) (next_handle s)
              (timer s) (trace s), conn)
  end.

(** The second half, [if (!conn_private->connection)]: connect, set the
    deadline, enter the timeout queue, start the timer if none runs. *)
Definition transport_establish (s : sipe_core_private) (conn : conn_id)
    (host_ : string) (port_ : N) (current_time : Z)
  : option sipe_core_private :=
  c ← heap s !! conn;
  match connection c with
  | Some _ => Some s
  | None =>
      h ← http s;
      let sock := next_handle s in
      let c := set_timeout
                 (set_connection (set_connected c false)
                    (Some (TransportConnection sock [])))
                 (current_time + SIPE_HTTP_DEFAULT_TIMEOUT) in
      let s := CorePrivate (http s) (<[conn := c]> (heap s)) (next_conn s)
                 (S sock) (timer s)
                 (trace s ++ [BackendConnect host_ port_ conn sock]) in
      q ← g_queue_insert_sorted (timeout_compare (heap s)) (timeouts h) conn;
      let s := set_http s (Some (set_timeouts h q)) in
      if next_timeout h =? 0 then start_timer s current_time else Some s
  end.

(** [current_time] is what [time(NULL)] returns during the call. *)
Definition sipe_http_transport_new (s : sipe_core_private) (host_in : string)
    (port_ : N) (current_time : Z) : option (sipe_core_private * conn_id) :=
  let host_ := g_ascii_strdown host_in in
  let host_port_ := make_host_port host_ port_ in
  let s := sipe_http_init s in
  '(s, conn) ← transport_lookup s host_ port_ host_port_;
  s ← transport_establish s conn host_ port_ current_time;
  Some (s, conn).

Definition sipe_http_transport_send (s : sipe_core_private) (conn : conn_id)
    (header : list ascii) (body_ : option (list ascii))
  : option sipe_core_private :=
  c ← heap s !! conn;
  t ← connection c;
  Some (emit s (BackendMessage (handle t)
                  (header ++ CRLF ++ default [] body_))).

(** Modelled from the spec: the backend reads into the buffer of the
    connection, which grows in place. *)
Definition backend_append (s : sipe_core_private) (conn : conn_id)
    (data : list ascii) : option sipe_core_private :=
  c ← heap s !! conn;
  t ← connection c;
  let c := set_connection c
             (Some (TransportConnection (handle t) (buffer t ++ data))) in
  Some (set_heap s (<[conn := c]> (heap s))).

Section Transport.

Variable sipmsg_parse_header : list ascii → option sipmsg.
Variable SIPMSG_BODYLEN_CHUNKED : Z.

(** [sipe_http_transport_input] for the connection object [conn];
    [next] is the answer of [sipe_http_request_pending] and
    [current_time] the clock, should a reconnect read it. *)
Definition sipe_http_transport_input (s : sipe_core_private) (conn : conn_id)
    (next : bool) (current_time : Z) : option sipe_core_private :=
  c ← heap s !! conn;
  t ← connection c;
  let '(r, buffer') :=
    framer sipmsg_parse_header SIPMSG_BODYLEN_CHUNKED (buffer t) in
  let c := set_connection c (Some (TransportConnection (handle t) buffer')) in
  let s := set_heap s (<[conn := c]> (heap s)) in
  match r with
  | Fault => None
  | Incomplete | Malformed => Some s
  | Complete msg =>
      let s := emit s (RequestResponse conn msg) in
      if sipe_strcase_equal (sipmsg_find_header msg "Connection") (Some "close")
      then
        let s := emit s (BackendDisconnect (handle t)) in
        let c := set_connected (set_connection c None) false in
        let s := set_heap s (<[conn := c]> (heap s)) in
        if next
        then fst <$> sipe_http_transport_new s (host c) (port c) current_time
        else Some s
      else if next then Some (emit s (RequestNext conn))
      else Some s
  end.

(** Modelled from the spec: the backend appends what it read to the
    buffer of the connection and then calls the input callback. *)
Definition backend_data (s : sipe_core_private) (conn : conn_id)
    (data : list ascii) (next : bool) (current_time : Z)
  : option sipe_core_private :=
  s ← backend_append s conn data;
  sipe_http_transport_input s conn next current_time.

End Transport.

(** Modelled from the spec: the scheduler runs the action of the timer
    slot once, with the payload it was armed with. *)
Definition timer_fire (s : sipe_core_private) (current_time : Z)
  : option sipe_core_private :=
  match timer s with
  | None => Some s
  | Some (payload, _) =>
      sipe_http_transport_timeout (set_timer s None) payload current_time
  end.

Definition initial : sipe_core_private := CorePrivate None ∅ 0%nat 0%nat None [].

Definition the_http (s : sipe_core_private) : sipe_http :=
  default (Http ∅ [] 0) (http s).

(** ** Chunked bodies on the wire *)

(** What a peer sends for a chunked body, to state what the framer
    makes of it: size lines of hexadecimal digits and maybe a chunk
    extension, each followed by CRLF, the payload and another CRLF, and
    a last chunk of size zero. *)

Definition hexdigits : list ascii := bytes "0123456789abcdefABCDEF".

Definition hexstep (a : Z) (c : ascii) : Z := a * 16 + default 0 (digit16 c).

Definition hexval (d : list ascii) : Z := fold_left hexstep d 0.

(** What may follow the digits for the digit loop to stop there. *)
Definition stops (rest : list ascii) : Prop :=
  match rest with
  | [] => True
  | c :: _ => digit16 c = None ∧ Ascii.eqb (TOUPPER c) (chr 88) = false
  end.

Definition size_line (d : list ascii) (n : nat) : Prop :=
  d ≠ [] ∧ Forall (λ c, c ∈ hexdigits) d ∧ hexval d = Z.of_nat n.

(** A chunk extension, what stands between the size and the CRLF of a
    size line: it ends neither the line nor the string, and it does not
    go on like a number. *)
Definition ext_ok (e : list ascii) : Prop :=
  (NUL ∉ e) ∧ (LF ∉ e) ∧ stops e.

Record wire_chunk := WireChunk {
  size_digits : list ascii;
  extension : list ascii;
  payload : list ascii
}.

Definition encode_chunk (c : wire_chunk) : list ascii :=
  size_digits c ++ extension c ++ CRLF ++ payload c ++ CRLF.

Definition chunk_ok (c : wire_chunk) : Prop :=
  payload c ≠ [] ∧ size_line (size_digits c) (length (payload c)) ∧
  ext_ok (extension c).

(** The last chunk: size zero, no payload, no trailer fields. *)
Definition last_ok (c : wire_chunk) : Prop :=
  payload c = [] ∧ size_line (size_digits c) 0 ∧ ext_ok (extension c).

Definition encode_chunked (cs : list wire_chunk) (last : wire_chunk)
  : list ascii :=
  concat (encode_chunk <$> cs) ++ encode_chunk last.

(** The shortest size line of a number. *)
Definition hexchar (v : Z) : ascii :=
  if v <? 10 then chr (48 + v) else chr (97 + v - 10).

Fixpoint to_hex_aux (fuel : nat) (n : Z) (acc : list ascii) : list ascii :=
  match fuel with
  | O => acc
  | S fuel' =>
      let acc := hexchar (n mod 16) :: acc in
      if n <? 16 then acc else to_hex_aux fuel' (n / 16) acc
  end.

Definition to_hex (n : nat) : list ascii := to_hex_aux 16 (Z.of_nat n) [].

Definition chunk_of (p : list ascii) : wire_chunk :=
  WireChunk (to_hex (length p)) [] p.

Definition last_chunk : wire_chunk := WireChunk (bytes "0") [] [].

(** A chunked body as a sender writes it from its payloads. *)
Definition http_chunked (payloads : list (list ascii)) : list ascii :=
  encode_chunked (chunk_of <$> payloads) last_chunk.

(** ** Well-formed pools and what the claims speak about *)

(** Allocated connections lie below the allocation counter; every key
    of the table and every element of the queue names an allocated
    connection, and no connection is in the table or in the queue
    twice. *)
Definition pool_ok (s : sipe_core_private) : Prop :=
  (∀ conn, is_Some (heap s !! conn) → (conn < next_conn s)%nat) ∧
  match http s with
  | None => True
  | Some h =>
      map_Forall (λ _ conn, is_Some (heap s !! conn)) (connections h) ∧
      NoDup (snd <$> map_to_list (connections h)) ∧
      Forall (λ conn, is_Some (heap s !! conn)) (timeouts h) ∧
      NoDup (timeouts h)
  end.

(** The timeout queue as the timer expects it, for deadlines [d]: no
    connection is queued twice, every queued connection is allocated,
    has its deadline and is in the table under its key, and the queue
    is in ascending order of deadlines. *)
Definition queue_ok (d : conn_id → Z) (s : sipe_core_private) (h : sipe_http)
  : Prop :=
  NoDup (timeouts h) ∧
  Forall (λ conn, ∃ c, heap s !! conn = Some c ∧ timeout c = d conn ∧
                       connections h !! host_port c = Some conn)
         (timeouts h) ∧
  StronglySorted (λ a b, d a ≤ d b) (timeouts h).

(** What a dropped connection leaves in the trace. *)
Definition drop_events (conn : conn_id) (c : sipe_http_connection)
  : list event :=
  match connection c with
  | Some t => [BackendDisconnect (handle t); RequestShutdown conn]
  | None => [RequestShutdown conn]
  end.

(** Two characters that are the same or the two cases of one letter. *)
Definition same_letter (x y : ascii) : Prop :=
  x = y ∨
  (ISUPPER x = true ∧ code y = code x + 32) ∨
  (ISUPPER y = true ∧ code x = code y + 32).

Fixpoint differ_only_in_case (a b : string) : Prop :=
  match a, b with
  | EmptyString, EmptyString => True
  | String x a', String y b' => same_letter x y ∧ differ_only_in_case a' b'
  | _, _ => False
  end.

Definition is_response (e : event) : bool :=
  match e with RequestResponse _ _ => true | _ => false end.

Definition is_schedule (e : event) : bool :=
  match e with ScheduleSeconds _ _ => true | _ => false end.

(** How many responses were handed to the request queue. *)
Definition responses (s : sipe_core_private) : nat :=
  length (filter (λ e, is_response e = true) (trace s)).

(** The deadline of the head of the timeout queue, if both exist. *)
Definition head_deadline (s : sipe_core_private) : option Z :=
  h ← http s;
  conn ← g_queue_peek_head (timeouts h);
  c ← heap s !! conn;
  Some (timeout c).

(** The buffer of a connection, if it has a socket. *)
Definition buffer_of (s : sipe_core_private) (conn : conn_id)
  : option (list ascii) :=
  c ← heap s !! conn; t ← connection c; Some (buffer t).

(** A response asks for the connection to be closed. *)
Definition closes (msg : sipmsg) : Prop :=
  ∃ v, sipmsg_find_header msg "Connection" = Some v ∧
       differ_only_in_case v "close".

(** The pool after one request to [a:443] at time 0. *)
Definition example_pool : sipe_core_private :=
  Eval vm_compute in
    default initial (fst <$> sipe_http_transport_new initial "a" 443 0).

(** The same pool when a response that asks to close has arrived. *)
Definition example_reply : list ascii :=
  bytes "HTTP/1.1 200 OK" ++ CRLF ++ bytes "Connection: close" ++ CRLFCRLF.

Definition example_closing : sipe_core_private :=
  Eval vm_compute in
    default initial (backend_append example_pool 0%nat example_reply).

(** Two responses without body, one behind the other. *)
Definition example_pair : list ascii :=
  (bytes "HTTP/1.1 200 OK" ++ CRLFCRLF)
    ++ (bytes "HTTP/1.1 204 No Content" ++ CRLFCRLF).

(** The pool of [example_pool] when both responses have arrived. *)
Definition example_pipelined : sipe_core_private :=
  Eval vm_compute in
    default initial (backend_append example_pool 0%nat example_pair).

(** ** Runs of the transport *)

Section Runs.

Variable sipmsg_parse_header : list ascii → option sipmsg.
Variable SIPMSG_BODYLEN_CHUNKED : Z.

(** The events the transport reacts to: a request for a connection, the
    callbacks of the backend, the timer, and shutdown. *)
Inductive step : sipe_core_private → sipe_core_private → Prop :=
| StepNew s host_in p now s' conn :
    sipe_http_transport_new s host_in p now = Some (s', conn) → step s s'
| StepConnected s conn s' :
    sipe_http_transport_connected s conn = Some s' → step s s'
| StepData s conn data next now s' :
    backend_data sipmsg_parse_header SIPMSG_BODYLEN_CHUNKED s conn data next now
    = Some s' → step s s'
| StepError s conn s' :
    sipe_http_transport_error s conn = Some s' → step s s'
| StepTimer s now s' :
    timer_fire s now = Some s' → step s s'
| StepFree s s' :
    sipe_http_free s = Some s' → step s s'.

Definition reachable (s : sipe_core_private) : Prop := rtc step initial s.

End Runs.

(** ** The pool along a run with a clock *)

(** The deadline a connection carries, 0 for none. *)
Definition deadline (s : sipe_core_private) (conn : conn_id) : Z :=
  from_option timeout 0 (heap s !! conn).

(** Every allocated connection is in the table under its own key, and
    the key is the lower-case host and the port. *)
Definition registered (s : sipe_core_private) : Prop :=
  ∀ conn c, heap s !! conn = Some c →
    connections (the_http s) !! host_port c = Some conn ∧
    host_port c = make_host_port (host c) (port c) ∧
    g_ascii_strdown (host c) = host c.

(** The timeout queue at clock [t] of a run that began at [t0]: every
    connection with a socket is queued, and the queue is in ascending
    order of deadlines, which lie between [t0 + 60] and [t + 60]. *)
Definition queue_in_order (t0 t : Z) (s : sipe_core_private) : Prop :=
  let q := timeouts (the_http s) in
  (∀ conn c, heap s !! conn = Some c → is_Some (connection c) → conn ∈ q) ∧
  StronglySorted (λ a b, deadline s a ≤ deadline s b) q ∧
  Forall (λ x, t0 + 60 ≤ deadline s x ≤ t + 60) q.

Definition pool_inv (t0 t : Z) (s : sipe_core_private) : Prop :=
  (0 ≤ t0 ∧ t0 ≤ t ∧ t + 60 < t0 + 2 ^ 31) ∧
  pool_ok s ∧ registered s ∧ queue_in_order t0 t s.

(** [next_timeout] and the timer slot: both are set or none is, they
    are set while the queue has an element, and [next_timeout] is not
    behind any deadline of the queue. *)
Definition timer_in_step (t : Z) (s : sipe_core_private) : Prop :=
  let h := the_http s in
  (next_timeout h = 0 ↔ timer s = None) ∧
  (timeouts h ≠ [] → next_timeout h ≠ 0) ∧
  0 ≤ next_timeout h ≤ t + 60 ∧
  Forall (λ x, next_timeout h ≤ deadline s x) (timeouts h).

Definition transport_ok (t0 t : Z) (s : sipe_core_private) : Prop :=
  pool_inv t0 t s ∧ timer_in_step t s.

Fixpoint has_colon (s : string) : bool :=
  match s with
  | EmptyString => false
  | String c s' => Ascii.eqb c (chr 58) || has_colon s'
  end.

(** The pool after a request to [a:443] at time 0 and one to [b:443]
    at time 10. *)
Definition example_two : sipe_core_private :=
  Eval vm_compute in
    default initial (fst <$> sipe_http_transport_new example_pool "b" 443 10).

Section TimedRuns.

Variable sipmsg_parse_header : list ascii → option sipmsg.
Variable SIPMSG_BODYLEN_CHUNKED : Z.

(** [run t0 t s]: the transport is in state [s] and its clock reads [t]
    after events that began at [t0].  The clock does not run backwards
    and stays within [2 ^ 31] seconds of [t0], the span in which the
    [gint] of [timeout_compare] holds the difference of two deadlines. *)
Inductive run (t0 : Z) : Z → sipe_core_private → Prop :=
| RunInit : 0 ≤ t0 → run t0 t0 initial
| RunNew t s host_in p now s' conn :
    run t0 t s → t ≤ now → now + 60 < t0 + 2 ^ 31 →
    sipe_http_transport_new s host_in p now = Some (s', conn) →
    run t0 now s'
| RunConnected t s conn s' :
    run t0 t s → sipe_http_transport_connected s conn = Some s' →
    run t0 t s'
| RunSend t s conn header body_ s' :
    run t0 t s → sipe_http_transport_send s conn header body_ = Some s' →
    run t0 t s'
| RunData t s conn data next now s' :
    run t0 t s → t ≤ now → now + 60 < t0 + 2 ^ 31 →
    backend_data sipmsg_parse_header SIPMSG_BODYLEN_CHUNKED
      s conn data next now = Some s' →
    run t0 now s'
| RunError t s conn s' :
    run t0 t s → sipe_http_transport_error s conn = Some s' →
    run t0 t s'
| RunTimer t s now s' :
    run t0 t s → t ≤ now → now + 60 < t0 + 2 ^ 31 →
    timer_fire s now = Some s' →
    run t0 now s'
| RunFree t s s' :
    run t0 t s → sipe_http_free s = Some s' → run t0 t s'.

End TimedRuns.

(** * The media backend of [src/purple/purple-media.c] *)

(** ** Conversions between the enumerations of SIPE and of libpurple *)

(** The enumerators the code names; [_other] stands for every other
    value a variable of the type may hold, which the [default] branch
    of a [switch] takes. *)
Inductive SipeMediaType :=
| SIPE_MEDIA_AUDIO | SIPE_MEDIA_VIDEO | SIPE_MEDIA_other.

Inductive PurpleMediaSessionType :=
| PURPLE_MEDIA_NONE | PURPLE_MEDIA_AUDIO | PURPLE_MEDIA_VIDEO.

Inductive SipeNetworkProtocol :=
| SIPE_NETWORK_PROTOCOL_TCP | SIPE_NETWORK_PROTOCOL_UDP
| SIPE_NETWORK_PROTOCOL_other.

Inductive PurpleMediaNetworkProtocol :=
| PURPLE_MEDIA_NETWORK_PROTOCOL_TCP | PURPLE_MEDIA_NETWORK_PROTOCOL_UDP
| PURPLE_MEDIA_NETWORK_PROTOCOL_other.

Definition sipe_media_to_purple (type : SipeMediaType)
  : PurpleMediaSessionType :=
  match type with
  | SIPE_MEDIA_AUDIO => PURPLE_MEDIA_AUDIO
  | SIPE_MEDIA_VIDEO => PURPLE_MEDIA_VIDEO
  | _ => PURPLE_MEDIA_NONE
  end.

Definition sipe_network_protocol_to_purple (proto : SipeNetworkProtocol)
  : PurpleMediaNetworkProtocol :=
  match proto with
  | SIPE_NETWORK_PROTOCOL_TCP => PURPLE_MEDIA_NETWORK_PROTOCOL_TCP
  | SIPE_NETWORK_PROTOCOL_UDP => PURPLE_MEDIA_NETWORK_PROTOCOL_UDP
  | _ => PURPLE_MEDIA_NETWORK_PROTOCOL_TCP
  end.

Definition purple_network_protocol_to_sipe (proto : PurpleMediaNetworkProtocol)
  : SipeNetworkProtocol :=
  match proto with
  | PURPLE_MEDIA_NETWORK_PROTOCOL_TCP => SIPE_NETWORK_PROTOCOL_TCP
  | PURPLE_MEDIA_NETWORK_PROTOCOL_UDP => SIPE_NETWORK_PROTOCOL_UDP
  | _ => SIPE_NETWORK_PROTOCOL_UDP
  end.

(** ** The streams of a call *)

(** Stream objects are named by their address; what they hold is set
    when they are made and not changed. *)
Definition stream_id := nat.

Record sipe_backend_stream := BackendStream {
  sessionid : option string;
  participant : option string
}.

Record sipe_backend_media := BackendMedia {
  in_recursion : bool;
  streams : list (stream_id * sipe_backend_stream);
  next_stream : stream_id
}.

(** Modelled from the spec: [sipe_strequal] of [sipe-utils.c] compares
    two strings that may be NULL; NULL equals only NULL. *)
Definition sipe_strequal (left right : option string) : bool :=
  match left, right with
  | None, None => true
  | Some l, Some r => String.eqb l r
  | _, _ => false
  end.

Fixpoint session_find_in (l : list (stream_id * sipe_backend_stream))
    (sessionid_ participant_ : option string)
  : option (stream_id * sipe_backend_stream) :=
  match l with
  | [] => None
  | (a, s) :: l' =>
      if sipe_strequal (sessionid s) sessionid_
         && sipe_strequal (participant s) participant_
      then Some (a, s)
      else session_find_in l' sessionid_ participant_
  end.

Definition session_find (media : sipe_backend_media)
    (sessionid_ participant_ : option string)
  : option (stream_id * sipe_backend_stream) :=
  session_find_in (streams media) sessionid_ participant_.

(** [g_slist_remove]: the first element that is the object [data]. *)
Fixpoint g_slist_remove (l : list (stream_id * sipe_backend_stream))
    (data : stream_id) : list (stream_id * sipe_backend_stream) :=
  match l with
  | [] => []
  | (a, s) :: l' =>
      if decide (a = data) then l' else (a, s) :: g_slist_remove l' data
  end.

Inductive PurpleMediaInfoType :=
| PURPLE_MEDIA_INFO_HANGUP | PURPLE_MEDIA_INFO_ACCEPT
| PURPLE_MEDIA_INFO_REJECT | PURPLE_MEDIA_INFO_HOLD
| PURPLE_MEDIA_INFO_UNHOLD | PURPLE_MEDIA_INFO_other.

(** The values of the [GParameter] array for the transmitter. *)
Inductive gvalue :=
| GBoolean (b : bool)
| GUint_NICE_COMPATIBILITY_OC2007R2.

(** Calls out of the backend: into libpurple and into the callbacks of
    the call. *)
Inductive media_event :=
| PurpleAddStream (sess : string) (who : option string)
    (type : PurpleMediaSessionType) (initiator : bool) (transmitter : string)
    (params : list (string * gvalue))
| PurpleStreamInfo (type : PurpleMediaInfoType) (local : bool)
| CallAccept (local : bool)
| CallHold (local state : bool)
| CallHangup (local : bool)
| CallReject (local : bool).

(** [sipe_backend_media_add_stream]; [added] is what
    [purple_media_add_stream] returns. *)
Definition sipe_backend_media_add_stream (media : sipe_backend_media)
    (participant_ : option string) (type : SipeMediaType)
    (use_nice initiator added : bool)
  : sipe_backend_media * option stream_id * list media_event :=
  let prpl_type := sipe_media_to_purple type in
  let '(transmitter, params, sessionid_) :=
    if use_nice
    then ("nice",
          [("controlling-mode", GBoolean initiator);
           ("compatibility-mode", GUint_NICE_COMPATIBILITY_OC2007R2)],
          "sipe-voice-nice")
    else ("rawudp", [], "sipe-voice-rawudp") in
  let call_ := PurpleAddStream sessionid_ participant_ prpl_type initiator
                 transmitter params in
  if added then
    let a := next_stream media in
    let stream := BackendStream (Some sessionid_) participant_ in
    (BackendMedia (in_recursion media) (streams media ++ [(a, stream)]) (S a),
     Some a, [call_])
  else (media, None, [call_]).

(** The part of [struct sipe_media_call] the backend reads: which
    callbacks are set, the hold flags, and the media of the backend. *)
Record sipe_media_call := MediaCall {
  call_accept_cb : bool;
  call_hold_cb : bool;
  call_hangup_cb : bool;
  call_reject_cb : bool;
  local_on_hold : bool;
  remote_on_hold : bool;
  backend_private : sipe_backend_media
}.

Definition set_in_recursion (call : sipe_media_call) (b : bool)
  : sipe_media_call :=
  let m := backend_private call in
  MediaCall (call_accept_cb call) (call_hold_cb call) (call_hangup_cb call)
    (call_reject_cb call) (local_on_hold call) (remote_on_hold call)
    (BackendMedia b (streams m) (next_stream m)).

Definition set_hold (call : sipe_media_call) (flags : bool * bool)
  : sipe_media_call :=
  MediaCall (call_accept_cb call) (call_hold_cb call) (call_hangup_cb call)
    (call_reject_cb call) (fst flags) (snd flags) (backend_private call).

Definition set_streams (call : sipe_media_call)
    (l : list (stream_id * sipe_backend_stream)) : sipe_media_call :=
  let m := backend_private call in
  MediaCall (call_accept_cb call) (call_hold_cb call) (call_hangup_cb call)
    (call_reject_cb call) (local_on_hold call) (remote_on_hold call)
    (BackendMedia (in_recursion m) l (next_stream m)).

Section StreamInfo.

(** Modelled from the spec: the hold callback of [sipe-media.c] leaves
    the call with new hold flags, [local_on_hold] and [remote_on_hold],
    and does not touch the media of the backend. *)
Variable hold_flags : sipe_media_call → bool → bool → bool * bool.

(** The handler of the ["stream-info"] signal. *)
Definition on_stream_info_cb (call : sipe_media_call)
    (type : PurpleMediaInfoType) (sessionid_ participant_ : option string)
    (local : bool) : sipe_media_call * list media_event :=
  let m := backend_private call in
  if in_recursion m then (set_in_recursion call false, [])
  else
    match type with
    | PURPLE_MEDIA_INFO_ACCEPT =>
        if call_accept_cb call && negb (bool_decide (is_Some sessionid_))
           && negb (bool_decide (is_Some participant_))
        then (call, [CallAccept local])
        else (call, [])
    | PURPLE_MEDIA_INFO_HOLD =>
        if call_hold_cb call then
          let call := set_hold call (hold_flags call local true) in
          if negb local then
            (set_in_recursion call true,
             [CallHold local true; PurpleStreamInfo PURPLE_MEDIA_INFO_HOLD true])
          else (call, [CallHold local true])
        else (call, [])
    | PURPLE_MEDIA_INFO_UNHOLD =>
        if call_hold_cb call then
          let call := set_hold call (hold_flags call local false) in
          let info :=
            if negb (local_on_hold call) && negb (remote_on_hold call)
            then PURPLE_MEDIA_INFO_UNHOLD
            else PURPLE_MEDIA_INFO_HOLD in
          (set_in_recursion call true,
           [CallHold local false; PurpleStreamInfo info true])
        else (call, [])
    | PURPLE_MEDIA_INFO_HANGUP | PURPLE_MEDIA_INFO_REJECT =>
        match sessionid_, participant_ with
        | None, None =>
            match type with
            | PURPLE_MEDIA_INFO_HANGUP =>
                if call_hangup_cb call then (call, [CallHangup local])
                else (call, [])
            | _ =>
                if call_reject_cb call then (call, [CallReject local])
                else (call, [])
            end
        | Some _, Some _ =>
            match session_find m sessionid_ participant_ with
            | Some (a, _) => (set_streams call (g_slist_remove (streams m) a), [])
            | None => (call, [])
            end
        | _, _ => (call, [])
        end
    | PURPLE_MEDIA_INFO_other => (call, [])
    end.

End StreamInfo.

(** A call with two streams, for examples. *)
Definition example_call : sipe_media_call :=
  MediaCall true true true true false false
    (BackendMedia false
       [(0%nat, BackendStream (Some "sipe-voice-nice") (Some "bob"));
        (1%nat, BackendStream (Some "sipe-voice-nice") (Some "alice"))]
       2%nat).
(** * Properties *)

(** ** Facts about C strings *)

Lemma ascii_eqb_true (a b : ascii) : Ascii.eqb a b = true ↔ a = b.
Proof. apply Ascii.eqb_eq. Qed.

Lemma ascii_eqb_false (a b : ascii) : Ascii.eqb a b = false ↔ a ≠ b.
Proof. apply Ascii.eqb_neq. Qed.

Ltac case_eqb :=
  match goal with
  | |- context [Ascii.eqb ?a ?b] =>
      let E := fresh "E" in
      destruct (Ascii.eqb a b) eqn:E;
      [apply ascii_eqb_true in E | apply ascii_eqb_false in E]
  end.

Lemma cstr_app_nonul (l r : list ascii) :
  NUL ∉ l → cstr (l ++ r) = l ++ cstr r.
Proof.
  induction l as [|c l IH]; intros Hn; [done|].
  apply not_elem_of_cons in Hn as [Hc Hl]. simpl.
  case_eqb; [congruence|]. by rewrite IH.
Qed.

Lemma cstr_nonul (l : list ascii) : NUL ∉ l → cstr l = l.
Proof.
  intros. rewrite <- (app_nil_r l) at 1.
  rewrite cstr_app_nonul by done. simpl. apply app_nil_r.
Qed.

Lemma cstr_app_NUL (l r : list ascii) :
  NUL ∉ l → cstr (l ++ NUL :: r) = l.
Proof.
  intros. rewrite cstr_app_nonul by done. simpl. apply app_nil_r.
Qed.

Lemma starts_with_app (needle tl : list ascii) :
  starts_with needle (needle ++ tl) = true.
Proof.
  induction needle as [|a n IH]; [done|]. simpl.
  rewrite IH. by rewrite Ascii.eqb_refl.
Qed.

Lemma starts_with_inv (needle hay : list ascii) :
  starts_with needle hay = true → ∃ tl, hay = needle ++ tl.
Proof.
  revert hay. induction needle as [|a n IH]; intros hay H.
  - by exists hay.
  - destruct hay as [|b hay]; [done|]. simpl in H.
    apply andb_true_iff in H as [Hab H]. apply ascii_eqb_true in Hab as ->.
    destruct (IH _ H) as [tl ->]. by exists tl.
Qed.

Lemma cstr_prefix (l : list ascii) : ∃ r, l = cstr l ++ r ∧ NUL ∉ cstr l.
Proof.
  induction l as [|c l (r & IH & Hn)]; simpl.
  - exists []. split; [done|]. apply not_elem_of_nil.
  - case_eqb.
    + exists (c :: l). split; [done|]. apply not_elem_of_nil.
    + exists r. split; [simpl; congruence|].
      apply not_elem_of_cons. split; [congruence|done].
Qed.

(** What a successful [strstr] says about the buffer. *)
Lemma strstr_Some (hay needle : list ascii) (k : nat) :
  strstr hay needle = Some k →
  ∃ pre tl, hay = pre ++ needle ++ tl ∧ length pre = k ∧ (NUL ∉ pre) ∧ (NUL ∉ needle).
Proof.
  revert k. induction hay as [|c hay IH]; intros k; simpl.
  - destruct (starts_with needle []) eqn:E; [|done].
    intros [= <-]. destruct needle; [|done].
    exists [], []. repeat split; auto using not_elem_of_nil.
  - destruct (starts_with needle _) eqn:E.
    + intros [= <-]. apply starts_with_inv in E as [tl E].
      destruct (cstr_prefix (c :: hay)) as (r & Hr & Hn). simpl in Hr, Hn.
      rewrite E in Hr, Hn. exists [], (tl ++ r). simpl.
      repeat split; auto using not_elem_of_nil.
      * by rewrite Hr, <- app_assoc.
      * intros Hin. apply Hn. apply elem_of_app. by left.
    + case_eqb; [done|]. destruct (strstr hay needle) as [j|] eqn:Ej; [|done].
      intros [= <-]. destruct (IH _ eq_refl) as (pre & tl & -> & <- & Hp & Hn).
      exists (c :: pre), tl. repeat split; auto.
      apply not_elem_of_cons. split; [congruence|done].
Qed.

Lemma strstr_unfold (hay needle : list ascii) :
  strstr hay needle =
  if starts_with needle (cstr hay) then Some 0%nat
  else match hay with
       | [] => None
       | c :: hay' => if Ascii.eqb c NUL then None else S <$> strstr hay' needle
       end.
Proof. by destruct hay. Qed.

Lemma strstr_here (needle tl : list ascii) :
  NUL ∉ needle → strstr (needle ++ tl) needle = Some 0%nat.
Proof.
  intros Hn. rewrite strstr_unfold, cstr_app_nonul by done.
  by rewrite starts_with_app.
Qed.

Lemma strstr_nil (needle : list ascii) :
  needle ≠ [] → strstr [] needle = None.
Proof. by destruct needle. Qed.

Lemma starts_with_length (needle hay : list ascii) :
  (length hay < length needle)%nat → starts_with needle hay = false.
Proof.
  revert hay. induction needle as [|a n IH]; intros [|b hay]; simpl; intros Hl;
    try lia; try done.
  rewrite IH by lia. apply andb_false_r.
Qed.

Lemma cstr_length (l : list ascii) : (length (cstr l) ≤ length l)%nat.
Proof. induction l; simpl; [lia|]. case_eqb; simpl; lia. Qed.

Lemma strstr_short (hay needle : list ascii) :
  (length hay < length needle)%nat → strstr hay needle = None.
Proof.
  revert needle. induction hay as [|c hay IH]; intros needle Hl.
  - apply strstr_nil. by destruct needle; simpl in *; [lia|].
  - simpl in *. rewrite starts_with_length.
    2:{ pose proof (cstr_length (c :: hay)). simpl in *. lia. }
    case_eqb; [done|]. rewrite IH by lia. done.
Qed.

Lemma skip_crlf_length (l : list ascii) : (length (skip_crlf l) ≤ length l)%nat.
Proof.
  induction l as [|c l IH]; simpl; [lia|].
  destruct (Ascii.eqb c CR || Ascii.eqb c LF); simpl; lia.
Qed.

Lemma skip_crlf_drop (l : list ascii) :
  drop (length l - length (skip_crlf l)) l = skip_crlf l.
Proof.
  induction l as [|c l IH]; [done|]. simpl skip_crlf.
  destruct (Ascii.eqb c CR || Ascii.eqb c LF).
  - pose proof (skip_crlf_length l).
    replace (length (c :: l) - length (skip_crlf l))%nat
      with (S (length l - length (skip_crlf l))) by (simpl; lia).
    done.
  - by rewrite Nat.sub_diag.
Qed.

Lemma skip_crlf_idemp (l : list ascii) : skip_crlf (skip_crlf l) = skip_crlf l.
Proof.
  induction l as [|c l IH]; [done|]. simpl.
  destruct (Ascii.eqb c CR || Ascii.eqb c LF) eqn:E; [done|].
  simpl. by rewrite E.
Qed.

(** Blank lines in front are dropped once and for all: what arrives
    later does not change what was dropped. *)
Lemma skip_crlf_app (l more : list ascii) :
  skip_crlf (skip_crlf l ++ more) = skip_crlf (l ++ more).
Proof.
  induction l as [|c l IH]; [done|]. simpl.
  destruct (Ascii.eqb c CR || Ascii.eqb c LF) eqn:E; [done|].
  simpl. by rewrite E.
Qed.

(** The buffer around the header terminator found by [strstr]. *)
Lemma header_found (b : list ascii) (pos : nat) :
  strstr b CRLFCRLF = Some pos →
  ∃ rest, b = take pos b ++ CRLFCRLF ++ rest ∧
          (NUL ∉ take pos b) ∧ (pos + 4 ≤ length b)%nat.
Proof.
  intros H. apply strstr_Some in H as (pre & tl & -> & <- & Hp & _).
  exists tl. rewrite take_app_length. repeat split; [done|].
  rewrite !length_app. simpl. lia.
Qed.

Section HeaderMark.
Context (b : list ascii) (pos : nat).
Hypothesis Hfound : strstr b CRLFCRLF = Some pos.

Lemma header_mark_cstr : cstr (<[(pos + 2)%nat := NUL]> b) = take (pos + 2) b.
Proof.
  destruct (header_found _ _ Hfound) as (rest & Hb & Hn & Hl).
  set (hdr := take pos b) in *. assert (Hh : length hdr = pos).
  { unfold hdr. rewrite length_take. lia. }
  rewrite Hb. replace (hdr ++ CRLFCRLF ++ rest)
    with ((hdr ++ CRLF) ++ CR :: LF :: rest) by by rewrite <- app_assoc.
  replace (pos + 2)%nat with (length (hdr ++ CRLF) + 0)%nat
    by (rewrite length_app; simpl; lia).
  rewrite insert_app_r. simpl. rewrite cstr_app_NUL.
  - rewrite Nat.add_0_r. by rewrite take_app_length.
  - intros [?|Hin]%elem_of_app; [done|].
    apply elem_of_cons in Hin as [?|Hin]; [done|].
    apply elem_of_cons in Hin as [?|Hin]; [done|].
    by apply elem_of_nil in Hin.
Qed.

Lemma header_mark_restore :
  <[(pos + 2)%nat := CR]> (<[(pos + 2)%nat := NUL]> b) = b.
Proof.
  destruct (header_found _ _ Hfound) as (rest & Hb & Hn & Hl).
  rewrite list_insert_insert_eq. apply list_insert_id.
  rewrite Hb. rewrite lookup_app_r; rewrite length_take; [|lia].
  by replace (pos + 2 - pos `min` length b)%nat with 2%nat by lia.
Qed.

Lemma header_mark_drop (k : nat) :
  (pos + 2 < k)%nat → drop k (<[(pos + 2)%nat := NUL]> b) = drop k b.
Proof. intros. by rewrite drop_insert_lt by lia. Qed.

Lemma header_mark_length : length (<[(pos + 2)%nat := NUL]> b) = length b.
Proof. apply length_insert. Qed.
End HeaderMark.

Example strtoll_5 : g_ascii_strtoll (bytes "5" ++ CRLF ++ bytes "hello") = (5, 1%nat).
Proof. reflexivity. Qed.
Example strtoll_1aF : g_ascii_strtoll (bytes " 1aF;x") = (431, 4%nat).
Proof. reflexivity. Qed.
Example strtoll_none : g_ascii_strtoll (bytes "zz") = (0, 0%nat).
Proof. reflexivity. Qed.
Example strtoll_0x : g_ascii_strtoll (bytes "0xg") = (0, 1%nat).
Proof. reflexivity. Qed.
Example strtoll_neg : g_ascii_strtoll (bytes "-2") = (-2, 2%nat).
Proof. reflexivity. Qed.


Example framer_hello :
  framer (const_parser [] (-1)) (-1)
    (bytes "HTTP/1.1 200 OK" ++ CRLFCRLF ++ bytes "5" ++ CRLF ++ bytes "hello"
       ++ CRLF ++ bytes "0" ++ CRLFCRLF ++ bytes "HTTP")
  = (Complete (Sipmsg 200 [] 5 (Some (bytes "hello"))), bytes "HTTP").
Proof. reflexivity. Qed.

Example framer_partial :
  framer (const_parser [] (-1)) (-1)
    (CRLF ++ bytes "HTTP/1.1 200 OK" ++ CRLFCRLF ++ bytes "5" ++ CRLF ++ bytes "hel")
  = (Incomplete,
     bytes "HTTP/1.1 200 OK" ++ CRLFCRLF ++ bytes "5" ++ CRLF ++ bytes "hel").
Proof. reflexivity. Qed.

Example framer_wrap :
  framer (const_parser [] (-1)) (-1)
    (bytes "HTTP/1.1 200 OK" ++ CRLFCRLF ++ bytes "FFFFFFFF" ++ CRLF ++ bytes "ab")
  = (Fault,
     <[17%nat := NUL]> (bytes "HTTP/1.1 200 OK" ++ CRLFCRLF ++ bytes "FFFFFFFF" ++ CRLF ++ bytes "ab")).
Proof. vm_compute. reflexivity. Qed.


(** *** What has arrived so far: [strstr] and [skip_crlf] on prefixes *)

Lemma cstr_take (l : list ascii) (k : nat) : cstr (take k l) = take k (cstr l).
Proof.
  revert k. induction l as [|c l IH]; intros [|k]; try done.
  cbn [take cstr]. destruct (Ascii.eqb c NUL); [done|].
  cbn [take]. by rewrite IH.
Qed.

Lemma starts_with_take (needle hay : list ascii) (k : nat) :
  starts_with needle (take k hay)
  = starts_with needle hay && bool_decide (length needle ≤ k)%nat.
Proof.
  revert hay k. induction needle as [|a n IH]; intros hay k.
  - cbn [starts_with length]. by rewrite bool_decide_eq_true_2 by lia.
  - destruct hay as [|b hay], k as [|k]; cbn [starts_with length take]; try done.
    + rewrite bool_decide_eq_false_2 by lia. apply eq_sym, andb_false_r.
    + rewrite IH. rewrite <- andb_assoc. do 2 f_equal.
      apply bool_decide_ext. lia.
Qed.

Lemma strstr_take (hay needle : list ascii) (pos k : nat) :
  strstr hay needle = Some pos →
  strstr (take k hay) needle
  = if decide (pos + length needle ≤ k)%nat then Some pos else None.
Proof.
  revert pos k. induction hay as [|c hay IH]; intros pos k.
  - destruct needle; [|done]. intros [= <-]. rewrite take_nil.
    case_decide as Hd; [done|]. cbn [length] in Hd. lia.
  - rewrite (strstr_unfold (c :: hay)), (strstr_unfold (take k (c :: hay))).
    rewrite cstr_take, starts_with_take.
    destruct (starts_with needle (cstr (c :: hay))) eqn:Hs.
    + intros [= <-]. cbn [andb]. case_bool_decide as Hk; case_decide as Hd;
        try done; try lia.
      destruct k as [|k]; [done|]. cbn [take].
      destruct (Ascii.eqb c NUL); [done|]. rewrite strstr_short; [done|].
      rewrite length_take. lia.
    + cbn [andb]. destruct (Ascii.eqb c NUL) eqn:Hc; [done|].
      destruct (strstr hay needle) as [j|] eqn:Hj; [|by cbn].
      cbn [fmap option_fmap option_map]. intros [= <-]. destruct k as [|k].
      * cbn [take]. case_decide; [lia|done].
      * cbn [take]. rewrite Hc, (IH j k eq_refl).
        repeat case_decide; try done; lia.
Qed.

Lemma skip_crlf_take (l : list ascii) (k : nat) :
  skip_crlf (take k l)
  = take (k - (length l - length (skip_crlf l))) (skip_crlf l).
Proof.
  revert k. induction l as [|c l IH]; intros k.
  - change (skip_crlf []) with (@nil ascii). by rewrite !take_nil.
  - destruct k as [|k]; [done|]. simpl.
    destruct (Ascii.eqb c CR || Ascii.eqb c LF) eqn:E.
    + rewrite IH. pose proof (skip_crlf_length l). f_equal. lia.
    + simpl. by rewrite Nat.sub_diag, Nat.sub_0_r.
Qed.

Lemma strstr_take_None (hay needle : list ascii) (k : nat) :
  strstr hay needle = None → strstr (take k hay) needle = None.
Proof.
  revert k. induction hay as [|c hay IH]; intros k.
  - by rewrite take_nil.
  - rewrite (strstr_unfold (c :: hay)), (strstr_unfold (take k (c :: hay))).
    rewrite cstr_take, starts_with_take.
    destruct (starts_with needle (cstr (c :: hay))); [done|]. cbn [andb].
    destruct k as [|k]; [done|]. cbn [take].
    destruct (Ascii.eqb c NUL); [done|].
    destruct (strstr hay needle) eqn:E; [done|]. intros _. by rewrite IH.
Qed.

(** What [strstr] has found stays where it is when more bytes arrive. *)
Lemma strstr_app_l (l r needle : list ascii) (pos : nat) :
  strstr l needle = Some pos → strstr (l ++ r) needle = Some pos.
Proof.
  intros Hl. destruct (strstr (l ++ r) needle) as [p|] eqn:E.
  - pose proof (strstr_take _ _ _ (length l) E) as Ht.
    rewrite take_app_length, Hl in Ht. by case_decide.
  - apply (strstr_take_None _ _ (length l)) in E.
    rewrite take_app_length in E. congruence.
Qed.

(** ** The framer: header terminator, fixed-length bodies, retries *)

Lemma guint_small (z : Z) : 0 ≤ z < 2 ^ 32 → guint z = z.
Proof. intros. unfold guint. by rewrite Z.mod_small. Qed.

Lemma gint_small (z : Z) : - 2 ^ 31 ≤ z < 2 ^ 31 → gint z = z.
Proof. intros. unfold gint. rewrite Z.mod_small; lia. Qed.

Section FramerFacts.

Variable sipmsg_parse_header : list ascii → option sipmsg.
Variable SIPMSG_BODYLEN_CHUNKED : Z.

Local Abbreviation framer := (framer sipmsg_parse_header SIPMSG_BODYLEN_CHUNKED).

(** The framer only looks at the buffer behind the leading blank lines. *)
Lemma framer_skip_crlf (buffer : list ascii) :
  framer (skip_crlf buffer) = framer buffer.
Proof.
  unfold framer, sipe_utils_shrink_buffer.
  by rewrite !skip_crlf_drop, skip_crlf_idemp.
Qed.

Lemma framer_no_terminator (buffer : list ascii) :
  strstr (skip_crlf buffer) CRLFCRLF = None →
  framer buffer = (Incomplete, skip_crlf buffer).
Proof.
  intros H. unfold framer, sipe_utils_shrink_buffer.
  by rewrite skip_crlf_drop, H.
Qed.

(** C3: with a header block that declares a body of [n] bytes, fewer
    than [n] bytes behind the blank line give [Incomplete]; otherwise
    the message is [Complete], its body is exactly the [n] bytes
    behind the blank line, and header block and body are consumed
    while everything behind them stays in the buffer.  A header block
    that declares no body is [Complete] at once with an empty body. *)
Theorem framer_fixed_length (buffer : list ascii) (pos : nat) (msg : sipmsg) :
  let b := skip_crlf buffer in
  let rest := drop (pos + 4) b in
  let n := Z.to_nat (bodylen msg) in
  strstr b CRLFCRLF = Some pos →
  sipmsg_parse_header (take (pos + 2) b) = Some msg →
  bodylen msg ≠ SIPMSG_BODYLEN_CHUNKED →
  0 ≤ bodylen msg < 2 ^ 31 →
  Z.of_nat (length buffer) < 2 ^ 32 →
  ((length rest < n)%nat → framer buffer = (Incomplete, b)) ∧
  ((n ≤ length rest)%nat →
     framer buffer
     = (Complete (set_body msg (bodylen msg) (take n rest)), drop n rest) ∧
     b = take (pos + 4) b ++ take n rest ++ drop n rest ∧
     length b = (pos + 4 + n + length (drop n rest))%nat) ∧
  (bodylen msg = 0 → framer buffer = (Complete (set_body msg 0 []), rest)).
Proof.
  intros b rest n Hpos Hparse Hnc Hlen Hbuf.
  destruct (header_found _ _ Hpos) as (tl & Hb & Hn & Hl).
  pose proof (skip_crlf_length buffer) as Hsk. fold b in Hsk.
  assert (Hrest : length rest = (length b - (pos + 4))%nat)
    by (unfold rest; apply length_drop).
  assert (Hfr : framer buffer =
    if guint (bodylen msg) <=? guint (Z.of_nat (length b) - Z.of_nat (pos + 2 + 2))
    then (Complete (set_body msg (bodylen msg) (take n rest)), drop n rest)
    else (Incomplete, b)).
  { unfold framer, sipe_utils_shrink_buffer. rewrite skip_crlf_drop. fold b.
    rewrite Hpos, header_mark_cstr, Hparse by done.
    apply Z.eqb_neq in Hnc. rewrite Hnc, header_mark_length.
    destruct (_ <=? _); [|by rewrite header_mark_restore].
    replace (bodylen msg <? 0) with false by (symmetry; apply Z.ltb_ge; lia).
    rewrite !header_mark_drop by (done || lia). fold n.
    unfold rest. rewrite drop_drop.
    by replace (pos + 2 + 2)%nat with (pos + 4)%nat by lia. }
  rewrite !guint_small in Hfr by lia.
  split; [|split].
  - intros Hshort. rewrite Hfr.
    replace (_ <=? _) with false; [done|]. symmetry. apply Z.leb_gt. lia.
  - intros Hok. rewrite Hfr.
    replace (_ <=? _) with true by (symmetry; apply Z.leb_le; lia).
    split; [done|]. split.
    + rewrite take_drop. unfold rest. by rewrite take_drop.
    + rewrite length_drop. lia.
  - intros H0. rewrite Hfr.
    replace (_ <=? _) with true by (symmetry; apply Z.leb_le; lia).
    unfold n. rewrite H0. simpl. by rewrite drop_0.
Qed.

(** On the paths that give [Incomplete] or [Malformed] the byte that
    was overwritten is written back: only the leading blank lines are
    gone from the buffer. *)
Lemma framer_restores (buffer buffer' : list ascii) (r : frame_result) :
  framer buffer = (r, buffer') →
  r = Incomplete ∨ r = Malformed →
  buffer' = skip_crlf buffer.
Proof.
  intros Hf Hr. revert Hf. unfold framer, sipe_utils_shrink_buffer.
  rewrite skip_crlf_drop.
  destruct (strstr (skip_crlf buffer) CRLFCRLF) as [pos|] eqn:Hpos;
    [|by intros [= _ <-]].
  destruct (sipmsg_parse_header _) as [msg|];
    [|rewrite header_mark_restore by done; by intros [= _ <-]].
  destruct (bodylen msg =? SIPMSG_BODYLEN_CHUNKED).
  - destruct (chunk_loop _ _ _ _ _).
    + rewrite header_mark_restore by done. by intros [= _ <-].
    + intros [= <- _]. by destruct Hr.
    + intros [= <- _]. by destruct Hr.
  - destruct (_ <=? _).
    + destruct (_ <? _); intros [= <- _]; by destruct Hr.
    + rewrite header_mark_restore by done. by intros [= _ <-].
Qed.

(** C4: when the framer gives [Incomplete] or [Malformed], the byte
    that was overwritten to end the header string is [CR] again: the
    buffer is what it was behind its leading blank lines, and framing
    it again, with or without more bytes appended, is framing the
    original bytes. *)
Theorem framer_retry (buffer buffer' : list ascii) (r : frame_result) :
  framer buffer = (r, buffer') →
  r = Incomplete ∨ r = Malformed →
  buffer' = skip_crlf buffer ∧
  framer buffer' = (r, buffer') ∧
  ∀ more, framer (buffer' ++ more) = framer (buffer ++ more).
Proof.
  intros Hf Hr. pose proof (framer_restores _ _ _ Hf Hr) as ->.
  split; [done|]. split.
  - by rewrite framer_skip_crlf.
  - intros more. rewrite <- (framer_skip_crlf (_ ++ _)), skip_crlf_app.
    apply framer_skip_crlf.
Qed.

End FramerFacts.

Lemma framer_fixed_length_witness :
  framer (const_parser [] 5) (-1)
    (bytes "HTTP/1.1 200 OK" ++ CRLF ++ bytes "Content-Length: 5" ++ CRLFCRLF
       ++ bytes "helloHTTP")
  = (Complete (Sipmsg 200 [] 5 (Some (bytes "hello"))), bytes "HTTP").
Proof.
  destruct (framer_fixed_length (const_parser [] 5) (-1)
              (bytes "HTTP/1.1 200 OK" ++ CRLF ++ bytes "Content-Length: 5"
                 ++ CRLFCRLF ++ bytes "helloHTTP") 34
              (Sipmsg 200 [] 5 None)) as (_ & H & _).
  - reflexivity.
  - reflexivity.
  - vm_compute. congruence.
  - vm_compute. split; congruence.
  - vm_compute. reflexivity.
  - apply H. vm_compute. lia.
Defined.

Lemma framer_retry_witness :
  let buffer := CRLF ++ bytes "HTTP/1.1 200 OK" ++ CRLF
                  ++ bytes "Content-Length: 5" ++ CRLFCRLF ++ bytes "hel" in
  framer (const_parser [] 5) (-1) (skip_crlf buffer ++ bytes "lo")
  = framer (const_parser [] 5) (-1) (buffer ++ bytes "lo").
Proof.
  intros buffer.
  destruct (framer_retry (const_parser [] 5) (-1) buffer (skip_crlf buffer)
              Incomplete) as (_ & _ & H).
  - vm_compute. reflexivity.
  - left. reflexivity.
  - apply H.
Defined.

(** A status line without the blank line is [Incomplete]; with the blank
    line and no body declared it is [Complete] with an empty body. *)
Example framer_partial_header :
  framer (const_parser [] 0) (-1) (bytes "HTTP/1.1 200 OK" ++ CRLF)
  = (Incomplete, bytes "HTTP/1.1 200 OK" ++ CRLF) ∧
  framer (const_parser [] 0) (-1) (bytes "HTTP/1.1 200 OK" ++ CRLF ++ CRLF)
  = (Complete (Sipmsg 200 [] 0 (Some [])), []).
Proof. split; reflexivity. Qed.

(** ** The chunk loop *)

Lemma chunk_loop_unfold (fuel : nat) (buffer : list ascii) (start : nat)
    (len : Z) (chunks : list chunk) :
  chunk_loop (S fuel) buffer start len chunks =
    if (strlen (drop start buffer) =? 0)%nat then ChunkIncomplete
    else
      let '(v, off) := g_ascii_strtoll (cstr (drop start buffer)) in
      let length_ := guint v in
      let tmp := (start + off)%nat in
      if (length_ =? 0) && (start =? tmp)%nat then ChunkIncomplete
      else
        let len := gint (len + length_) in
        match strstr (drop tmp buffer) CRLF with
        | None => ChunkIncomplete
        | Some k =>
          let tmp := (tmp + k + 2)%nat in
          let remainder := guint (Z.of_nat (length buffer) - Z.of_nat tmp) in
          if remainder <? guint (length_ + 2) then ChunkIncomplete
          else
            let start := Z.of_nat tmp + length_ + 2 in
            if length_ =? 0 then
              let data := concat (chunk_data buffer <$> chunks) in
              if Z.of_nat (length data) =? len
              then ChunkDone len data (Z.to_nat start)
              else ChunkFault
            else if Z.of_nat (length buffer) <? start then ChunkFault
            else
              chunk_loop fuel buffer (Z.to_nat start) len
                         (chunks ++ [Chunk length_ tmp])
        end.
Proof. reflexivity. Qed.

Lemma guint_range (z : Z) : 0 ≤ guint z < 2 ^ 32.
Proof. unfold guint. apply Z.mod_pos_bound. lia. Qed.

(** The loop ends before the fuel does: every round moves [start]
    forward and stops in front of the end of the buffer. *)
Lemma chunk_loop_fuel (fuel1 fuel2 : nat) (buffer : list ascii) (start : nat)
    (len : Z) (chunks : list chunk) :
  (length buffer - start < fuel1)%nat →
  (length buffer - start < fuel2)%nat →
  chunk_loop fuel1 buffer start len chunks
  = chunk_loop fuel2 buffer start len chunks.
Proof.
  revert fuel2 start len chunks.
  induction fuel1 as [|fuel1 IH]; intros [|fuel2] start len chunks H1 H2;
    try lia.
  rewrite !chunk_loop_unfold.
  destruct (_ =? _)%nat eqn:Hs; [done|].
  destruct (g_ascii_strtoll _) as [v off].
  cbv zeta. destruct (_ && _); [done|].
  destruct (strstr _ _) as [k|]; [|done].
  destruct (_ <? _); [done|].
  destruct (guint v =? 0); [done|].
  destruct (_ <? _) eqn:Hb; [done|].
  apply Z.ltb_ge in Hb. pose proof (guint_range v).
  apply IH; lia.
Qed.

(** The three ways out of the loop that wait for more bytes: no digit
    at all, no CRLF behind the size, and, as long as [length + 2] does
    not wrap around, too few bytes for payload and CRLF. *)
Lemma chunk_loop_gives_up (fuel : nat) (buffer : list ascii) (start : nat)
    (len : Z) (chunks : list chunk) (v : Z) (off : nat) :
  g_ascii_strtoll (cstr (drop start buffer)) = (v, off) →
  (guint v = 0 ∧ off = 0%nat) ∨
  strstr (drop (start + off) buffer) CRLF = None ∨
  (∃ k, strstr (drop (start + off) buffer) CRLF = Some k ∧
        Z.of_nat (length buffer) < 2 ^ 32 ∧ guint v + 2 < 2 ^ 32 ∧
        Z.of_nat (length buffer) - Z.of_nat (start + off + k + 2)
          < guint v + 2) →
  chunk_loop (S fuel) buffer start len chunks = ChunkIncomplete.
Proof.
  intros Hv Hcase. rewrite chunk_loop_unfold.
  destruct (_ =? _)%nat; [done|]. rewrite Hv. cbv zeta.
  destruct Hcase as [[-> ->]|[Hs|(k & Hs & Hb & Hw & Hr)]].
  - by rewrite Nat.add_0_r, Nat.eqb_refl.
  - destruct (_ && _); [done|]. by rewrite Hs.
  - destruct (_ && _); [done|]. rewrite Hs.
    pose proof (guint_range v).
    assert (Hk : (start + off + k + 2 ≤ length buffer)%nat).
    { apply strstr_Some in Hs as (pre & tl & Hd & <- & _).
      apply (f_equal length) in Hd. rewrite length_drop, !length_app in Hd.
      change (length CRLF) with 2%nat in Hd. lia. }
    rewrite (guint_small (_ - _)), (guint_small (_ + 2)) by lia.
    replace (_ <? _) with true; [done|]. symmetry. apply Z.ltb_lt. lia.
Qed.

(** *** Size lines *)

Lemma hexdigit_facts (c : ascii) :
  c ∈ hexdigits →
  ∃ v, digit16 c = Some v ∧ 0 ≤ v < 16 ∧ c ≠ NUL ∧ ISSPACE c = false ∧
       Ascii.eqb c (chr 45) = false ∧ Ascii.eqb c (chr 43) = false ∧
       Ascii.eqb (TOUPPER c) (chr 88) = false.
Proof.
  unfold hexdigits, bytes. simpl. intros H.
  repeat (apply elem_of_cons in H as [-> | H];
          [eexists; vm_compute; repeat split; congruence|]).
  by apply elem_of_nil in H.
Qed.

Lemma hexstep_mono (d : list ascii) (a : Z) :
  0 ≤ a → Forall (λ c, c ∈ hexdigits) d → a ≤ fold_left hexstep d a.
Proof.
  revert a. induction d as [|c d IH]; intros a Ha Hd; simpl; [lia|].
  apply Forall_cons in Hd as [Hc Hd].
  destruct (hexdigit_facts c Hc) as (v & Hv & Hr & _).
  etrans; [|apply IH; [|done]]; unfold hexstep; rewrite Hv; simpl; lia.
Qed.

Lemma parse_digits_hex (d rest : list ascii) (a : Z) :
  Forall (λ c, c ∈ hexdigits) d → stops rest → 0 ≤ a →
  fold_left hexstep d a ≤ G_MAXUINT64 →
  parse_digits (d ++ rest) a false = (fold_left hexstep d a, false, length d).
Proof.
  revert a. induction d as [|c d IH]; intros a Hd Hs Ha Hmax.
  - simpl. destruct rest as [|c rest]; [done|]. simpl.
    destruct Hs as [-> _]. done.
  - apply Forall_cons in Hd as [Hc Hd].
    destruct (hexdigit_facts c Hc) as (v & Hv & Hr & _).
    simpl in Hmax. assert (Hstep : hexstep a c = a * 16 + v)
      by (unfold hexstep; by rewrite Hv).
    pose proof (hexstep_mono d (hexstep a c) ltac:(lia) Hd) as Hm.
    simpl app. cbn [parse_digits]. rewrite Hv.
    change (G_MAXUINT64 / 16) with 1152921504606846975.
    change (G_MAXUINT64 mod 16) with 15.
    change G_MAXUINT64 with 18446744073709551615 in *.
    replace (1152921504606846975 <? a) with false
      by (symmetry; apply Z.ltb_ge; lia).
    replace (15 <? v) with false by (symmetry; apply Z.ltb_ge; lia).
    rewrite andb_false_r. simpl orb. cbv iota.
    rewrite <- Hstep, IH; [done|done|done|lia|done].
Qed.

Lemma hexval_take (d : list ascii) (j : nat) :
  Forall (λ c, c ∈ hexdigits) d → hexval (take j d) ≤ hexval d.
Proof.
  intros Hd. rewrite <- (take_drop j d) at 2. unfold hexval.
  rewrite fold_left_app. apply hexstep_mono.
  - apply (hexstep_mono (take j d) 0); [lia|]. by apply Forall_take.
  - by apply Forall_drop.
Qed.

(** [g_ascii_strtoll] on a size line reads all of it and nothing else. *)
Lemma strtoll_hex (d rest : list ascii) :
  d ≠ [] → Forall (λ c, c ∈ hexdigits) d → stops rest →
  hexval d ≤ G_MAXINT64 →
  g_ascii_strtoll (d ++ rest) = (hexval d, length d).
Proof.
  intros Hne Hd Hs Hmax. destruct d as [|c d]; [done|].
  pose proof Hd as Hd'. apply Forall_cons in Hd' as [Hc Hd'].
  destruct (hexdigit_facts c Hc) as (v & Hv & Hr & Hnul & Hsp & Hm & Hp & Hx).
  unfold g_ascii_strtoll, g_parse_long_long.
  simpl app. cbn [count_space]. rewrite Hsp. cbn [drop].
  rewrite Hm, Hp. cbn [orb drop].
  assert (Hpx : match d ++ rest with
                | x :: _ => Ascii.eqb c (chr 48) && Ascii.eqb (TOUPPER x) (chr 88)
                | [] => false
                end = false).
  { destruct d as [|x d]; simpl.
    - destruct rest as [|x rest]; [done|]. destruct Hs as [_ ->].
      apply andb_false_r.
    - apply Forall_cons in Hd' as [Hxd _].
      destruct (hexdigit_facts x Hxd) as (? & _ & _ & _ & _ & _ & _ & ->).
      apply andb_false_r. }
  assert (Hpx' : match d ++ rest with
                 | x :: _ =>
                     if Ascii.eqb c (chr 48) && Ascii.eqb (TOUPPER x) (chr 88)
                     then 2%nat else 0%nat
                 | [] => 0%nat
                 end = 0%nat).
  { destruct (d ++ rest); [done|]. by rewrite Hpx. }
  rewrite Hpx'. cbn [drop]. change (c :: d ++ rest) with ((c :: d) ++ rest).
  rewrite parse_digits_hex; [|done|done|done|].
  2:{ fold (hexval (c :: d)). unfold G_MAXINT64, G_MAXUINT64 in *. lia. }
  fold (hexval (c :: d)). cbn [length Nat.add andb negb].
  replace (G_MAXINT64 <? hexval (c :: d)) with false
    by (symmetry; apply Z.ltb_ge; lia).
  done.
Qed.

Lemma size_line_nonul (d : list ascii) (n : nat) : size_line d n → NUL ∉ d.
Proof.
  intros (_ & Hd & _) Hin. rewrite Forall_forall in Hd.
  destruct (hexdigit_facts _ (Hd _ Hin)) as (? & _ & _ & ? & _). done.
Qed.

Lemma CRLF_nonul : NUL ∉ CRLF.
Proof.
  intros Hin. apply elem_of_cons in Hin as [?|Hin]; [done|].
  apply elem_of_cons in Hin as [?|Hin]; [done|]. by apply elem_of_nil in Hin.
Qed.

Lemma stops_app_CR (e l : list ascii) : stops e → stops (e ++ CR :: l).
Proof. by destruct e. Qed.

Lemma stops_prefix (r l : list ascii) : r `prefix_of` l → stops l → stops r.
Proof. intros [k ->]. by destruct r. Qed.

Lemma strstr_no_LF (l : list ascii) : LF ∉ l → strstr l CRLF = None.
Proof.
  induction l as [|c l IH]; intros Hl; [done|].
  apply not_elem_of_cons in Hl as [Hc Hl].
  rewrite strstr_unfold.
  destruct (starts_with CRLF (cstr (c :: l))) eqn:Hs.
  - exfalso. apply starts_with_inv in Hs as [tl Hs].
    destruct (cstr_prefix (c :: l)) as (r & Hr & _). rewrite Hs in Hr.
    injection Hr as -> Hr. destruct l as [|x l]; [done|].
    injection Hr as -> _. apply Hl. left.
  - destruct (Ascii.eqb c NUL); [done|]. by rewrite IH.
Qed.

(** [strstr] runs over a chunk extension to the CRLF behind it. *)
Lemma strstr_ext (e after : list ascii) :
  NUL ∉ e → LF ∉ e → strstr (e ++ CRLF ++ after) CRLF = Some (length e).
Proof.
  induction e as [|c e IH]; intros Hn Hl.
  - exact (strstr_here CRLF after CRLF_nonul).
  - apply not_elem_of_cons in Hn as [Hcn Hn].
    apply not_elem_of_cons in Hl as [Hcl Hl].
    rewrite strstr_unfold.
    destruct (starts_with CRLF (cstr ((c :: e) ++ CRLF ++ after))) eqn:Hs.
    + exfalso. apply starts_with_inv in Hs as [tl Hs].
      destruct (cstr_prefix ((c :: e) ++ CRLF ++ after)) as (r & Hr & _).
      rewrite Hs in Hr. injection Hr as -> Hr.
      destruct e as [|x e]; [done|]. injection Hr as -> _. apply Hl. left.
    + cbn [app].
      destruct (Ascii.eqb c NUL) eqn:E; [apply ascii_eqb_true in E; congruence|].
      by rewrite IH.
Qed.

(** One round of the loop in front of a size line that is followed by
    CRLF: what is left to decide is whether payload and CRLF are there. *)
Lemma chunk_loop_size_line (fuel : nat) (buf pre d e after : list ascii)
    (n : nat) (len : Z) (done_ : list chunk) :
  buf = pre ++ d ++ e ++ CRLF ++ after →
  size_line d n → ext_ok e →
  Z.of_nat (length buf) < 2 ^ 32 →
  Z.of_nat n + 2 < 2 ^ 32 →
  let tmp := (length pre + length d + length e + 2)%nat in
  chunk_loop (S fuel) buf (length pre) len done_ =
    if Z.of_nat (length after) <? Z.of_nat n + 2 then ChunkIncomplete
    else if Z.of_nat n =? 0 then
      let data := concat (chunk_data buf <$> done_) in
      if Z.of_nat (length data) =? gint (len + 0)
      then ChunkDone (gint (len + 0)) data (tmp + 2)
      else ChunkFault
    else chunk_loop fuel buf (tmp + n + 2) (gint (len + Z.of_nat n))
                    (done_ ++ [Chunk (Z.of_nat n) tmp]).
Proof.
  intros Hbuf Hd (Hen & Hel & Hes) Hlen Hn tmp.
  pose proof (size_line_nonul _ _ Hd) as Hnul.
  destruct Hd as (Hne & Hhex & Hval).
  assert (Hdl : (0 < length d)%nat) by (destruct d; [done|simpl; lia]).
  assert (Hbl : length buf
                = (length pre + length d + length e + 2 + length after)%nat).
  { subst buf. rewrite !length_app. simpl. lia. }
  rewrite chunk_loop_unfold.
  assert (Hdrop : drop (length pre) buf = d ++ e ++ CRLF ++ after)
    by (subst buf; apply drop_app_length).
  rewrite Hdrop. unfold strlen.
  rewrite (cstr_app_nonul d), (cstr_app_nonul e) by done.
  rewrite (cstr_app_nonul CRLF) by apply CRLF_nonul.
  replace (length (d ++ e ++ CRLF ++ cstr after) =? 0)%nat with false
    by (symmetry; apply Nat.eqb_neq; rewrite length_app; lia).
  rewrite strtoll_hex; [|done|done|by apply stops_app_CR|].
  2:{ rewrite Hval. unfold G_MAXINT64. lia. }
  rewrite Hval. cbv zeta. rewrite guint_small by lia.
  replace (length pre =? length pre + length d)%nat with false
    by (symmetry; apply Nat.eqb_neq; lia).
  rewrite andb_false_r.
  assert (Hdrop2 : drop (length pre + length d) buf = e ++ CRLF ++ after).
  { subst buf. rewrite app_assoc, drop_app_length'; [done|].
    by rewrite length_app. }
  rewrite Hdrop2, strstr_ext by done.
  fold tmp.
  rewrite (guint_small (_ - _)) by (unfold tmp; lia).
  rewrite (guint_small (_ + 2)) by lia.
  replace (Z.of_nat (length buf) - Z.of_nat tmp) with (Z.of_nat (length after))
    by (unfold tmp; lia).
  destruct (_ <? _) eqn:Hrem; [done|]. apply Z.ltb_ge in Hrem.
  destruct (Z.of_nat n =? 0) eqn:Hz.
  - apply Z.eqb_eq in Hz. rewrite Hz.
    by replace (Z.to_nat (Z.of_nat tmp + 0 + 2)) with (tmp + 2)%nat by lia.
  - replace (Z.of_nat (length buf) <? Z.of_nat tmp + Z.of_nat n + 2) with false
      by (symmetry; apply Z.ltb_ge; unfold tmp; lia).
    by replace (Z.to_nat (Z.of_nat tmp + Z.of_nat n + 2))
      with (tmp + n + 2)%nat by lia.
Qed.

(** The loop in front of a size line that is cut short: digits, maybe
    some of the extension or the CR, and the end of what has arrived. *)
Lemma chunk_loop_cut_size_line (fuel : nat) (pre d e p : list ascii) (n : nat)
    (len : Z) (done_ : list chunk) :
  size_line d n → ext_ok e →
  Z.of_nat n < 2 ^ 32 →
  p `prefix_of` d ++ e ++ [CR] →
  chunk_loop (S fuel) (pre ++ p) (length pre) len done_ = ChunkIncomplete.
Proof.
  intros Hd (Hen & Hel & Hes) Hn Hp.
  pose proof (size_line_nonul _ _ Hd) as Hnul.
  destruct Hd as (Hne & Hhex & Hval).
  rewrite chunk_loop_unfold, drop_app_length.
  destruct (decide (p = [])) as [->|Hpne]; [done|].
  assert (Hcase : ∃ d' r, p = d' ++ r ∧ d' ≠ [] ∧ d' `prefix_of` d ∧
                          r `prefix_of` e ++ [CR] ∧ (d' = d ∨ r = [])).
  { destruct (decide (length p ≤ length d)%nat) as [Hle|Hgt].
    - exists p, []. rewrite app_nil_r. split_and!; try done.
      + destruct Hp as [k Hk]. exists (take (length d - length p) k).
        apply (f_equal (take (length d))) in Hk.
        rewrite take_app_length, take_app_ge in Hk by lia. done.
      + apply prefix_nil.
      + by right.
    - exists d, (drop (length d) p). destruct Hp as [k Hk].
      assert (Hpd : p = d ++ drop (length d) p).
      { rewrite <- (take_drop (length d) p) at 1. f_equal.
        apply (f_equal (take (length d))) in Hk.
        rewrite take_app_length, take_app_le in Hk by lia. done. }
      split_and!; try done; [|by left].
      exists k. rewrite Hpd, <- app_assoc in Hk.
      by apply app_inv_head in Hk. }
  destruct Hcase as (d' & r & -> & Hd'ne & [k ->] & Hr & Hdr).
  pose proof Hhex as [Hhex' _]%Forall_app.
  assert (Hn' : NUL ∉ d') by (intros ?; apply Hnul, elem_of_app; by left).
  assert (Hrl : (LF ∉ r) ∧ (NUL ∉ r)).
  { destruct Hr as [k' Hk']. split; intros Hin.
    - assert (Hin' : LF ∈ e ++ [CR]) by (rewrite Hk'; apply elem_of_app; by left).
      apply elem_of_app in Hin' as [?|Hin']; [done|].
      apply elem_of_cons in Hin' as [?|Hin']; [done|]. by apply elem_of_nil in Hin'.
    - assert (Hin' : NUL ∈ e ++ [CR]) by (rewrite Hk'; apply elem_of_app; by left).
      apply elem_of_app in Hin' as [?|Hin']; [done|].
      apply elem_of_cons in Hin' as [?|Hin']; [done|]. by apply elem_of_nil in Hin'. }
  destruct Hrl as [Hrl Hrn].
  assert (Hrs : stops r).
  { apply (stops_prefix _ _ Hr). by apply stops_app_CR. }
  unfold strlen. rewrite (cstr_app_nonul d'), (cstr_nonul r) by done.
  replace (length (d' ++ r) =? 0)%nat with false.
  2:{ symmetry. apply Nat.eqb_neq. rewrite length_app.
      destruct d'; [done|simpl; lia]. }
  assert (Hv : hexval d' ≤ hexval (d' ++ k)).
  { pose proof (hexval_take (d' ++ k) (length d')) as Ht.
    rewrite take_app_length in Ht. by apply Ht. }
  rewrite strtoll_hex; [|done|done|done|].
  2:{ rewrite Hval in Hv. unfold G_MAXINT64. lia. }
  cbv zeta.
  replace (length pre =? length pre + length d')%nat with false.
  2:{ symmetry. apply Nat.eqb_neq. destruct d'; [done|simpl; lia]. }
  rewrite andb_false_r.
  rewrite app_assoc, drop_app_length' by (by rewrite length_app).
  by rewrite strstr_no_LF.
Qed.

Lemma encode_chunked_cons (c : wire_chunk) (cs : list wire_chunk)
    (last : wire_chunk) :
  encode_chunked (c :: cs) last = encode_chunk c ++ encode_chunked cs last.
Proof. unfold encode_chunked. simpl. by rewrite <- app_assoc. Qed.

Lemma encode_chunked_nil (last : wire_chunk) :
  encode_chunked [] last = encode_chunk last.
Proof. reflexivity. Qed.

Lemma encode_chunk_length (c : wire_chunk) :
  length (encode_chunk c)
  = (length (size_digits c) + length (extension c) + 2
     + length (payload c) + 2)%nat.
Proof. unfold encode_chunk. rewrite !length_app. simpl. lia. Qed.

Lemma encode_chunked_length (cs : list wire_chunk) (last : wire_chunk) :
  (length cs + 4 ≤ length (encode_chunked cs last))%nat.
Proof.
  induction cs as [|c cs IH].
  - rewrite encode_chunked_nil, encode_chunk_length. simpl. lia.
  - rewrite encode_chunked_cons, length_app, encode_chunk_length. simpl. lia.
Qed.

Lemma chunk_data_at (buf pre pl rest : list ascii) :
  buf = pre ++ pl ++ rest →
  chunk_data buf (Chunk (Z.of_nat (length pl)) (length pre)) = pl.
Proof.
  intros ->. unfold chunk_data. simpl.
  rewrite drop_app_length, Nat2Z.id. apply take_app_length.
Qed.

(** A chunked body that is there in full: the loop ends at the last
    chunk with the payloads in order. *)
Lemma chunk_loop_complete (cs : list wire_chunk) :
  ∀ (fuel : nat) (buf pre tail : list ascii) (last : wire_chunk)
    (done_ : list chunk),
  buf = pre ++ encode_chunked cs last ++ tail →
  Forall chunk_ok cs → last_ok last →
  (length cs < fuel)%nat →
  Z.of_nat (length buf) < 2 ^ 31 →
  Z.of_nat (length (concat (chunk_data buf <$> done_)))
    + Z.of_nat (length (encode_chunked cs last)) < 2 ^ 31 →
  let data := concat (chunk_data buf <$> done_) ++ concat (payload <$> cs) in
  chunk_loop fuel buf (length pre)
    (Z.of_nat (length (concat (chunk_data buf <$> done_)))) done_
  = ChunkDone (Z.of_nat (length data)) data
      (length pre + length (encode_chunked cs last)).
Proof.
  induction cs as [|c cs IH];
    intros [|fuel] buf pre tail last done_ Hbuf Hcs Hlast Hfuel Hlen Hsum;
    simpl in Hfuel; try lia.
  - rewrite encode_chunked_nil in *. destruct Hlast as (Hpl & Hz & He).
    rewrite encode_chunk_length, Hpl in Hsum.
    unfold encode_chunk in Hbuf. rewrite Hpl in Hbuf.
    pose proof (chunk_loop_size_line fuel buf pre (size_digits last)
      (extension last) (CRLF ++ tail) 0
      (Z.of_nat (length (concat (chunk_data buf <$> done_)))) done_) as Hstep.
    cbv zeta in Hstep.
    rewrite Hstep; [|by rewrite Hbuf, <- !app_assoc|done|done|lia|lia].
    rewrite length_app. change (length CRLF) with 2%nat.
    replace (_ <? _) with false by (symmetry; apply Z.ltb_ge; lia).
    change (Z.of_nat 0 =? 0) with true. cbv iota.
    rewrite Z.add_0_r, gint_small by lia.
    rewrite Z.eqb_refl. change (payload <$> []) with (@nil (list ascii)).
    change (concat []) with (@nil ascii). rewrite !app_nil_r. f_equal.
    rewrite encode_chunk_length, Hpl. simpl. lia.
  - apply Forall_cons in Hcs as [(Hpl & Hsz & He) Hcs].
    rewrite encode_chunked_cons in *. rewrite length_app in Hsum.
    rewrite encode_chunk_length in Hsum.
    set (d := size_digits c) in *. set (e := extension c) in *.
    set (pl := payload c) in *.
    assert (Hbuf' : buf = pre ++ d ++ e ++ CRLF ++
                          (pl ++ CRLF ++ encode_chunked cs last ++ tail)).
    { rewrite Hbuf. unfold encode_chunk. fold d e pl. by rewrite <- !app_assoc. }
    pose proof (chunk_loop_size_line fuel buf pre d e _ (length pl)
      (Z.of_nat (length (concat (chunk_data buf <$> done_)))) done_
      Hbuf' Hsz He) as Hstep.
    cbv zeta in Hstep. rewrite Hstep; [|lia|lia]. clear Hstep.
    assert (Hpl0 : (0 < length pl)%nat) by (destruct pl; [done|simpl; lia]).
    replace (_ <? _) with false.
    2:{ symmetry. apply Z.ltb_ge. rewrite !length_app. simpl. lia. }
    replace (Z.of_nat (length pl) =? 0) with false
      by (symmetry; apply Z.eqb_neq; lia).
    assert (Hdata : concat (chunk_data buf <$>
                      done_ ++ [Chunk (Z.of_nat (length pl))
                                  (length pre + length d + length e + 2)])
                    = concat (chunk_data buf <$> done_) ++ pl).
    { rewrite fmap_app, concat_app. simpl. rewrite app_nil_r. f_equal.
      replace (length pre + length d + length e + 2)%nat
        with (length (pre ++ d ++ e ++ CRLF))
        by (rewrite !length_app; simpl; lia).
      apply (chunk_data_at _ _ _ (CRLF ++ encode_chunked cs last ++ tail)).
      rewrite Hbuf'. by rewrite <- !app_assoc. }
    rewrite gint_small by lia.
    replace (Z.of_nat (length (concat (chunk_data buf <$> done_)))
             + Z.of_nat (length pl))
      with (Z.of_nat (length (concat (chunk_data buf <$> done_) ++ pl)))
      by (rewrite length_app; lia).
    rewrite <- Hdata.
    replace (length pre + length d + length e + 2 + length pl + 2)%nat
      with (length (pre ++ encode_chunk c))
      by (rewrite length_app, encode_chunk_length; fold d e pl; lia).
    rewrite (IH fuel buf (pre ++ encode_chunk c) tail last); try done; try lia.
    + rewrite Hdata, <- !app_assoc. simpl. fold pl. f_equal.
      rewrite !length_app. lia.
    + by rewrite Hbuf, <- !app_assoc.
    + rewrite Hdata, length_app. lia.
Qed.

(** One chunk on the wire, cut anywhere in front of its end. *)
Lemma chunk_loop_cut_chunk (fuel k : nat) (pre d e pl : list ascii)
    (len : Z) (done_ : list chunk) :
  size_line d (length pl) → ext_ok e →
  Z.of_nat (length pre + length (d ++ e ++ CRLF ++ pl ++ CRLF)) < 2 ^ 31 →
  (k < length d + length e + 2 + length pl + 2)%nat →
  chunk_loop (S fuel) (pre ++ take k (d ++ e ++ CRLF ++ pl ++ CRLF))
             (length pre) len done_
  = ChunkIncomplete.
Proof.
  intros Hsz He Hlen Hk. rewrite !length_app in Hlen.
  change (length CRLF) with 2%nat in Hlen.
  destruct (decide (k ≤ length d + length e + 1)%nat) as [Hle|Hgt].
  - apply (chunk_loop_cut_size_line _ _ d e _ (length pl)); [done|done|lia|].
    replace (d ++ e ++ CRLF ++ pl ++ CRLF)
      with ((d ++ e ++ [CR]) ++ [LF] ++ pl ++ CRLF)
      by by rewrite <- !app_assoc.
    rewrite take_app_le by (rewrite !length_app; simpl; lia).
    apply prefix_take.
  - replace (d ++ e ++ CRLF ++ pl ++ CRLF)
      with ((d ++ e ++ CRLF) ++ pl ++ CRLF) by by rewrite <- !app_assoc.
    rewrite take_app_ge by (rewrite !length_app; simpl; lia).
    rewrite !length_app. change (length CRLF) with 2%nat.
    set (after := take _ (pl ++ CRLF)).
    assert (Hafter : (length after < length pl + 2)%nat).
    { unfold after. rewrite length_take, !length_app.
      change (length CRLF) with 2%nat. lia. }
    pose proof (chunk_loop_size_line fuel (pre ++ (d ++ e ++ CRLF) ++ after)
      pre d e after (length pl) len done_) as Hstep.
    cbv zeta in Hstep.
    rewrite Hstep; [|by rewrite <- !app_assoc|done|done| |lia].
    + replace (_ <? _) with true; [done|]. symmetry. apply Z.ltb_lt. lia.
    + rewrite !length_app. change (length CRLF) with 2%nat. lia.
Qed.

(** A chunked body that has arrived in part only: the loop gives up. *)
Lemma chunk_loop_partial (cs : list wire_chunk) :
  ∀ (fuel k : nat) (pre : list ascii) (last : wire_chunk) (len : Z)
    (done_ : list chunk),
  Forall chunk_ok cs → last_ok last →
  (length cs < fuel)%nat →
  Z.of_nat (length pre + length (encode_chunked cs last)) < 2 ^ 31 →
  (k < length (encode_chunked cs last))%nat →
  chunk_loop fuel (pre ++ take k (encode_chunked cs last)) (length pre)
             len done_
  = ChunkIncomplete.
Proof.
  induction cs as [|c cs IH];
    intros [|fuel] k pre last len done_ Hcs Hlast Hfuel Hlen Hk;
    simpl in Hfuel; try lia.
  - rewrite encode_chunked_nil in *. destruct Hlast as (Hpl & Hz & He).
    rewrite encode_chunk_length in Hk. unfold encode_chunk in *.
    rewrite Hpl in *. by apply chunk_loop_cut_chunk.
  - apply Forall_cons in Hcs as [(Hpl & Hsz & He) Hcs].
    rewrite encode_chunked_cons in *. rewrite !length_app in Hlen, Hk.
    pose proof (encode_chunk_length c) as Hcl.
    unfold encode_chunk in *. set (d := size_digits c) in *.
    set (e := extension c) in *.
    set (pl := payload c) in *. set (enc := encode_chunked cs last) in *.
    assert (Hpl0 : (0 < length pl)%nat) by (destruct pl; [done|simpl; lia]).
    destruct (decide (k < length d + length e + 2 + length pl + 2)%nat)
      as [Hlt|Hge].
    + rewrite take_app_le by lia.
      apply chunk_loop_cut_chunk; try done; lia.
    + rewrite take_app_ge by lia. rewrite Hcl.
      set (k' := (k - (length d + length e + 2 + length pl + 2))%nat).
      pose proof (chunk_loop_size_line fuel
        (pre ++ (d ++ e ++ CRLF ++ pl ++ CRLF) ++ take k' enc)
        pre d e ((pl ++ CRLF) ++ take k' enc) (length pl) len done_) as Hstep.
      cbv zeta in Hstep.
      rewrite Hstep; [|by rewrite <- !app_assoc|done|done| |lia].
      2:{ rewrite !length_app, length_take. change (length CRLF) with 2%nat.
          lia. }
      clear Hstep.
      replace (_ <? _) with false.
      2:{ symmetry. apply Z.ltb_ge. rewrite !length_app.
          change (length CRLF) with 2%nat. lia. }
      replace (Z.of_nat (length pl) =? 0) with false
        by (symmetry; apply Z.eqb_neq; lia).
      replace (pre ++ (d ++ e ++ CRLF ++ pl ++ CRLF) ++ take k' enc)
        with ((pre ++ d ++ e ++ CRLF ++ pl ++ CRLF) ++ take k' enc)
        by by rewrite <- !app_assoc.
      replace (length pre + length d + length e + 2 + length pl + 2)%nat
        with (length (pre ++ d ++ e ++ CRLF ++ pl ++ CRLF))
        by (rewrite (length_app pre); lia).
      apply IH; try done; try lia; fold enc.
      * rewrite (length_app pre). lia.
      * unfold k'. lia.
Qed.

(** *** Size lines as a sender writes them *)

Lemma hexchar_digit (v : Z) :
  0 ≤ v < 16 → digit16 (hexchar v) = Some v ∧ hexchar v ∈ hexdigits.
Proof.
  intros Hv.
  assert (Hc : v = 0 ∨ v = 1 ∨ v = 2 ∨ v = 3 ∨ v = 4 ∨ v = 5 ∨ v = 6 ∨ v = 7 ∨
               v = 8 ∨ v = 9 ∨ v = 10 ∨ v = 11 ∨ v = 12 ∨ v = 13 ∨ v = 14 ∨
               v = 15) by lia.
  clear Hv.
  repeat (destruct Hc as [->|Hc]; [split; [reflexivity|by vm_compute; set_solver]|]).
  subst. split; [reflexivity|by vm_compute; set_solver].
Qed.

Lemma to_hex_aux_spec (fuel : nat) :
  ∀ (n : Z) (acc : list ascii),
  0 ≤ n < 16 ^ Z.of_nat fuel →
  Forall (λ c, c ∈ hexdigits) acc →
  fold_left hexstep (to_hex_aux fuel n acc) 0 = fold_left hexstep acc n ∧
  Forall (λ c, c ∈ hexdigits) (to_hex_aux fuel n acc) ∧
  ((0 < fuel)%nat → to_hex_aux fuel n acc ≠ []).
Proof.
  induction fuel as [|fuel IH]; intros n acc Hn Hacc.
  - change (16 ^ Z.of_nat 0) with 1 in Hn. assert (n = 0) as -> by lia.
    simpl. repeat split; [done|lia].
  - cbn [to_hex_aux].
    assert (Hm : 0 ≤ n mod 16 < 16) by (apply Z.mod_pos_bound; lia).
    destruct (hexchar_digit _ Hm) as [Hd Hin].
    destruct (n <? 16) eqn:Hlt.
    + apply Z.ltb_lt in Hlt. rewrite Z.mod_small in * by lia.
      repeat split; [|by constructor|done].
      cbn [fold_left]. unfold hexstep at 2. by rewrite Hd.
    + apply Z.ltb_ge in Hlt.
      assert (Hf : (0 < fuel)%nat).
      { destruct fuel; [|lia]. change (16 ^ Z.of_nat 1) with 16 in Hn. lia. }
      assert (Hq : 0 ≤ n / 16 < 16 ^ Z.of_nat fuel).
      { split; [apply Z.div_pos; lia|]. apply Z.div_lt_upper_bound; [lia|].
        rewrite Nat2Z.inj_succ, Z.pow_succ_r in Hn by lia. lia. }
      destruct (IH (n / 16) (hexchar (n mod 16) :: acc) Hq) as (H1 & H2 & H3);
        [by constructor|].
      repeat split; [|done|auto].
      rewrite H1. cbn [fold_left]. unfold hexstep at 2. rewrite Hd.
      f_equal. cbn [default from_option id]. pose proof (Z.div_mod n 16). lia.
Qed.

Lemma to_hex_size_line (n : nat) : Z.of_nat n < 2 ^ 64 → size_line (to_hex n) n.
Proof.
  intros Hn. unfold to_hex.
  destruct (to_hex_aux_spec 16 (Z.of_nat n) []) as (H1 & H2 & H3);
    [change (16 ^ Z.of_nat 16) with (2 ^ 64); lia|done|].
  repeat split; [apply H3; lia|done|]. unfold hexval. by rewrite H1.
Qed.

Lemma ext_ok_nil : ext_ok [].
Proof. repeat split; apply not_elem_of_nil. Qed.

Lemma chunk_of_ok (payloads : list (list ascii)) :
  Forall (λ p, p ≠ [] ∧ Z.of_nat (length p) < 2 ^ 64) payloads →
  Forall chunk_ok (chunk_of <$> payloads).
Proof.
  intros H. apply Forall_fmap. eapply Forall_impl; [done|].
  intros p [Hne Hl]. split; [done|]. split; [by apply to_hex_size_line|].
  apply ext_ok_nil.
Qed.

Lemma payload_chunk_of (payloads : list (list ascii)) :
  payload <$> (chunk_of <$> payloads) = payloads.
Proof. induction payloads; simpl; [done|]. by f_equal. Qed.

Lemma last_chunk_ok : last_ok last_chunk.
Proof.
  split; [done|]. split; [|apply ext_ok_nil].
  repeat split; [done|]. repeat constructor.
Qed.

Lemma http_chunked_length (payloads : list (list ascii)) (p : list ascii) :
  p ∈ payloads → (length p ≤ length (http_chunked payloads))%nat.
Proof.
  unfold http_chunked. induction payloads as [|q payloads IH]; intros Hin.
  - by apply elem_of_nil in Hin.
  - rewrite fmap_cons, encode_chunked_cons, length_app, encode_chunk_length.
    apply elem_of_cons in Hin as [->|Hin]; [simpl; lia|].
    specialize (IH Hin). lia.
Qed.

(** ** The framer on chunked bodies *)

Section ChunkedFacts.

Variable sipmsg_parse_header : list ascii → option sipmsg.
Variable SIPMSG_BODYLEN_CHUNKED : Z.

Local Abbreviation framer := (framer sipmsg_parse_header SIPMSG_BODYLEN_CHUNKED).

(** The chunked branch, entered behind a header block at [pos]. *)
Lemma framer_chunked_branch (buffer : list ascii) (pos : nat) (msg : sipmsg) :
  let b := skip_crlf buffer in
  let marked := <[(pos + 2)%nat := NUL]> b in
  strstr b CRLFCRLF = Some pos →
  sipmsg_parse_header (take (pos + 2) b) = Some msg →
  bodylen msg = SIPMSG_BODYLEN_CHUNKED →
  framer buffer =
    match chunk_loop (S (length b)) marked (pos + 4) 0 [] with
    | ChunkDone len data start =>
        (Complete (set_body msg len data), drop start marked)
    | ChunkIncomplete => (Incomplete, b)
    | ChunkFault => (Fault, marked)
    end.
Proof.
  intros b marked Hpos Hparse Hch.
  unfold framer, sipe_utils_shrink_buffer. rewrite skip_crlf_drop. fold b.
  rewrite Hpos, header_mark_cstr, Hparse by done.
  apply Z.eqb_eq in Hch. rewrite Hch, header_mark_length.
  replace (pos + 2 + 2)%nat with (pos + 4)%nat by lia. fold marked.
  destruct (chunk_loop _ _ _ _ _); try done.
  unfold marked. by rewrite header_mark_restore.
Qed.

(** A header block that parses never comes out as [Malformed]. *)
Lemma framer_chunked_not_malformed (buffer : list ascii) (pos : nat)
    (msg : sipmsg) :
  strstr (skip_crlf buffer) CRLFCRLF = Some pos →
  sipmsg_parse_header (take (pos + 2) (skip_crlf buffer)) = Some msg →
  bodylen msg = SIPMSG_BODYLEN_CHUNKED →
  fst (framer buffer) ≠ Malformed.
Proof.
  intros Hpos Hparse Hch.
  rewrite (framer_chunked_branch buffer pos msg Hpos Hparse Hch).
  by destruct (chunk_loop _ _ _ _ _).
Qed.

Lemma marked_split (b : list ascii) (pos : nat) :
  (pos + 4 ≤ length b)%nat →
  <[(pos + 2)%nat := NUL]> b
  = <[(pos + 2)%nat := NUL]> (take (pos + 4) b) ++ drop (pos + 4) b.
Proof.
  intros Hl. rewrite <- (take_drop (pos + 4) b) at 1.
  apply insert_app_l. rewrite length_take. lia.
Qed.

(** The framer on a chunked body as it is on the wire, in full and in
    part. *)
Lemma framer_chunked_wire (buffer : list ascii) (pos : nat) (msg : sipmsg)
    (cs : list wire_chunk) (last : wire_chunk) (tail : list ascii) :
  let b := skip_crlf buffer in
  let lead := (length buffer - length b)%nat in
  let wire := encode_chunked cs last in
  let data := concat (payload <$> cs) in
  strstr b CRLFCRLF = Some pos →
  sipmsg_parse_header (take (pos + 2) b) = Some msg →
  bodylen msg = SIPMSG_BODYLEN_CHUNKED →
  drop (pos + 4) b = wire ++ tail →
  Forall chunk_ok cs → last_ok last →
  Z.of_nat (length buffer) < 2 ^ 31 →
  framer buffer
  = (Complete (set_body msg (Z.of_nat (length data)) data), tail) ∧
  drop (lead + (pos + 4) + length wire) buffer = tail ∧
  ∀ k, (k < lead + (pos + 4) + length wire)%nat →
       framer (take k buffer) = (Incomplete, skip_crlf (take k buffer)).
Proof.
  intros b lead wire data Hpos Hparse Hch Hbody Hcs Hz Hlen.
  destruct (header_found _ _ Hpos) as (_ & _ & _ & Hl).
  pose proof (skip_crlf_length buffer) as Hsk. fold b in Hsk.
  pose proof (encode_chunked_length cs last) as Hwl. fold wire in Hwl.
  assert (Hbl : length b = (pos + 4 + length wire + length tail)%nat).
  { rewrite <- (take_drop (pos + 4) b), Hbody, !length_app, length_take. lia. }
  set (pre := <[(pos + 2)%nat := NUL]> (take (pos + 4) b)).
  assert (Hpre : length pre = (pos + 4)%nat).
  { unfold pre. rewrite length_insert, length_take. lia. }
  split; [|split].
  - rewrite (framer_chunked_branch _ pos msg) by done. fold b.
    rewrite marked_split by done. fold pre. rewrite Hbody.
    pose proof (chunk_loop_complete cs (S (length b)) (pre ++ wire ++ tail)
                  pre tail last [] eq_refl Hcs Hz) as Hloop.
    cbv zeta in Hloop. rewrite Hpre in Hloop. fold wire in Hloop.
    change (concat (chunk_data (pre ++ wire ++ tail) <$> [])) with (@nil ascii)
      in Hloop.
    cbn [length app] in Hloop. change (Z.of_nat 0) with 0 in Hloop.
    rewrite Hloop; [|lia|..].
    + fold data. f_equal.
      rewrite app_assoc. apply drop_app_length'. rewrite length_app. lia.
    + rewrite !length_app. lia.
    + lia.
  - replace (lead + (pos + 4) + length wire)%nat
      with (lead + (pos + 4 + length wire))%nat by lia.
    rewrite <- drop_drop. unfold lead. rewrite skip_crlf_drop. fold b.
    rewrite <- drop_drop, Hbody. apply drop_app_length.
  - intros k Hk.
    assert (Hbk : skip_crlf (take k buffer) = take (k - lead) b)
      by apply skip_crlf_take.
    set (k' := (k - lead)%nat) in *.
    assert (Hk' : (k' < pos + 4 + length wire)%nat) by (unfold k'; lia).
    pose proof (strstr_take b CRLFCRLF pos k' Hpos) as Hst.
    change (length CRLFCRLF) with 4%nat in Hst.
    destruct (decide (pos + 4 ≤ k')%nat) as [Hge|Hlt]; rewrite <- Hbk in Hst.
    + assert (Hparse' : sipmsg_parse_header
                (take (pos + 2) (skip_crlf (take k buffer))) = Some msg).
      { rewrite Hbk, take_take.
        by replace ((pos + 2) `min` k')%nat with (pos + 2)%nat by lia. }
      rewrite (framer_chunked_branch _ pos msg Hst Hparse' Hch).
      rewrite Hbk, marked_split by (rewrite length_take; lia).
      rewrite take_take.
      replace ((pos + 4) `min` k')%nat with (pos + 4)%nat by lia. fold pre.
      assert (Hd : drop (pos + 4) (take k' b) = take (k' - (pos + 4)) wire).
      { replace k' with (pos + 4 + (k' - (pos + 4)))%nat at 1 by lia.
        by rewrite <- take_drop_commute, Hbody, take_app_le by lia. }
      rewrite Hd.
      rewrite <- Hpre. unfold wire in *.
      rewrite (chunk_loop_fuel _ (S (length cs + length (take k' b))))
        by (rewrite !length_app, !length_take; lia).
      rewrite chunk_loop_partial; try done; lia.
    + by apply framer_no_terminator.
Qed.

(** C2: a header block that declares a chunked body, followed by all of
    the chunked body: the framer gives [Complete], the body is the
    payloads of the chunks in order and its length is their total
    length, and everything up to and including the CRLF behind the last
    chunk is consumed.  While only a part of these bytes has arrived,
    the framer gives [Incomplete]. *)
Theorem framer_chunked (buffer : list ascii) (pos : nat) (msg : sipmsg)
    (cs : list wire_chunk) (last : wire_chunk) (tail : list ascii) :
  let b := skip_crlf buffer in
  let lead := (length buffer - length b)%nat in
  let wire := encode_chunked cs last in
  let data := concat (payload <$> cs) in
  strstr b CRLFCRLF = Some pos →
  sipmsg_parse_header (take (pos + 2) b) = Some msg →
  bodylen msg = SIPMSG_BODYLEN_CHUNKED →
  drop (pos + 4) b = wire ++ tail →
  Forall chunk_ok cs → last_ok last →
  Z.of_nat (length buffer) < 2 ^ 31 →
  framer buffer
  = (Complete (set_body msg (Z.of_nat (length data)) data), tail) ∧
  drop (lead + (pos + 4) + length wire) buffer = tail ∧
  ∀ k, (k < lead + (pos + 4) + length wire)%nat →
       framer (take k buffer) = (Incomplete, skip_crlf (take k buffer)).
Proof. apply framer_chunked_wire. Qed.

End ChunkedFacts.

(** ** Chunked bodies: a sender's encoding, examples, and the size wrap *)

Section ChunkedExamples.

Variable sipmsg_parse_header : list ascii → option sipmsg.
Variable SIPMSG_BODYLEN_CHUNKED : Z.

Local Abbreviation framer := (framer sipmsg_parse_header SIPMSG_BODYLEN_CHUNKED).

(** Round trip: what a sender writes for the payloads behind a header
    block comes out of the framer as their concatenation. *)
Corollary framer_http_chunked (hdr : list ascii) (msg : sipmsg)
    (payloads : list (list ascii)) (tail : list ascii) :
  let buffer := hdr ++ CRLFCRLF ++ http_chunked payloads ++ tail in
  skip_crlf hdr = hdr → hdr ≠ [] →
  strstr (hdr ++ CRLFCRLF) CRLFCRLF = Some (length hdr) →
  sipmsg_parse_header (hdr ++ CRLF) = Some msg →
  bodylen msg = SIPMSG_BODYLEN_CHUNKED →
  Forall (λ p, p ≠ []) payloads →
  Z.of_nat (length buffer) < 2 ^ 31 →
  framer buffer
  = (Complete (set_body msg (Z.of_nat (length (concat payloads)))
                 (concat payloads)), tail).
Proof.
  intros buffer Hskip Hne Hpos Hparse Hch Hpl Hlen.
  assert (Hb : skip_crlf buffer = buffer).
  { unfold buffer. destruct hdr as [|c hdr]; [done|]. simpl in *.
    destruct (Ascii.eqb c CR || Ascii.eqb c LF); [|done].
    pose proof (skip_crlf_length hdr) as Hl. rewrite Hskip in Hl.
    simpl in Hl. lia. }
  assert (Hpos' : strstr buffer CRLFCRLF = Some (length hdr)).
  { unfold buffer. rewrite app_assoc. by apply strstr_app_l. }
  pose proof (framer_chunked_wire sipmsg_parse_header SIPMSG_BODYLEN_CHUNKED
    buffer (length hdr) msg (chunk_of <$> payloads) last_chunk tail) as Hf.
  cbv zeta in Hf. rewrite Hb, payload_chunk_of in Hf. apply Hf; try done.
  - replace (take (length hdr + 2) buffer) with (hdr ++ CRLF); [done|].
    unfold buffer. rewrite take_app_ge by lia.
    by replace (length hdr + 2 - length hdr)%nat with 2%nat by lia.
  - unfold buffer. rewrite app_assoc. apply drop_app_length'.
    rewrite length_app. done.
  - apply chunk_of_ok. apply Forall_forall. intros p Hp.
    split; [by eapply Forall_forall in Hpl|].
    assert (Hin : (length p ≤ length buffer)%nat); [|lia].
    unfold buffer. rewrite !length_app.
    pose proof (http_chunked_length payloads p Hp). lia.
  - apply last_chunk_ok.
Qed.

(** C9: a chunk whose size line reads [FFFFFFFF] and whose payload has
    not arrived.  [length + 2] wraps around to 1 in [guint], the test
    against [remainder] lets the chunk pass, and [start] ends up four
    gigabytes behind the buffer: the framer does not give [Incomplete]. *)
Theorem framer_chunk_size_wraps (msg : sipmsg) :
  let header := bytes "HTTP/1.1 200 OK" ++ CRLF
                  ++ bytes "Transfer-Encoding: chunked" in
  let buffer := header ++ CRLFCRLF
                  ++ bytes "FFFFFFFF" ++ CRLF ++ bytes "ab" in
  sipmsg_parse_header (header ++ CRLF) = Some msg →
  bodylen msg = SIPMSG_BODYLEN_CHUNKED →
  fst (framer buffer) = Fault ∧ fst (framer buffer) ≠ Incomplete.
Proof.
  intros header buffer Hparse Hch.
  assert (Hf : fst (framer buffer) = Fault); [|by rewrite Hf].
  rewrite (framer_chunked_branch _ _ buffer 43 msg); [|done|done|done].
  by vm_compute.
Qed.

End ChunkedExamples.

Lemma framer_chunked_witness :
  let buffer := bytes "HTTP/1.1 200 OK" ++ CRLFCRLF ++ bytes "5;q=1" ++ CRLF
                  ++ bytes "hello" ++ CRLF ++ bytes "0" ++ CRLFCRLF
                  ++ bytes "HTTP" in
  framer (const_parser [] (-1)) (-1) buffer
  = (Complete (Sipmsg 200 [] 5 (Some (bytes "hello"))), bytes "HTTP") ∧
  ∀ k, (k < 38)%nat →
       framer (const_parser [] (-1)) (-1) (take k buffer)
       = (Incomplete, skip_crlf (take k buffer)).
Proof.
  intros buffer.
  destruct (framer_chunked (const_parser [] (-1)) (-1) buffer 15
              (Sipmsg 200 [] (-1) None)
              [WireChunk (bytes "5") (bytes ";q=1") (bytes "hello")]
              last_chunk (bytes "HTTP"))
    as (H1 & _ & H3).
  - reflexivity.
  - reflexivity.
  - reflexivity.
  - reflexivity.
  - constructor; [|constructor]. split; [done|]. split.
    + repeat split; [done|repeat constructor].
    + split; [|split];
        [apply (bool_decide_unpack _); by vm_compute..|split; reflexivity].
  - apply last_chunk_ok.
  - vm_compute. reflexivity.
  - split; [exact H1|exact H3].
Defined.

Lemma framer_chunk_size_wraps_witness :
  fst (framer (const_parser [] (-1)) (-1)
         (bytes "HTTP/1.1 200 OK" ++ CRLF
            ++ bytes "Transfer-Encoding: chunked" ++ CRLFCRLF
            ++ bytes "FFFFFFFF" ++ CRLF ++ bytes "ab")) = Fault.
Proof.
  apply (framer_chunk_size_wraps (const_parser [] (-1)) (-1)
           (Sipmsg 200 [] (-1) None)); reflexivity.
Defined.

(** ** The pool *)

Lemma chr_code (c : ascii) : chr (code c) = c.
Proof. unfold chr, code. rewrite N2Z.id. apply ascii_N_embedding. Qed.

Lemma code_range (c : ascii) : 0 ≤ code c < 256.
Proof.
  unfold code. pose proof (N_ascii_bounded c). lia.
Qed.

Lemma same_letter_tolower (x y : ascii) :
  same_letter x y → g_ascii_tolower x = g_ascii_tolower y.
Proof.
  assert (Hup : ∀ u l, ISUPPER u = true → code l = code u + 32 →
                       TOLOWER u = TOLOWER l).
  { intros u l Hu Hl. unfold TOLOWER. rewrite Hu.
    unfold ISUPPER in *. apply andb_true_iff in Hu as [H1 H2].
    apply Z.leb_le in H1, H2.
    replace ((65 <=? code l) && (code l <=? 90)) with false.
    - rewrite <- (chr_code l). f_equal. lia.
    - symmetry. apply andb_false_iff. right. apply Z.leb_gt. lia. }
  unfold g_ascii_tolower. intros [->|[[Hu Hc]|[Hu Hc]]]; [done|auto|].
  symmetry. auto.
Qed.

Lemma differ_only_in_case_strdown (a b : string) :
  differ_only_in_case a b → g_ascii_strdown a = g_ascii_strdown b.
Proof.
  revert b. induction a as [|x a IH]; intros [|y b]; simpl; try done.
  intros [Hxy Hab]. f_equal; [by apply same_letter_tolower|by apply IH].
Qed.

(** A live connection is handed out as it is. *)
Lemma transport_new_reuse (s : sipe_core_private) (h : sipe_http)
    (host_in : string) (p : N) (now : Z) (conn : conn_id)
    (c : sipe_http_connection) (t : sipe_transport_connection) :
  http s = Some h →
  connections h !! make_host_port (g_ascii_strdown host_in) p = Some conn →
  heap s !! conn = Some c → connection c = Some t →
  sipe_http_transport_new s host_in p now = Some (s, conn).
Proof.
  intros Hh Hk Hc Ht.
  unfold sipe_http_transport_new, sipe_http_init. rewrite Hh. cbv zeta.
  unfold transport_lookup. rewrite Hh. cbn [mbind option_bind].
  rewrite Hk, Hc. cbn [mbind option_bind]. rewrite Ht.
  cbn [mbind option_bind]. unfold transport_establish.
  rewrite Hc. cbn [mbind option_bind]. by rewrite Ht.
Qed.

Lemma timeout_compare_Some (m : gmap conn_id sipe_http_connection)
    (a b : conn_id) (ca cb : sipe_http_connection) :
  m !! a = Some ca → m !! b = Some cb →
  timeout_compare m a b = Some (gint (timeout ca - timeout cb)).
Proof. intros Ha Hb. unfold timeout_compare. by rewrite Ha, Hb. Qed.

Lemma g_queue_insert_sorted_total (m : gmap conn_id sipe_http_connection)
    (q : list conn_id) (data : conn_id) :
  Forall (λ x, is_Some (m !! x)) q → is_Some (m !! data) →
  ∃ q', g_queue_insert_sorted (timeout_compare m) q data = Some q' ∧
        q' ≡ₚ data :: q.
Proof.
  intros Hq [cd Hd]. induction q as [|x q IH]; cbn [g_queue_insert_sorted].
  - by exists [data].
  - apply Forall_cons in Hq as [[cx Hx] Hq].
    rewrite (timeout_compare_Some _ _ _ _ _ Hx Hd). cbn [mbind option_bind].
    destruct (_ <? 0).
    + destruct (IH Hq) as (q' & -> & Hp). exists (x :: q'). split; [done|].
      rewrite Hp. apply Permutation_swap.
    + by exists (data :: x :: q).
Qed.

(** What establishing a connection does to a connection without socket. *)
Lemma transport_establish_spec (s : sipe_core_private) (h : sipe_http)
    (conn : conn_id) (c : sipe_http_connection) (host_ : string) (port_ : N)
    (now : Z) :
  http s = Some h → heap s !! conn = Some c → connection c = None →
  Forall (λ x, is_Some (heap s !! x)) (timeouts h) →
  let c' := set_timeout
              (set_connection (set_connected c false)
                 (Some (TransportConnection (next_handle s) [])))
              (now + SIPE_HTTP_DEFAULT_TIMEOUT) in
  ∃ s' q nt tl,
    transport_establish s conn host_ port_ now = Some s' ∧
    heap s' = <[conn := c']> (heap s) ∧
    http s' = Some (Http (connections h) q nt) ∧ q ≡ₚ conn :: timeouts h ∧
    (next_timeout h ≠ 0 → nt = next_timeout h ∧ timer s' = timer s) ∧
    trace s' = trace s ++ BackendConnect host_ port_ conn (next_handle s) :: tl ∧
    Forall (λ e, is_schedule e = true) tl ∧
    next_conn s' = next_conn s.
Proof.
  intros Hh Hc Hn Hq c'. unfold transport_establish.
  rewrite Hc. cbn [mbind option_bind]. rewrite Hn, Hh. cbn [mbind option_bind].
  cbv zeta. fold c'. cbn [heap].
  destruct (g_queue_insert_sorted_total (<[conn:=c']> (heap s)) (timeouts h) conn)
    as (q & -> & Hp).
  { eapply Forall_impl; [done|]. intros x [cx Hx]. cbv beta.
    destruct (decide (x = conn)) as [->|Hne].
    - rewrite lookup_insert_eq. eauto.
    - rewrite lookup_insert_ne by done. eauto. }
  { rewrite lookup_insert_eq. eauto. }
  cbn [mbind option_bind].
  destruct (next_timeout h =? 0) eqn:Hnt.
  - unfold start_timer. cbn [http set_http mbind option_bind timeouts set_timeouts].
    destruct q as [|x q]; [by apply Permutation_nil_cons in Hp|].
    cbn [g_queue_peek_head head mbind option_bind heap set_http].
    assert (Hx : is_Some (<[conn:=c']> (heap s) !! x)).
    { assert (Hin : x ∈ conn :: timeouts h) by (rewrite <- Hp; left).
      apply elem_of_cons in Hin as [->|Hin].
      - rewrite lookup_insert_eq. eauto.
      - rewrite Forall_forall in Hq. destruct (Hq _ Hin) as [cx Hx].
        destruct (decide (x = conn)) as [->|Hne].
        + rewrite lookup_insert_eq. eauto.
        + rewrite lookup_insert_ne by done. eauto. }
    destruct Hx as [cx ->]. cbn [mbind option_bind].
    eexists _, (x :: q), (timeout cx), [_]. split_and!; try done.
    + intros Hne. apply Z.eqb_eq in Hnt. contradiction.
    + cbn. by rewrite <- app_assoc.
    + by repeat constructor.
  - eexists _, q, (next_timeout h), []. split_and!; try done.
Qed.

Lemma g_queue_remove_subseteq (q : list conn_id) (data x : conn_id) :
  x ∈ g_queue_remove q data → x ∈ q.
Proof.
  induction q as [|y q IH]; simpl; [done|].
  case_decide.
  - intros. by right.
  - intros [->|Hin]%elem_of_cons; [left|right; auto].
Qed.

Lemma g_queue_remove_NoDup (q : list conn_id) (data : conn_id) :
  NoDup q → NoDup (g_queue_remove q data) ∧ data ∉ g_queue_remove q data.
Proof.
  induction 1 as [|y q Hy Hnd [IH1 IH2]]; simpl.
  - split; [constructor|apply not_elem_of_nil].
  - case_decide as Hd.
    + subst. done.
    + split.
      * constructor; [|done]. intros Hin%g_queue_remove_subseteq. done.
      * apply not_elem_of_cons. split; [congruence|done].
Qed.

Lemma is_Some_insert_mono (m : gmap conn_id sipe_http_connection)
    (conn x : conn_id) (c : sipe_http_connection) :
  is_Some (m !! x) → is_Some (<[conn := c]> m !! x).
Proof.
  intros Hx. destruct (decide (conn = x)) as [->|Hne].
  - rewrite lookup_insert_eq. eauto.
  - by rewrite lookup_insert_ne.
Qed.

Lemma is_Some_insert_inv (m : gmap conn_id sipe_http_connection)
    (conn x : conn_id) (c : sipe_http_connection) :
  is_Some (m !! conn) → is_Some (<[conn := c]> m !! x) → is_Some (m !! x).
Proof.
  intros Hc Hx. destruct (decide (conn = x)) as [->|Hne]; [done|].
  by rewrite lookup_insert_ne in Hx.
Qed.

(** [sipe_http_transport_new] on a well-formed pool: it returns a
    connection that is in the table under the key of the destination and
    has a socket, and the pool stays well-formed. *)
Lemma transport_new_spec (s : sipe_core_private) (host_in : string) (p : N)
    (now : Z) :
  pool_ok s →
  let key := make_host_port (g_ascii_strdown host_in) p in
  ∃ s' conn h' c' t',
    sipe_http_transport_new s host_in p now = Some (s', conn) ∧
    http s' = Some h' ∧
    connections h' = <[key := conn]> (connections (the_http s)) ∧
    heap s' !! conn = Some c' ∧ connection c' = Some t' ∧
    pool_ok s'.
Proof.
  intros [Hfresh Hok] key. unfold sipe_http_transport_new. cbv zeta. fold key.
  set (s0 := sipe_http_init s).
  assert (Hs0 : ∃ h, http s0 = Some h ∧ h = the_http s ∧ heap s0 = heap s ∧
                     next_conn s0 = next_conn s ∧
                     map_Forall (λ _ conn, is_Some (heap s !! conn)) (connections h) ∧
                     NoDup (snd <$> map_to_list (connections h)) ∧
                     Forall (λ conn, is_Some (heap s !! conn)) (timeouts h) ∧
                     NoDup (timeouts h)).
  { unfold s0, sipe_http_init, the_http. destruct (http s) as [h|] eqn:Hh.
    - exists h. rewrite Hh. by destruct Hok as (? & ? & ? & ?).
    - eexists. split; [done|]. split_and!; try done.
      + cbn. rewrite map_to_list_empty. constructor.
      + constructor. }
  destruct Hs0 as (h & Hh0 & Hth & Hheap0 & Hnc0 & Hmap & Hnd & Hq & Hndq).
  rewrite <- Hth. clearbody s0. clear Hok.
  unfold transport_lookup. rewrite Hh0. cbn [mbind option_bind].
  destruct (connections h !! key) as [conn|] eqn:Hkey.
  - assert (Hins : connections h = <[key:=conn]> (connections h))
      by (symmetry; by apply insert_id).
    destruct (Hmap _ _ Hkey) as [c Hc]. rewrite Hheap0, Hc.
    cbn [mbind option_bind].
    destruct (connection c) as [t|] eqn:Ht.
    + cbn [mbind option_bind]. unfold transport_establish.
      rewrite Hheap0, Hc. cbn [mbind option_bind]. rewrite Ht.
      cbn [mbind option_bind]. exists s0, conn, h, c, t.
      split_and!; try done; [by rewrite Hheap0|].
      split; [by rewrite Hheap0, Hnc0|]. rewrite Hh0, Hheap0. done.
    + cbn [mbind option_bind].
      set (h1 := set_timeouts h (g_queue_remove (timeouts h) conn)).
      set (s1 := set_http s0 (Some h1)).
      assert (Hq1 : Forall (λ x, is_Some (heap s1 !! x)) (timeouts h1)).
      { apply Forall_forall. intros x Hx%g_queue_remove_subseteq.
        rewrite Forall_forall in Hq. cbn. rewrite Hheap0. auto. }
      destruct (transport_establish_spec s1 h1 conn c
                  (g_ascii_strdown host_in) p now eq_refl)
        as (s' & q & nt & tl & -> & Hheap' & Hh' & Hp & _ & _ & _ & Hnc');
        [by cbn; rewrite Hheap0|done|exact Hq1|].
      cbn [mbind option_bind]. eexists s', conn, _, _, _.
      split_and!;
        [done|exact Hh'|exact Hins
        |by rewrite Hheap'; apply lookup_insert_eq|reflexivity|].
      split.
      * intros x Hx. rewrite Hheap' in Hx. cbn in Hx. rewrite Hheap0 in Hx.
        apply is_Some_insert_inv in Hx; [|by eauto].
        rewrite Hnc'. cbn. rewrite Hnc0. auto.
      * rewrite Hh', Hheap'. cbn. rewrite Hheap0. split_and!.
        -- intros k x Hk. apply is_Some_insert_mono. by eapply Hmap.
        -- done.
        -- apply Forall_forall. intros x Hx. rewrite Hp in Hx.
           apply is_Some_insert_mono.
           apply elem_of_cons in Hx as [->|Hx]; [by eauto|].
           apply g_queue_remove_subseteq in Hx.
           rewrite Forall_forall in Hq. auto.
        -- rewrite Hp. cbn.
           destruct (g_queue_remove_NoDup (timeouts h) conn Hndq).
           by apply NoDup_cons.
  - cbn [mbind option_bind].
    set (conn := next_conn s0).
    set (c0 := HttpConnection (g_ascii_strdown host_in) p false None key 0).
    set (h1 := set_connections h (<[key:=conn]> (connections h))).
    set (s1 := CorePrivate (Some h1) (<[conn:=c0]> (heap s0)) (S conn)
                 (next_handle s0) (timer s0) (trace s0)).
    assert (Hnew : heap s !! conn = None).
    { destruct (heap s !! conn) eqn:E; [|done].
      assert (conn < next_conn s)%nat by (apply Hfresh; eauto).
      unfold conn in *. lia. }
    destruct (transport_establish_spec s1 h1 conn c0
                (g_ascii_strdown host_in) p now eq_refl)
      as (s' & q & nt & tl & -> & Hheap' & Hh' & Hp & _ & _ & _ & Hnc');
      [apply lookup_insert_eq|done| |].
    { cbn. eapply Forall_impl; [exact Hq|]. intros x Hx. cbv beta.
      rewrite Hheap0. by apply is_Some_insert_mono. }
    cbn [mbind option_bind]. eexists s', conn, _, _, _.
    split_and!;
      [done|exact Hh'|done
      |by rewrite Hheap'; apply lookup_insert_eq|reflexivity|].
    split.
    + intros x Hx. rewrite Hheap' in Hx. cbn in Hx. rewrite Hheap0 in Hx.
      rewrite Hnc'. cbn.
      destruct (decide (x = conn)) as [->|Hne]; [lia|].
      rewrite !lookup_insert_ne in Hx by done.
      apply Hfresh in Hx. unfold conn. lia.
    + rewrite Hh', Hheap'. cbn. rewrite Hheap0. split_and!.
      * apply map_Forall_insert_2.
        -- rewrite lookup_insert_eq. eauto.
        -- intros k x Hk. do 2 apply is_Some_insert_mono. by eapply Hmap.
      * rewrite map_to_list_insert by done. cbn. apply NoDup_cons. split; [|done].
        intros Hin. apply list_elem_of_fmap in Hin as ([k x] & Heq & Hin).
        apply elem_of_map_to_list in Hin. destruct (Hmap _ _ Hin) as [? Hx].
        cbn in Heq. rewrite <- Heq in Hx. congruence.
      * apply Forall_forall. intros x Hx. rewrite Hp in Hx.
        apply elem_of_cons in Hx as [->|Hx].
        -- rewrite lookup_insert_eq. eauto.
        -- do 2 apply is_Some_insert_mono. rewrite Forall_forall in Hq. auto.
      * rewrite Hp. cbn. apply NoDup_cons. split; [|done].
        intros Hin. rewrite Forall_forall in Hq. destruct (Hq _ Hin) as [? Hx].
        congruence.
Qed.

Lemma pool_ok_initial : pool_ok initial.
Proof.
  split; [|done]. intros conn [c Hc]. cbn in Hc. by rewrite lookup_empty in Hc.
Qed.

(** C1: two requests whose hosts differ only in the case of ASCII
    letters, to the same port, get the same connection; the table has
    one entry for the destination, and the second request changes
    nothing: after [EXAMPLE.com:443] and [example.COM:443] on a new pool
    the table has size 1. *)
Theorem transport_new_host_case (s : sipe_core_private) (h1 h2 : string)
    (p : N) (t1 t2 : Z) :
  pool_ok s → differ_only_in_case h1 h2 →
  ∃ s1 conn,
    sipe_http_transport_new s h1 p t1 = Some (s1, conn) ∧
    sipe_http_transport_new s1 h2 p t2 = Some (s1, conn) ∧
    connections (the_http s1)
    = <[make_host_port (g_ascii_strdown h1) p := conn]>
        (connections (the_http s)) ∧
    (http s = None → size (connections (the_http s1)) = 1%nat).
Proof.
  intros Hok Hcase.
  destruct (transport_new_spec s h1 p t1 Hok)
    as (s1 & conn & h' & c' & t' & Hnew & Hh' & Hconn & Hc' & Ht' & _).
  exists s1, conn. split; [done|].
  assert (Hth : the_http s1 = h') by (unfold the_http; by rewrite Hh').
  rewrite Hth. split_and!; [|done|].
  - apply (transport_new_reuse s1 h' h2 p t2 conn c' t'); try done.
    rewrite <- (differ_only_in_case_strdown h1 h2 Hcase), Hconn.
    apply lookup_insert_eq.
  - intros Hnone. rewrite Hconn. unfold the_http. rewrite Hnone. cbn.
    rewrite insert_empty. apply map_size_singleton.
Qed.

Lemma transport_new_host_case_witness :
  ∃ s1 conn,
    sipe_http_transport_new initial "EXAMPLE.com" 443 0 = Some (s1, conn) ∧
    sipe_http_transport_new s1 "example.COM" 443 5 = Some (s1, conn) ∧
    size (connections (the_http s1)) = 1%nat.
Proof.
  destruct (transport_new_host_case initial "EXAMPLE.com" "example.COM" 443 0 5)
    as (s1 & conn & H1 & H2 & _ & H4).
  - apply pool_ok_initial.
  - simpl. unfold same_letter.
    repeat split;
      first [ left; reflexivity
            | right; left; split; reflexivity
            | right; right; split; reflexivity ].
  - exists s1, conn. split; [exact H1|]. split; [exact H2|].
    apply H4. reflexivity.
Defined.

(** C8: the only connection of the pool is dropped by a transport
    error.  The timeout queue is empty afterwards, but [next_timeout]
    still holds the deadline of the dropped connection and the timer
    still carries its address, which is read when the timer fires. *)
Theorem next_timeout_stale_after_error :
  ∃ s1 conn s2,
    sipe_http_transport_new initial "a" 443 0 = Some (s1, conn) ∧
    head_deadline s1 = Some 60 ∧ next_timeout (the_http s1) = 60 ∧
    sipe_http_transport_error s1 conn = Some s2 ∧
    timeouts (the_http s2) = [] ∧ next_timeout (the_http s2) = 60 ∧
    timer s2 = Some (conn, 60) ∧ heap s2 !! conn = None ∧
    timer_fire s2 60 = None.
Proof.
  eexists _, _, _. split; [by vm_compute|].
  split; [by vm_compute|]. split; [by vm_compute|].
  split; [by vm_compute|]. by vm_compute.
Qed.

(** C7: a connection whose deadline was renewed is evicted all the
    same.  The connection is opened at time 0 (deadline 60, timer armed
    with it); at time 50 the server closes after a response while a
    request is pending, so the connection is re-established with
    deadline 110, and the timer is left as it was.  When it fires at
    time 60 the handler drops its payload without looking at the
    deadline. *)
Theorem timeout_evicts_renewed_connection :
  let parse := const_parser [("Connection", "close")]%string 0 in
  let reply := bytes "HTTP/1.1 200 OK" ++ CRLF
                 ++ bytes "Connection: close" ++ CRLFCRLF in
  ∃ s1 conn s2 s3 c s4,
    sipe_http_transport_new initial "a" 443 0 = Some (s1, conn) ∧
    sipe_http_transport_connected s1 conn = Some s2 ∧
    backend_data parse (-1) s2 conn reply true 50 = Some s3 ∧
    heap s3 !! conn = Some c ∧ timeout c = 110 ∧
    timeouts (the_http s3) = [conn] ∧ next_timeout (the_http s3) = 60 ∧
    timer s3 = Some (conn, 60) ∧
    timer_fire s3 60 = Some s4 ∧
    heap s4 !! conn = None ∧ connections (the_http s4) = ∅ ∧
    timeouts (the_http s4) = [].
Proof.
  intros parse reply. eexists _, _, _, _, _, _.
  split; [by vm_compute|]. split; [by vm_compute|].
  split; [by vm_compute|]. split; [by vm_compute|].
  split; [by vm_compute|]. split; [by vm_compute|].
  split; [by vm_compute|]. split; [by vm_compute|].
  split; [by vm_compute|]. by vm_compute.
Qed.

(** ** Shutdown *)

Lemma transport_free_spec (s : sipe_core_private) (h : sipe_http)
    (v : conn_id) :
  http s = Some h → is_Some (heap s !! v) →
  ∃ s', sipe_http_transport_free s v = Some s' ∧
        heap s' = delete v (heap s) ∧
        http s' = Some (set_timeouts h (g_queue_remove (timeouts h) v)) ∧
        timer s' = timer s ∧ next_conn s' = next_conn s.
Proof.
  intros Hh [c Hc]. unfold sipe_http_transport_free.
  rewrite Hc. cbn [mbind option_bind]. rewrite Hh. cbn [mbind option_bind].
  eexists. split; [done|]. by destruct (connection c).
Qed.

Lemma destroy_values_total (vs : list conn_id) :
  ∀ (s : sipe_core_private) (h : sipe_http),
  http s = Some h → NoDup vs → Forall (λ v, is_Some (heap s !! v)) vs →
  ∃ s', destroy_values s vs = Some s'.
Proof.
  induction vs as [|v vs IH]; intros s h Hh Hnd Hvs; [by exists s|].
  apply NoDup_cons in Hnd as [Hv Hnd]. apply Forall_cons in Hvs as [Hsv Hvs].
  destruct (transport_free_spec s h v Hh Hsv) as (s1 & Hfree & Hheap & Hh1 & _).
  cbn [destroy_values]. rewrite Hfree. cbn [mbind option_bind].
  apply (IH s1 _ Hh1 Hnd). apply Forall_forall. intros x Hx.
  rewrite Hheap, lookup_delete_ne by (intros ->; done).
  rewrite Forall_forall in Hvs. auto.
Qed.

(** C10: [sipe_http_free] is a no-op that succeeds when the transport
    was never initialised; otherwise it succeeds and leaves the [http]
    field NULL; and freeing a second time changes nothing. *)
Theorem sipe_http_free_idempotent (s : sipe_core_private) :
  pool_ok s →
  ∃ s', sipe_http_free s = Some s' ∧ http s' = None ∧
        sipe_http_free s' = Some s' ∧
        (http s = None → s' = s).
Proof.
  intros [_ Hok]. unfold sipe_http_free at 1.
  destruct (http s) as [h|] eqn:Hh.
  - destruct Hok as (Hmap & Hnd & _).
    destruct (destroy_values_total (snd <$> map_to_list (connections h))
                (sipe_schedule_cancel s) h) as [s1 Hs1]; [done|done| |].
    { apply Forall_fmap, Forall_forall. intros [k v] Hkv.
      apply elem_of_map_to_list in Hkv. exact (Hmap _ _ Hkv). }
    rewrite Hs1. cbn [mbind option_bind]. eexists. split; [done|].
    split; [done|]. split; [done|]. done.
  - exists s. split; [done|]. split; [done|]. split; [|done].
    unfold sipe_http_free. by rewrite Hh.
Qed.

Lemma pool_ok_example_pool : pool_ok example_pool.
Proof.
  destruct (transport_new_spec initial "a" 443 0 pool_ok_initial)
    as (s1 & conn & h' & c' & t' & Hnew & _ & _ & _ & _ & Hok).
  vm_compute in Hnew. injection Hnew as <- _. exact Hok.
Qed.

Lemma sipe_http_free_idempotent_witness :
  ∃ s', sipe_http_free example_pool = Some s' ∧ http s' = None ∧
        heap s' = ∅ ∧ sipe_http_free s' = Some s'.
Proof.
  destruct (sipe_http_free_idempotent example_pool pool_ok_example_pool)
    as (s' & H1 & H2 & H3 & _).
  exists s'. split; [exact H1|]. split; [exact H2|]. split; [|exact H3].
  vm_compute in H1. injection H1 as <-. reflexivity.
Defined.

(** ** The timeout handler on an armed queue *)

(** Dropping the head of the queue: it leaves table, queue and heap. *)
Lemma transport_drop_head (d : conn_id → Z) (s : sipe_core_private)
    (h : sipe_http) (conn : conn_id) (q : list conn_id) :
  http s = Some h → timeouts h = conn :: q → queue_ok d s h →
  ∃ s1 c,
    sipe_http_transport_drop s conn = Some s1 ∧
    heap s !! conn = Some c ∧ timeout c = d conn ∧
    http s1 = Some (Http (delete (host_port c) (connections h)) q
                         (next_timeout h)) ∧
    heap s1 = delete conn (heap s) ∧ timer s1 = timer s ∧
    trace s1 = trace s ++ drop_events conn c ∧
    queue_ok d s1 (Http (delete (host_port c) (connections h)) q
                        (next_timeout h)).
Proof.
  intros Hh Hq (Hnd & Hall & Hsort). rewrite Hq in Hnd, Hall, Hsort.
  apply NoDup_cons in Hnd as [Hnin Hnd].
  apply Forall_cons in Hall as [(c & Hc & Hd & Hk) Hall].
  apply StronglySorted_inv in Hsort as [Hsort _].
  unfold sipe_http_transport_drop. rewrite Hc. cbn [mbind option_bind].
  unfold g_hash_table_remove. rewrite Hh. cbn [mbind option_bind].
  rewrite Hk. unfold sipe_http_transport_free.
  cbn [heap set_http http mbind option_bind]. rewrite Hc.
  cbn [mbind option_bind timeouts set_connections]. rewrite Hq.
  cbn [g_queue_remove]. rewrite decide_True by done.
  eexists _, c. split; [done|]. split; [done|]. split; [done|].
  split_and!.
  - by destruct (connection c).
  - by destruct (connection c).
  - by destruct (connection c).
  - unfold drop_events. destruct (connection c); cbn; [|done].
    by rewrite <- app_assoc.
  - split; [done|]. split; [|done]. cbn [timeouts connections].
    apply Forall_forall. intros x Hx. rewrite Forall_forall in Hall.
    destruct (Hall x Hx) as (cx & Hcx & Hdx & Hkx).
    assert (Hne : x ≠ conn) by (intros ->; done).
    exists cx. split_and!; [|done|].
    + destruct (connection c); cbn; by rewrite lookup_delete_ne.
    + rewrite lookup_delete_ne; [done|]. intros Heq. rewrite Heq in Hk.
      congruence.
Qed.

Lemma filter_Forall_id {A} (P : A → Prop) `{!∀ x, Decision (P x)}
    (l : list A) :
  Forall P l → filter P l = l.
Proof.
  induction 1 as [|x l Hx _ IH]; [done|].
  by rewrite filter_cons_True, IH.
Qed.

(** The loop of the handler, entered with the head of the queue: it
    ends with the connections of the queue whose deadline lies behind
    [now], the others are gone from heap and table, and the timer is
    armed for the first that is left. *)
Lemma timeout_loop_spec (d : conn_id → Z) (now : Z) (q : list conn_id) :
  ∀ (fuel : nat) (s : sipe_core_private) (h : sipe_http) (conn : conn_id),
  http s = Some h → timeouts h = conn :: q → queue_ok d s h →
  (length q < fuel)%nat →
  let keep := filter (λ x, now < d x) q in
  ∃ s' h' tl,
    timeout_loop fuel s conn now = Some s' ∧ http s' = Some h' ∧
    timeouts h' = keep ∧
    (∀ x, x ∈ conn :: q → x ∉ keep → heap s' !! x = None) ∧
    (∀ x, x ∉ conn :: q ∨ x ∈ keep → heap s' !! x = heap s !! x) ∧
    trace s' = trace s ++ tl ∧
    (∀ x c, x ∈ conn :: q → x ∉ keep → heap s !! x = Some c →
            connections h' !! host_port c = None ∧
            ∃ l1 l2, tl = l1 ++ drop_events x c ++ l2) ∧
    (∀ x c, x ∈ keep → heap s !! x = Some c →
            connections h' !! host_port c = Some x) ∧
    connections h' ⊆ connections h ∧
    next_timeout h' = match keep with x :: _ => d x | [] => next_timeout h end ∧
    timer s' = match keep with
               | x :: _ => Some (x, guint (d x - now))
               | [] => timer s
               end.
Proof.
  induction q as [|x q IH]; intros [|fuel] s h conn Hh Hq Hok Hfuel keep;
    cbn [length] in Hfuel; try lia.
  - destruct (transport_drop_head d s h conn [] Hh Hq Hok)
      as (s1 & c & Hdrop & Hc & Hd & Hh1 & Hheap1 & Htimer1 & Htr1 & Hok1).
    cbn [timeout_loop]. rewrite Hdrop. cbn [mbind option_bind].
    rewrite Hh1. cbn [mbind option_bind timeouts g_queue_peek_head head].
    eexists s1, _, (drop_events conn c). split; [done|]. split; [done|].
    split_and!; try done.
    + intros y Hy _. apply list_elem_of_singleton in Hy as ->.
      rewrite Hheap1. apply lookup_delete_eq.
    + intros y [Hy|Hy]; [|by apply elem_of_nil in Hy].
      rewrite Hheap1. apply lookup_delete_ne. intros ->. apply Hy. left.
    + intros y cy Hy _ Hcy. apply list_elem_of_singleton in Hy as ->.
      assert (cy = c) as -> by congruence. split.
      * cbn. apply lookup_delete_eq.
      * exists [], []. by rewrite app_nil_r.
    + intros y cy Hy. by apply elem_of_nil in Hy.
    + cbn. apply delete_subseteq.
  - destruct (transport_drop_head d s h conn (x :: q) Hh Hq Hok)
      as (s1 & c & Hdrop & Hc & Hd & Hh1 & Hheap1 & Htimer1 & Htr1 & Hok1).
    cbn [timeout_loop]. rewrite Hdrop. cbn [mbind option_bind].
    rewrite Hh1. cbn [mbind option_bind timeouts g_queue_peek_head head].
    pose proof Hok as (Hnd & Hall & Hsort). rewrite Hq in Hnd, Hall, Hsort.
    apply NoDup_cons in Hnd as [Hcq Hnd].
    pose proof Hok1 as (Hnd1 & Hall1 & Hsort1). cbn [timeouts] in *.
    pose proof Hall1 as [(cx & Hcx & Hdx & Hkx) Hall1']%Forall_cons.
    rewrite Hcx. cbn [mbind option_bind]. rewrite Hdx.
    destruct (now <? d x) eqn:Hnow.
    + apply Z.ltb_lt in Hnow.
      assert (Hkeep : keep = x :: q).
      { unfold keep. apply filter_Forall_id.
        apply StronglySorted_inv in Hsort1 as [_ Hle].
        constructor; [done|]. eapply Forall_impl; [exact Hle|].
        intros y Hy. cbv beta in *. lia. }
      rewrite Hkeep. unfold start_timer. rewrite Hh1.
      cbn [mbind option_bind timeouts g_queue_peek_head head]. rewrite Hcx.
      cbn [mbind option_bind]. rewrite Hdx.
      eexists _, _, (drop_events conn c ++ [ScheduleSeconds x (guint (d x - now))]).
      split; [done|]. split; [done|]. split_and!; try done.
      * intros y Hy Hny. apply elem_of_cons in Hy as [->|Hy]; [|done].
        cbn. rewrite Hheap1. apply lookup_delete_eq.
      * intros y Hy. cbn. rewrite Hheap1. apply lookup_delete_ne.
        intros ->. destruct Hy as [Hy|Hy]; [apply Hy; left|done].
      * cbn. rewrite Htr1. by rewrite <- app_assoc.
      * intros y cy Hy Hny Hcy. apply elem_of_cons in Hy as [->|Hy]; [|done].
        assert (cy = c) as -> by congruence. split.
        -- cbn. apply lookup_delete_eq.
        -- exists [], [ScheduleSeconds x (guint (d x - now))]. done.
      * intros y cy Hy Hcy. cbn. rewrite Forall_forall in Hall1.
        destruct (Hall1 y Hy) as (cy' & Hcy' & _ & Hky).
        rewrite Hheap1, lookup_delete_ne in Hcy' by (intros ->; done).
        assert (cy' = cy) as -> by congruence. done.
      * cbn. apply delete_subseteq.
    + apply Z.ltb_ge in Hnow.
      assert (Hkeep : keep = filter (λ y, now < d y) q).
      { unfold keep. rewrite filter_cons_False by lia. done. }
      rewrite Hkeep. clear Hkeep keep.
      destruct (IH fuel s1 _ x Hh1 eq_refl Hok1 ltac:(lia))
        as (s' & h' & tl & Hloop & Hh' & Hq' & Hgone & Hkept & Htr & Hev
            & Htab & Hsubm & Hnt & Htimer).
      cbv zeta in *. set (keep := filter (λ y, now < d y) q) in *.
      assert (Hsub : ∀ y, y ∈ keep → y ∈ q).
      { intros y Hy. by apply list_elem_of_filter in Hy as [_ ?]. }
      exists s', h', (drop_events conn c ++ tl). split; [done|].
      split; [done|]. split_and!; try done.
      * intros y Hy Hny. apply elem_of_cons in Hy as [->|Hy].
        -- rewrite Hkept, Hheap1; [apply lookup_delete_eq|].
           left. intros Hin. done.
        -- by apply Hgone.
      * intros y Hy. destruct (decide (y = conn)) as [->|Hne].
        { exfalso. destruct Hy as [Hy|Hy]; [apply Hy; left|].
          apply Hcq. right. auto. }
        rewrite <- (lookup_delete_ne (heap s) conn y) by done.
        rewrite <- Hheap1. apply Hkept. destruct Hy as [Hy|Hy]; [|by right].
        left. intros Hin. apply Hy. by right.
      * rewrite Htr, Htr1. by rewrite <- app_assoc.
      * intros y cy Hy Hny Hcy. apply elem_of_cons in Hy as [->|Hy].
        -- assert (cy = c) as -> by congruence. split.
           ++ destruct (connections h' !! host_port c) as [v|] eqn:Hv; [|done].
              eapply lookup_weaken in Hv; [|exact Hsubm]. cbn in Hv.
              by rewrite lookup_delete_eq in Hv.
           ++ exists [], tl. done.
        -- assert (Hne : y ≠ conn) by (intros ->; done).
           destruct (Hev y cy Hy Hny) as (Hk & l1 & l2 & Hl).
           { by rewrite Hheap1, lookup_delete_ne. }
           split; [done|]. exists (drop_events conn c ++ l1), l2.
           rewrite Hl. by rewrite <- !app_assoc.
      * intros y cy Hy Hcy. apply Htab; [done|].
        rewrite Hheap1, lookup_delete_ne; [done|].
        intros ->. apply Hcq. right. auto.
      * etrans; [exact Hsubm|]. cbn. apply delete_subseteq.
      * rewrite Htimer. by rewrite Htimer1.
Qed.

(** The timer fires in the state it was armed for: its payload is the
    head of a well-formed queue and the deadline of the head has passed.
    Then exactly the connections with a deadline up to [now] are
    evicted, each is disconnected and leaves heap and table, the others
    stay as they are, and the timer is armed for the deadline of the new
    head, or not at all when the queue is empty. *)
Lemma timer_fire_armed (d : conn_id → Z) (s : sipe_core_private)
    (h : sipe_http) (payload : conn_id) (q : list conn_id) (delay now : Z) :
  http s = Some h → timer s = Some (payload, delay) →
  timeouts h = payload :: q → queue_ok d s h → d payload ≤ now →
  let keep := filter (λ x, now < d x) (timeouts h) in
  ∃ s' h' tl,
    timer_fire s now = Some s' ∧ http s' = Some h' ∧
    timeouts h' = keep ∧ trace s' = trace s ++ tl ∧
    (∀ x c, x ∈ timeouts h → d x ≤ now → heap s !! x = Some c →
            heap s' !! x = None ∧ connections h' !! host_port c = None ∧
            ∃ l1 l2, tl = l1 ++ drop_events x c ++ l2) ∧
    (∀ x c, x ∈ timeouts h → now < d x → heap s !! x = Some c →
            heap s' !! x = Some c ∧ connections h' !! host_port c = Some x) ∧
    next_timeout h' = match keep with x :: _ => d x | [] => 0 end ∧
    timer s' = match keep with
               | x :: _ => Some (x, guint (d x - now))
               | [] => None
               end.
Proof.
  intros Hh Htimer Hq Hok Hexp keep.
  unfold timer_fire. rewrite Htimer. unfold sipe_http_transport_timeout.
  cbn [http set_timer mbind option_bind]. rewrite Hh.
  cbn [mbind option_bind]. rewrite Hq. cbn [length].
  set (s0 := set_http _ _).
  assert (Hkeep : keep = filter (λ x, now < d x) q).
  { unfold keep. rewrite Hq, filter_cons_False by lia. done. }
  destruct (timeout_loop_spec d now q (S (S (length q))) s0
              (set_next_timeout h 0) payload eq_refl Hq)
    as (s' & h' & tl & Hloop & Hh' & Hq' & Hgone & Hkept & Htr & Hev & Htab
        & _ & Hnt & Htm); [|lia|].
  { destruct Hok as (Hnd & Hall & Hsort). split; [done|]. split; done. }
  cbv zeta in *. rewrite <- Hkeep in *.
  exists s', h', tl. split; [done|]. split; [done|]. split; [done|].
  split; [done|].
  assert (Hin : ∀ x, x ∈ keep → x ∈ q ∧ now < d x).
  { intros x Hx. rewrite Hkeep in Hx.
    by apply list_elem_of_filter in Hx as [? ?]. }
  split_and!.
  - intros x c Hx Hdx Hc.
    assert (Hnk : x ∉ keep) by (intros [_ ?]%Hin; lia).
    destruct (Hev x c Hx Hnk Hc) as [Hk Hl]. split; [|done].
    by apply Hgone.
  - intros x c Hx Hdx Hc.
    assert (Hk : x ∈ keep).
    { rewrite Hkeep. apply list_elem_of_filter. split; [done|].
      apply elem_of_cons in Hx as [->|Hx]; [lia|done]. }
    split; [|by apply Htab]. rewrite Hkept by (by right). done.
  - done.
  - done.
Qed.

(** ** Input on a connection *)

Lemma code_chr (n : Z) : 0 ≤ n < 256 → code (chr n) = n.
Proof.
  intros Hn. unfold code, chr. rewrite N_ascii_embedding; lia.
Qed.

Lemma tolower_same_letter (x y : ascii) :
  g_ascii_tolower x = g_ascii_tolower y → same_letter x y.
Proof.
  unfold g_ascii_tolower, TOLOWER, same_letter.
  pose proof (code_range x). pose proof (code_range y).
  destruct (ISUPPER x) eqn:Hx, (ISUPPER y) eqn:Hy; intros Heq.
  - left. apply (f_equal code) in Heq.
    unfold ISUPPER in *. apply andb_true_iff in Hx as [? ?%Z.leb_le].
    apply andb_true_iff in Hy as [? ?%Z.leb_le].
    rewrite !code_chr in Heq by lia.
    rewrite <- (chr_code x), <- (chr_code y). f_equal. lia.
  - right. left. split; [done|]. subst y.
    unfold ISUPPER in Hx. apply andb_true_iff in Hx as [? ?%Z.leb_le].
    rewrite code_chr by lia. lia.
  - right. right. split; [done|]. subst x.
    unfold ISUPPER in Hy. apply andb_true_iff in Hy as [? ?%Z.leb_le].
    rewrite code_chr by lia. lia.
  - by left.
Qed.

Lemma strdown_differ_only_in_case (a b : string) :
  g_ascii_strdown a = g_ascii_strdown b → differ_only_in_case a b.
Proof.
  revert b. induction a as [|x a IH]; intros [|y b]; simpl; try done.
  intros [= Hxy Hab]. split; [by apply tolower_same_letter|by apply IH].
Qed.

(** The header value is compared without regard to case. *)
Lemma closes_spec (msg : sipmsg) :
  closes msg ↔
  sipe_strcase_equal (sipmsg_find_header msg "Connection") (Some "close") = true.
Proof.
  unfold closes. split.
  - intros (v & -> & Hv). cbn [sipe_strcase_equal].
    rewrite (differ_only_in_case_strdown _ _ Hv). apply String.eqb_refl.
  - destruct (sipmsg_find_header msg "Connection") as [v|]; [|done].
    cbn [sipe_strcase_equal]. intros Heq%String.eqb_eq.
    exists v. split; [done|]. by apply strdown_differ_only_in_case.
Qed.

Lemma transport_new_trace (s s' : sipe_core_private) (host_in : string)
    (p : N) (now : Z) (conn : conn_id) :
  sipe_http_transport_new s host_in p now = Some (s', conn) →
  ∃ tl, trace s' = trace s ++ tl ∧ Forall (λ e, is_response e = false) tl.
Proof.
  unfold sipe_http_transport_new. cbv zeta.
  set (s0 := sipe_http_init s).
  assert (Ht0 : trace s0 = trace s)
    by (unfold s0, sipe_http_init; by destruct (http s)).
  rewrite <- Ht0. clearbody s0. clear Ht0.
  destruct (transport_lookup s0 _ _ _) as [[s1 conn1]|] eqn:Hl; [|done].
  cbn [mbind option_bind].
  assert (Ht1 : trace s1 = trace s0).
  { revert Hl. unfold transport_lookup.
    destruct (http s0) as [h|]; [|done]. cbn [mbind option_bind].
    destruct (connections h !! _) as [k|].
    - destruct (heap s0 !! _) as [c|]; [|done]. cbn [mbind option_bind].
      destruct (connection c); by intros [= <- _].
    - by intros [= <- _]. }
  rewrite <- Ht1.
  destruct (transport_establish s1 conn1 _ _ _) as [s2|] eqn:He; [|done].
  cbn [mbind option_bind]. intros [= <- _]. revert He.
  unfold transport_establish.
  destruct (heap s1 !! conn1) as [c|]; [|done]. cbn [mbind option_bind].
  destruct (connection c).
  { intros [= <-]. exists []. by rewrite app_nil_r. }
  destruct (http s1) as [h|]; [|done]. cbn [mbind option_bind]. cbv zeta.
  destruct (g_queue_insert_sorted _ _ _) as [q|]; [|done].
  cbn [mbind option_bind].
  destruct (next_timeout h =? 0).
  - unfold start_timer. cbn [http set_http mbind option_bind].
    destruct (g_queue_peek_head _) as [x|]; [|done]. cbn [mbind option_bind].
    destruct (_ !! x) as [cx|]; [|done]. cbn [mbind option_bind].
    intros [= <-]. eexists [_; _]. cbn. rewrite <- app_assoc.
    split; [done|]. by repeat constructor.
  - intros [= <-]. eexists [_]. split; [done|]. by repeat constructor.
Qed.

(** Re-establishing: the connection is in the table but has no socket. *)
Lemma transport_new_reestablish (s : sipe_core_private) (h : sipe_http)
    (host_in : string) (p : N) (now : Z) (conn : conn_id)
    (c : sipe_http_connection) :
  http s = Some h →
  connections h !! make_host_port (g_ascii_strdown host_in) p = Some conn →
  heap s !! conn = Some c → connection c = None →
  Forall (λ x, is_Some (heap s !! x)) (timeouts h) →
  let c' := set_timeout
              (set_connection (set_connected c false)
                 (Some (TransportConnection (next_handle s) [])))
              (now + SIPE_HTTP_DEFAULT_TIMEOUT) in
  ∃ s' q nt tl,
    sipe_http_transport_new s host_in p now = Some (s', conn) ∧
    heap s' = <[conn := c']> (heap s) ∧
    http s' = Some (Http (connections h) q nt) ∧
    q ≡ₚ conn :: g_queue_remove (timeouts h) conn ∧
    (next_timeout h ≠ 0 → nt = next_timeout h ∧ timer s' = timer s) ∧
    trace s' = trace s
               ++ BackendConnect (g_ascii_strdown host_in) p conn (next_handle s)
               :: tl ∧
    Forall (λ e, is_schedule e = true) tl.
Proof.
  intros Hh Hk Hc Hn Hq c'.
  unfold sipe_http_transport_new, sipe_http_init. rewrite Hh. cbv zeta.
  unfold transport_lookup. rewrite Hh. cbn [mbind option_bind].
  rewrite Hk, Hc. cbn [mbind option_bind]. rewrite Hn.
  cbn [mbind option_bind].
  set (h1 := set_timeouts h (g_queue_remove (timeouts h) conn)).
  destruct (transport_establish_spec (set_http s (Some h1)) h1 conn c
              (g_ascii_strdown host_in) p now eq_refl Hc Hn)
    as (s' & q & nt & tl & -> & Hheap & Hh' & Hp & Hnt & Htr & Htl & _).
  { apply Forall_forall. intros x Hx%g_queue_remove_subseteq.
    rewrite Forall_forall in Hq. cbn. auto. }
  cbn [mbind option_bind]. exists s', q, nt, tl. split_and!; done.
Qed.

Section InputFacts.

Variable sipmsg_parse_header : list ascii → option sipmsg.
Variable SIPMSG_BODYLEN_CHUNKED : Z.

Local Abbreviation framer := (framer sipmsg_parse_header SIPMSG_BODYLEN_CHUNKED).
Local Abbreviation input :=
  (sipe_http_transport_input sipmsg_parse_header SIPMSG_BODYLEN_CHUNKED).

Lemma input_unfold (s : sipe_core_private) (conn : conn_id)
    (c : sipe_http_connection) (t : sipe_transport_connection)
    (r : frame_result) (rest : list ascii) (next : bool) (now : Z) :
  heap s !! conn = Some c → connection c = Some t →
  framer (buffer t) = (r, rest) →
  input s conn next now =
    let c1 := set_connection c (Some (TransportConnection (handle t) rest)) in
    let s1 := set_heap s (<[conn := c1]> (heap s)) in
    match r with
    | Fault => None
    | Incomplete | Malformed => Some s1
    | Complete msg =>
        let s2 := emit s1 (RequestResponse conn msg) in
        if sipe_strcase_equal (sipmsg_find_header msg "Connection") (Some "close")
        then
          let s3 := emit s2 (BackendDisconnect (handle t)) in
          let c2 := set_connected (set_connection c1 None) false in
          let s4 := set_heap s3 (<[conn := c2]> (heap s3)) in
          if next
          then fst <$> sipe_http_transport_new s4 (host c2) (port c2) now
          else Some s4
        else if next then Some (emit s2 (RequestNext conn))
        else Some s2
    end.
Proof.
  intros Hc Ht Hf. unfold sipe_http_transport_input.
  rewrite Hc. cbn [mbind option_bind]. rewrite Ht. cbn [mbind option_bind].
  by rewrite Hf.
Qed.

(** A response that does not ask to close: the connection stays as it
    is, and the next request is sent if one is pending. *)
Lemma input_keep_alive (s : sipe_core_private) (conn : conn_id)
    (c : sipe_http_connection) (t : sipe_transport_connection)
    (msg : sipmsg) (rest : list ascii) (now : Z) :
  heap s !! conn = Some c → connection c = Some t →
  framer (buffer t) = (Complete msg, rest) →
  ¬ closes msg →
  let kept := set_connection c (Some (TransportConnection (handle t) rest)) in
  input s conn true now
  = Some (emit (emit (set_heap s (<[conn := kept]> (heap s)))
                  (RequestResponse conn msg)) (RequestNext conn)) ∧
  input s conn false now
  = Some (emit (set_heap s (<[conn := kept]> (heap s)))
            (RequestResponse conn msg)).
Proof.
  intros Hc Ht Hf Hcl kept.
  assert (Hb : sipe_strcase_equal
    (sipmsg_find_header msg "Connection") (Some "close") = false).
  { destruct (sipe_strcase_equal _ _) eqn:E; [|done].
    by apply closes_spec in E. }
  rewrite !(input_unfold s conn c t _ _ _ _ Hc Ht Hf). cbv zeta.
  by rewrite Hb.
Qed.

(** C6: a [Complete] response.  If it asks to close, the socket is
    disconnected, the connection is left without socket and not
    connected, and nothing else happens unless a request is pending; if
    one is, the connection is re-established for its destination: a new
    socket is connected for the same connection and the deadline is
    renewed.  If it does not ask to close and a request is pending, the
    next request is sent on the same connection. *)
Theorem input_connection_close (s : sipe_core_private) (h : sipe_http)
    (conn : conn_id) (c : sipe_http_connection)
    (t : sipe_transport_connection) (msg : sipmsg) (rest : list ascii)
    (now : Z) :
  heap s !! conn = Some c → connection c = Some t →
  framer (buffer t) = (Complete msg, rest) →
  let kept := set_connection c (Some (TransportConnection (handle t) rest)) in
  let closed := set_connected (set_connection c None) false in
  (closes msg →
   (∃ s', input s conn false now = Some s' ∧
          heap s' = <[conn := closed]> (heap s) ∧
          http s' = http s ∧ timer s' = timer s ∧
          trace s' = trace s ++ [RequestResponse conn msg;
                                 BackendDisconnect (handle t)]) ∧
   (pool_ok s → http s = Some h →
    connections h !! make_host_port (g_ascii_strdown (host c)) (port c)
      = Some conn →
    ∃ s' c' tl,
      input s conn true now = Some s' ∧
      heap s' !! conn = Some c' ∧
      connection c' = Some (TransportConnection (next_handle s) []) ∧
      connected c' = false ∧
      timeout c' = now + SIPE_HTTP_DEFAULT_TIMEOUT ∧
      connections (the_http s') = connections h ∧
      trace s' = trace s ++ [RequestResponse conn msg;
                             BackendDisconnect (handle t);
                             BackendConnect (g_ascii_strdown (host c)) (port c)
                                            conn (next_handle s)] ++ tl ∧
      Forall (λ e, is_schedule e = true) tl))
  ∧
  (¬ closes msg →
   input s conn true now
   = Some (emit (emit (set_heap s (<[conn := kept]> (heap s)))
                   (RequestResponse conn msg)) (RequestNext conn)) ∧
   input s conn false now
   = Some (emit (set_heap s (<[conn := kept]> (heap s)))
             (RequestResponse conn msg))).
Proof.
  intros Hc Ht Hf kept closed. split.
  - intros Hcl%closes_spec. split.
    + rewrite (input_unfold s conn c t _ _ _ _ Hc Ht Hf). cbv zeta.
      rewrite Hcl. eexists. split; [done|]. cbn.
      rewrite insert_insert_eq. split_and!; try done.
      by rewrite <- app_assoc.
    + intros [_ Hok] Hh Hk. rewrite Hh in Hok. destruct Hok as (_ & _ & Hq & _).
      rewrite (input_unfold s conn c t _ _ _ _ Hc Ht Hf). cbv zeta.
      rewrite Hcl. fold kept.
      change (set_connected (set_connection kept None) false) with closed.
      set (s4 := set_heap _ _).
      destruct (transport_new_reestablish s4 h (host closed) (port closed) now
                  conn closed)
        as (s' & q & nt & tl & -> & Hheap & Hh' & _ & _ & Htr & Htl);
        [done|done|apply lookup_insert_eq|done| |].
      { eapply Forall_impl; [exact Hq|]. intros x Hx. cbn.
        by do 2 apply is_Some_insert_mono. }
      cbn [fmap option_fmap option_map fst].
      eexists s', _, tl. split; [done|]. rewrite Hheap.
      split; [apply lookup_insert_eq|]. split_and!; try done.
      * unfold the_http. by rewrite Hh'.
      * rewrite Htr. cbn. by rewrite <- !app_assoc.
  - intros Hcl. by apply input_keep_alive.
Qed.

End InputFacts.

Lemma backend_append_pool_ok (s s' : sipe_core_private) (conn : conn_id)
    (data : list ascii) :
  pool_ok s → backend_append s conn data = Some s' → pool_ok s'.
Proof.
  intros [Hfresh Hok]. unfold backend_append.
  destruct (heap s !! conn) as [c|] eqn:Hc; [|done]. cbn [mbind option_bind].
  destruct (connection c) as [t|]; [|done]. cbn [mbind option_bind].
  intros [= <-]. split.
  - intros x Hx. apply Hfresh. cbn in Hx.
    apply is_Some_insert_inv in Hx; eauto.
  - cbn. destruct (http s) as [h|]; [|done].
    destruct Hok as (Hmap & Hnd & Hq & Hndq). split_and!; [|done| |done].
    + intros k x Hk. apply is_Some_insert_mono. by eapply Hmap.
    + eapply Forall_impl; [exact Hq|]. intros x Hx.
      by apply is_Some_insert_mono.
Qed.

Lemma pool_ok_example_closing : pool_ok example_closing.
Proof.
  apply (backend_append_pool_ok example_pool _ 0%nat example_reply).
  - apply pool_ok_example_pool.
  - by vm_compute.
Qed.

Lemma input_connection_close_witness :
  ∃ s' c',
    sipe_http_transport_input (const_parser [("Connection", "Close")]%string 0)
      (-1) example_closing 0%nat true 50 = Some s' ∧
    heap s' !! 0%nat = Some c' ∧
    connection c' = Some (TransportConnection 1%nat []) ∧
    connected c' = false ∧ timeout c' = 110.
Proof.
  destruct (input_connection_close
              (const_parser [("Connection", "Close")]%string 0) (-1)
              example_closing (the_http example_closing) 0%nat
              (HttpConnection "a" 443 false
                 (Some (TransportConnection 0%nat example_reply)) "a:443" 60)
              (TransportConnection 0%nat example_reply)
              (Sipmsg 200 [("Connection", "Close")]%string 0 (Some []))
              [] 50) as [Hclose _].
  - reflexivity.
  - reflexivity.
  - vm_compute. reflexivity.
  - destruct Hclose as [_ Hpending].
    + exists "Close"%string. split; [reflexivity|].
      simpl. unfold same_letter.
      repeat split;
        first [ left; reflexivity | right; left; split; reflexivity ].
    + destruct Hpending as (s' & c' & tl & H1 & H2 & H3 & H4 & H5 & _).
      * apply pool_ok_example_closing.
      * reflexivity.
      * reflexivity.
      * exists s', c'. repeat split; assumption.
Defined.

(** ** One message for each input event *)

Lemma responses_app (s s' : sipe_core_private) (tl : list event) :
  trace s' = trace s ++ tl →
  responses s' = (responses s + length (filter (λ e, is_response e = true) tl))%nat.
Proof. intros H. unfold responses. by rewrite H, filter_app, length_app. Qed.

Lemma filter_no_response (tl : list event) :
  Forall (λ e, is_response e = false) tl →
  filter (λ e, is_response e = true) tl = [].
Proof.
  induction 1 as [|e tl He _ IH]; [done|].
  rewrite filter_cons. rewrite decide_False by congruence. done.
Qed.

Lemma filter_response_cons (e : event) (l : list event) :
  filter (λ e, is_response e = true) (e :: l)
  = if is_response e then e :: filter (λ e, is_response e = true) l
    else filter (λ e, is_response e = true) l.
Proof.
  rewrite filter_cons. destruct (is_response e); by case_decide.
Qed.

Lemma filter_response_nil :
  filter (λ e, is_response e = true) (@nil event) = [].
Proof. done. Qed.

Ltac count_responses :=
  unfold responses; cbn [trace emit set_heap];
  rewrite ?filter_app, ?filter_response_cons, ?filter_response_nil;
  cbn [is_response];
  rewrite ?filter_response_cons, ?filter_response_nil, ?length_app;
  cbn [is_response length app].

Section DispatchFacts.

Variable sipmsg_parse_header : list ascii → option sipmsg.
Variable SIPMSG_BODYLEN_CHUNKED : Z.

Local Abbreviation framer := (framer sipmsg_parse_header SIPMSG_BODYLEN_CHUNKED).
Local Abbreviation input :=
  (sipe_http_transport_input sipmsg_parse_header SIPMSG_BODYLEN_CHUNKED).

(** C5, as the code has it: an input event runs the framer once.  It
    hands one response to the request queue if the framer gives
    [Complete] and none otherwise.  Of two complete messages in the
    buffer, neither asking to close, the first is handed over and the
    buffer is left with the bytes from the second message on; the second
    message is handed over by the next input event. *)
Theorem input_one_message_per_event (s : sipe_core_private) (conn : conn_id)
    (c : sipe_http_connection) (t : sipe_transport_connection)
    (next : bool) (now : Z) :
  heap s !! conn = Some c → connection c = Some t →
  (∀ s', input s conn next now = Some s' →
         responses s'
         = (responses s + match fst (framer (buffer t)) with
                          | Complete _ => 1
                          | _ => 0
                          end)%nat ∧
         (fst (framer (buffer t)) = Incomplete →
          buffer_of s' conn = Some (skip_crlf (buffer t)))) ∧
  (∀ m1 m2 tail tail2 next2 now2,
     framer (buffer t) = (Complete m1, tail) → ¬ closes m1 →
     framer tail = (Complete m2, tail2) → ¬ closes m2 →
     ∃ s1 s2,
       input s conn next now = Some s1 ∧
       responses s1 = (responses s + 1)%nat ∧
       buffer_of s1 conn = Some tail ∧
       input s1 conn next2 now2 = Some s2 ∧
       responses s2 = (responses s + 2)%nat ∧
       buffer_of s2 conn = Some tail2 ∧
       filter (λ e, is_response e = true) (trace s2)
       = filter (λ e, is_response e = true) (trace s)
           ++ [RequestResponse conn m1; RequestResponse conn m2]).
Proof.
  intros Hc Ht. split.
  - intros s'. destruct (framer (buffer t)) as [r rest] eqn:Hf.
    rewrite (input_unfold _ _ s conn c t r rest next now Hc Ht Hf). cbv zeta.
    destruct r as [| |msg|]; cbn [fst].
    + intros [= <-]. split; [unfold responses; cbn; lia|]. intros _.
      unfold buffer_of. cbn. rewrite lookup_insert_eq. cbn.
      by rewrite (framer_restores _ _ _ _ _ Hf (or_introl eq_refl)).
    + intros [= <-]. split; [unfold responses; cbn; lia|]. done.
    + destruct (sipe_strcase_equal _ _).
      * destruct next.
        -- destruct (sipe_http_transport_new _ _ _ _) as [[s2 k]|] eqn:Hn;
             [|done].
           intros [= <-]. split; [|done].
           apply transport_new_trace in Hn as (tl & Htr & Htl). cbn in Htr.
           rewrite (responses_app s s2 ([RequestResponse conn msg;
                      BackendDisconnect (handle t)] ++ tl));
             [|by rewrite Htr, <- !app_assoc].
           rewrite filter_app, (filter_no_response tl Htl).
           count_responses. lia.
        -- intros [= <-]. split; [|done]. count_responses. lia.
      * destruct next; intros [= <-]; (split; [|done]); count_responses; lia.
    + done.
  - intros m1 m2 tail tail2 next2 now2 Hf1 Hn1 Hf2 Hn2.
    set (kept := set_connection c (Some (TransportConnection (handle t) tail))).
    set (h1 := <[conn := kept]> (heap s)).
    destruct (input_keep_alive _ _ s conn c t m1 tail now Hc Ht Hf1 Hn1)
      as [Ht1 Hf1'].
    set (s1 := if next
               then emit (emit (set_heap s h1) (RequestResponse conn m1))
                         (RequestNext conn)
               else emit (set_heap s h1) (RequestResponse conn m1)).
    assert (Hs1 : input s conn next now = Some s1) by (by destruct next).
    assert (Hheap1 : heap s1 = h1) by (by destruct next).
    assert (Hc1 : heap s1 !! conn = Some kept)
      by (rewrite Hheap1; apply lookup_insert_eq).
    assert (Htr1 : filter (λ e, is_response e = true) (trace s1)
                   = filter (λ e, is_response e = true) (trace s)
                       ++ [RequestResponse conn m1]).
    { unfold s1. destruct next; cbn [trace emit set_heap];
        rewrite ?filter_app, ?filter_response_cons, ?filter_response_nil;
        cbn [is_response]; by rewrite ?app_nil_r. }
    destruct (input_keep_alive _ _ s1 conn kept
                (TransportConnection (handle t) tail) m2 tail2 now2
                Hc1 eq_refl Hf2 Hn2) as [Ht2 Hf2'].
    set (kept2 := set_connection kept
                    (Some (TransportConnection (handle t) tail2))) in *.
    set (s2 := if next2
               then emit (emit (set_heap s1 (<[conn := kept2]> (heap s1)))
                            (RequestResponse conn m2)) (RequestNext conn)
               else emit (set_heap s1 (<[conn := kept2]> (heap s1)))
                         (RequestResponse conn m2)).
    assert (Hs2 : input s1 conn next2 now2 = Some s2) by (by destruct next2).
    assert (Htr2 : filter (λ e, is_response e = true) (trace s2)
                   = filter (λ e, is_response e = true) (trace s1)
                       ++ [RequestResponse conn m2]).
    { unfold s2. destruct next2; cbn [trace emit set_heap];
        rewrite ?filter_app, ?filter_response_cons, ?filter_response_nil;
        cbn [is_response]; by rewrite ?app_nil_r. }
    exists s1, s2. split_and!; try done.
    + unfold responses. rewrite Htr1, length_app. done.
    + unfold buffer_of. by rewrite Hc1.
    + unfold responses. rewrite Htr2, Htr1, !length_app. cbn. lia.
    + unfold buffer_of, s2. destruct next2; cbn; by rewrite lookup_insert_eq.
    + by rewrite Htr2, Htr1, <- app_assoc.
Qed.

End DispatchFacts.

(** C5, as stated, at a buffer with two complete messages: one input
    event hands over one response, not two, and leaves a buffer that
    the framer would still find [Complete]. *)
Lemma input_does_not_loop :
  let parse := const_parser [] 0 in
  ∃ s',
    backend_data parse (-1) example_pool 0%nat example_pair false 1 = Some s' ∧
    responses s' = 1%nat ∧
    buffer_of s' 0%nat = Some (bytes "HTTP/1.1 204 No Content" ++ CRLFCRLF) ∧
    fst (framer parse (-1) (bytes "HTTP/1.1 204 No Content" ++ CRLFCRLF))
    ≠ Incomplete.
Proof.
  intros parse. eexists. split; [by vm_compute|].
  split; [by vm_compute|]. split; [by vm_compute|]. by vm_compute.
Qed.

Lemma input_one_message_per_event_witness :
  let parse := const_parser [] 0 in
  ∃ s1 s2,
    sipe_http_transport_input parse (-1) example_pipelined 0%nat false 1
    = Some s1 ∧
    responses s1 = 1%nat ∧
    buffer_of s1 0%nat = Some (bytes "HTTP/1.1 204 No Content" ++ CRLFCRLF) ∧
    sipe_http_transport_input parse (-1) s1 0%nat false 2 = Some s2 ∧
    responses s2 = 2%nat ∧ buffer_of s2 0%nat = Some [].
Proof.
  intros parse.
  destruct (input_one_message_per_event parse (-1) example_pipelined 0%nat
              (HttpConnection "a" 443 false
                 (Some (TransportConnection 0%nat example_pair)) "a:443" 60)
              (TransportConnection 0%nat example_pair) false 1)
    as [_ Hpair].
  - reflexivity.
  - reflexivity.
  - destruct (Hpair (Sipmsg 200 [] 0 (Some [])) (Sipmsg 200 [] 0 (Some []))
                (bytes "HTTP/1.1 204 No Content" ++ CRLFCRLF) [] false 2)
      as (s1 & s2 & H1 & H2 & H3 & H4 & H5 & H6 & _).
    + vm_compute. reflexivity.
    + intros (v & Hv & _). vm_compute in Hv. discriminate Hv.
    + vm_compute. reflexivity.
    + intros (v & Hv & _). vm_compute in Hv. discriminate Hv.
    + exists s1, s2. repeat split; assumption.
Defined.

(** ** Well-formedness is kept by every event *)

Lemma pool_ok_insert (s : sipe_core_private) (conn : conn_id)
    (c : sipe_http_connection) :
  pool_ok s → is_Some (heap s !! conn) →
  pool_ok (set_heap s (<[conn := c]> (heap s))).
Proof.
  intros [Hfresh Hok] Hc. split.
  - intros x Hx. apply Hfresh. cbn in Hx. by eapply is_Some_insert_inv.
  - cbn. destruct (http s) as [h|]; [|done].
    destruct Hok as (Hmap & Hnd & Hq & Hndq). split_and!; [|done| |done].
    + intros k x Hk. apply is_Some_insert_mono. by eapply Hmap.
    + eapply Forall_impl; [exact Hq|]. intros x Hx.
      by apply is_Some_insert_mono.
Qed.

Lemma pool_ok_emit (s : sipe_core_private) (e : event) :
  pool_ok s → pool_ok (emit s e).
Proof. done. Qed.

Lemma NoDup_values_inj (m : gmap string conn_id) (k1 k2 : string)
    (v : conn_id) :
  NoDup (snd <$> map_to_list m) →
  m !! k1 = Some v → m !! k2 = Some v → k1 = k2.
Proof.
  intros Hnd H1 H2. destruct (decide (k1 = k2)) as [|Hne]; [done|].
  rewrite <- (map_to_list_delete m k1 v H1) in Hnd. cbn in Hnd.
  apply NoDup_cons in Hnd as [Hin _]. exfalso. apply Hin.
  apply list_elem_of_fmap. exists (k2, v). split; [done|].
  apply elem_of_map_to_list. by rewrite lookup_delete_ne.
Qed.

Lemma hash_table_remove_pool_ok (s s' : sipe_core_private) (key : string) :
  pool_ok s → g_hash_table_remove s key = Some s' → pool_ok s'.
Proof.
  intros [Hfresh Hok]. unfold g_hash_table_remove.
  destruct (http s) as [h|] eqn:Hh; [|done]. cbn [mbind option_bind].
  destruct Hok as (Hmap & Hnd & Hq & Hndq).
  destruct (connections h !! key) as [v|] eqn:Hkey.
  2:{ intros [= <-]. split; [done|]. by rewrite Hh. }
  unfold sipe_http_transport_free. cbn [heap set_http http].
  destruct (heap s !! v) as [c|] eqn:Hc; [|done]. cbn [mbind option_bind].
  intros [= <-].
  assert (Hpool : pool_ok
    (CorePrivate
       (Some (Http (delete key (connections h))
                (g_queue_remove (timeouts h) v) (next_timeout h)))
       (delete v (heap s)) (next_conn s) (next_handle s) (timer s) [])).
  { split; cbn.
    - intros x [cx Hx]. apply Hfresh.
      apply lookup_delete_Some in Hx as [_ Hx]. eauto.
    - destruct (g_queue_remove_NoDup (timeouts h) v Hndq) as [Hnd' Hv'].
      split_and!; [| | |done].
      + intros k x Hk. apply lookup_delete_Some in Hk as [Hne Hk].
        destruct (Hmap _ _ Hk) as [cx Hx]. exists cx.
        rewrite lookup_delete_ne; [done|]. intros ->.
        apply Hne. by apply (NoDup_values_inj (connections h) key k x).
      + rewrite <- (map_to_list_delete _ _ _ Hkey) in Hnd. cbn in Hnd.
        by apply NoDup_cons in Hnd as [_ ?].
      + apply Forall_forall. intros x Hx.
        assert (x ≠ v) by (intros ->; done).
        apply g_queue_remove_subseteq in Hx. rewrite Forall_forall in Hq.
        destruct (Hq _ Hx) as [cx Hcx]. exists cx.
        by rewrite lookup_delete_ne. }
  destruct (connection c); exact Hpool.
Qed.

Lemma transport_drop_pool_ok (s s' : sipe_core_private) (conn : conn_id) :
  pool_ok s → sipe_http_transport_drop s conn = Some s' → pool_ok s'.
Proof.
  intros Hok. unfold sipe_http_transport_drop.
  destruct (heap s !! conn) as [c|]; [|done]. cbn [mbind option_bind].
  by apply hash_table_remove_pool_ok.
Qed.

Lemma start_timer_pool_ok (s s' : sipe_core_private) (now : Z) :
  pool_ok s → start_timer s now = Some s' → pool_ok s'.
Proof.
  intros [Hfresh Hok]. unfold start_timer.
  destruct (http s) as [h|] eqn:Hh; [|done]. cbn [mbind option_bind].
  destruct (g_queue_peek_head _) as [x|]; [|done]. cbn [mbind option_bind].
  destruct (heap s !! x) as [c|]; [|done]. cbn [mbind option_bind].
  intros [= <-]. split; [done|]. done.
Qed.

Lemma timeout_loop_pool_ok (fuel : nat) :
  ∀ (s s' : sipe_core_private) (conn : conn_id) (now : Z),
  pool_ok s → timeout_loop fuel s conn now = Some s' → pool_ok s'.
Proof.
  induction fuel as [|fuel IH]; intros s s' conn now Hok; [done|].
  cbn [timeout_loop].
  destruct (sipe_http_transport_drop s conn) as [s1|] eqn:Hdrop; [|done].
  cbn [mbind option_bind]. apply transport_drop_pool_ok in Hdrop; [|done].
  destruct (http s1) as [h|]; [|done]. cbn [mbind option_bind].
  destruct (g_queue_peek_head _) as [x|]; [|by intros [= <-]].
  destruct (heap s1 !! x) as [c|]; [|done]. cbn [mbind option_bind].
  destruct (_ <? _).
  - by apply start_timer_pool_ok.
  - by apply IH.
Qed.

Lemma timer_fire_pool_ok (s s' : sipe_core_private) (now : Z) :
  pool_ok s → timer_fire s now = Some s' → pool_ok s'.
Proof.
  intros Hok. unfold timer_fire.
  destruct (timer s) as [[payload delay]|]; [|by intros [= <-]].
  unfold sipe_http_transport_timeout. cbn [http set_timer].
  destruct (http s) as [h|] eqn:Hh; [|done]. cbn [mbind option_bind].
  apply timeout_loop_pool_ok.
  destruct Hok as [Hfresh Hok]. rewrite Hh in Hok. split; [done|]. done.
Qed.

Lemma destroy_values_fresh (vs : list conn_id) :
  ∀ (s s' : sipe_core_private),
  (∀ conn, is_Some (heap s !! conn) → (conn < next_conn s)%nat) →
  destroy_values s vs = Some s' →
  ∀ conn, is_Some (heap s' !! conn) → (conn < next_conn s')%nat.
Proof.
  induction vs as [|v vs IH]; intros s s' Hfresh; [by intros [= <-]|].
  cbn [destroy_values].
  destruct (sipe_http_transport_free s v) as [s1|] eqn:Hfree; [|done].
  cbn [mbind option_bind]. apply IH. revert Hfree.
  unfold sipe_http_transport_free.
  destruct (heap s !! v) as [c|]; [|done]. cbn [mbind option_bind].
  destruct (http s) as [h|]; [|done]. cbn [mbind option_bind].
  intros [= <-]. destruct (connection c); cbn; intros x [cx Hx];
    apply Hfresh; apply lookup_delete_Some in Hx as [_ Hx]; eauto.
Qed.

Lemma sipe_http_free_pool_ok (s s' : sipe_core_private) :
  pool_ok s → sipe_http_free s = Some s' → pool_ok s'.
Proof.
  intros Hok. unfold sipe_http_free.
  destruct (http s) as [h|] eqn:Hh; [|by intros [= <-]].
  destruct (destroy_values _ _) as [s1|] eqn:Hd; [|done].
  cbn [mbind option_bind]. intros [= <-]. split; [|done].
  change (∀ conn, is_Some (heap s1 !! conn) → (conn < next_conn s1)%nat).
  eapply destroy_values_fresh; [|exact Hd]. exact (proj1 Hok).
Qed.

Lemma transport_new_pool_ok (s s' : sipe_core_private) (host_in : string)
    (p : N) (now : Z) (conn : conn_id) :
  pool_ok s → sipe_http_transport_new s host_in p now = Some (s', conn) →
  pool_ok s'.
Proof.
  intros Hok Hnew.
  destruct (transport_new_spec s host_in p now Hok)
    as (s1 & conn1 & _ & _ & _ & Hnew1 & _ & _ & _ & _ & Hok1).
  congruence.
Qed.

Section ReachFacts.

Variable sipmsg_parse_header : list ascii → option sipmsg.
Variable SIPMSG_BODYLEN_CHUNKED : Z.

Lemma transport_input_pool_ok (s s' : sipe_core_private) (conn : conn_id)
    (next : bool) (now : Z) :
  pool_ok s →
  sipe_http_transport_input sipmsg_parse_header SIPMSG_BODYLEN_CHUNKED
    s conn next now = Some s' →
  pool_ok s'.
Proof.
  intros Hok. unfold sipe_http_transport_input.
  destruct (heap s !! conn) as [c|] eqn:Hc; [|done]. cbn [mbind option_bind].
  destruct (connection c) as [t|]; [|done]. cbn [mbind option_bind].
  destruct (framer _ _ _) as [r rest].
  set (c1 := set_connection c _). set (s1 := set_heap s _).
  assert (Hok1 : pool_ok s1) by (apply pool_ok_insert; eauto).
  destruct r as [| |msg|]; try by intros [= <-].
  destruct (sipe_strcase_equal _ _).
  - set (c2 := set_connected _ _). set (s4 := set_heap _ _).
    assert (Hok4 : pool_ok s4).
    { apply (pool_ok_insert (emit (emit s1 _) _)); [done|].
      cbn. rewrite lookup_insert_eq. eauto. }
    destruct next; [|by intros [= <-]].
    destruct (sipe_http_transport_new _ _ _ _) as [[s5 k]|] eqn:Hn; [|done].
    intros [= <-]. by eapply transport_new_pool_ok.
  - destruct next; by intros [= <-].
Qed.

(** Every state the transport can get into is well-formed. *)
Lemma reachable_pool_ok (s : sipe_core_private) :
  reachable sipmsg_parse_header SIPMSG_BODYLEN_CHUNKED s → pool_ok s.
Proof.
  unfold reachable. intros Hr.
  refine (rtc_ind_r (R := step sipmsg_parse_header SIPMSG_BODYLEN_CHUNKED)
            pool_ok initial pool_ok_initial _ s Hr).
  intros s1 s2 _ Hstep Hok. destruct Hstep.
  - by eapply transport_new_pool_ok.
  - revert H. unfold sipe_http_transport_connected.
    destruct (heap s0 !! conn) as [c|] eqn:Hc; [|done].
    cbn [mbind option_bind]. intros [= <-].
    apply pool_ok_emit, pool_ok_insert; eauto.
  - revert H. unfold backend_data.
    destruct (backend_append s0 conn data) as [sa|] eqn:Ha; [|done].
    cbn [mbind option_bind]. apply transport_input_pool_ok.
    by eapply backend_append_pool_ok.
  - by eapply transport_drop_pool_ok.
  - by eapply timer_fire_pool_ok.
  - by eapply sipe_http_free_pool_ok.
Qed.

End ReachFacts.

(** ** The invariants of a run *)

Lemma pool_ok_fields (s s' : sipe_core_private) :
  http s' = http s → heap s' = heap s → next_conn s' = next_conn s →
  pool_ok s → pool_ok s'.
Proof. unfold pool_ok. intros -> -> ->. done. Qed.

Lemma the_http_fields (s s' : sipe_core_private) :
  http s' = http s → the_http s' = the_http s.
Proof. unfold the_http. by intros ->. Qed.

Lemma deadline_fields (s s' : sipe_core_private) (x : conn_id) :
  heap s' = heap s → deadline s' x = deadline s x.
Proof. unfold deadline. by intros ->. Qed.

Lemma StronglySorted_deadline (s s' : sipe_core_private) (q : list conn_id) :
  (∀ x, x ∈ q → deadline s' x = deadline s x) →
  StronglySorted (λ a b, deadline s a ≤ deadline s b) q →
  StronglySorted (λ a b, deadline s' a ≤ deadline s' b) q.
Proof.
  intros Heq Hs. induction Hs as [|a q Hs IH Hall]; [constructor|].
  constructor.
  - apply IH. intros x Hx. apply Heq. by right.
  - apply Forall_forall. intros x Hx. rewrite Forall_forall in Hall.
    rewrite !Heq; [by apply Hall|by right|by left].
Qed.

Lemma Forall_deadline (s s' : sipe_core_private) (P : Z → Prop)
    (q : list conn_id) :
  (∀ x, x ∈ q → deadline s' x = deadline s x) →
  Forall (λ x, P (deadline s x)) q → Forall (λ x, P (deadline s' x)) q.
Proof.
  intros Heq Hall. apply Forall_forall. intros x Hx.
  rewrite Forall_forall in Hall. rewrite Heq by done. by apply Hall.
Qed.

Lemma g_queue_remove_sorted (R : conn_id → conn_id → Prop)
    (q : list conn_id) (data : conn_id) :
  StronglySorted R q → StronglySorted R (g_queue_remove q data).
Proof.
  induction 1 as [|a q Hs IH Hall]; cbn [g_queue_remove]; [constructor|].
  case_decide; [done|]. constructor; [done|].
  apply Forall_forall. intros x Hx%g_queue_remove_subseteq.
  rewrite Forall_forall in Hall. by apply Hall.
Qed.

Lemma g_queue_remove_other (q : list conn_id) (data x : conn_id) :
  x ∈ q → x ≠ data → x ∈ g_queue_remove q data.
Proof.
  induction q as [|y q IH]; cbn [g_queue_remove]; [done|].
  intros Hx Hne. case_decide as Hy.
  - apply elem_of_cons in Hx as [->|Hx]; [congruence|done].
  - apply elem_of_cons in Hx as [->|Hx]; [left|right; auto].
Qed.

Lemma g_queue_remove_absent (q : list conn_id) (data : conn_id) :
  data ∉ q → g_queue_remove q data = q.
Proof.
  induction q as [|y q IH]; cbn [g_queue_remove]; [done|].
  intros Hn. apply not_elem_of_cons in Hn as [Hne Hn].
  rewrite decide_False by congruence. by rewrite IH.
Qed.

Lemma g_queue_remove_Forall (P : conn_id → Prop) (q : list conn_id)
    (data : conn_id) :
  Forall P q → Forall P (g_queue_remove q data).
Proof.
  intros Hall. apply Forall_forall. intros x Hx%g_queue_remove_subseteq.
  rewrite Forall_forall in Hall. by apply Hall.
Qed.

Lemma tolower_idemp (c : ascii) :
  g_ascii_tolower (g_ascii_tolower c) = g_ascii_tolower c.
Proof.
  apply same_letter_tolower. apply tolower_same_letter.
  destruct c as [[] [] [] [] [] [] [] []]; reflexivity.
Qed.

Lemma strdown_idemp (h : string) :
  g_ascii_strdown (g_ascii_strdown h) = g_ascii_strdown h.
Proof.
  induction h as [|c h IH]; [done|]. cbn [g_ascii_strdown].
  by rewrite IH, tolower_idemp.
Qed.

(** A connection record is replaced by one with the same key and
    deadline. *)
Lemma pool_inv_update (t0 t : Z) (s s' : sipe_core_private) (conn : conn_id)
    (c c' : sipe_http_connection) :
  pool_inv t0 t s → heap s !! conn = Some c →
  host c' = host c → port c' = port c → host_port c' = host_port c →
  timeout c' = timeout c →
  (is_Some (connection c') → conn ∈ timeouts (the_http s)) →
  http s' = http s → heap s' = <[conn := c']> (heap s) →
  next_conn s' = next_conn s →
  pool_inv t0 t s' ∧ ∀ x, deadline s' x = deadline s x.
Proof.
  intros (Ht & Hok & Hreg & Hlive & Hsort & Hrange) Hc Hhost Hport Hkey Hto
    Hsock Hh Hm Hn.
  assert (Hd : ∀ x, deadline s' x = deadline s x).
  { intros x. unfold deadline. rewrite Hm.
    destruct (decide (x = conn)) as [->|Hne].
    - rewrite lookup_insert_eq, Hc. done.
    - by rewrite lookup_insert_ne. }
  split; [|done]. split; [done|].
  pose proof (the_http_fields s s' Hh) as Hth.
  split; [|split; [|unfold queue_in_order; rewrite Hth; split_and!]].
  - apply (pool_ok_fields (set_heap s (<[conn := c']> (heap s)))); try done.
    apply pool_ok_insert; eauto.
  - intros x cx Hx. rewrite Hm in Hx. rewrite Hth.
    destruct (decide (x = conn)) as [->|Hne].
    + rewrite lookup_insert_eq in Hx. injection Hx as <-.
      rewrite Hhost, Hport, Hkey. by apply Hreg.
    + rewrite lookup_insert_ne in Hx by done. by apply Hreg.
  - intros x cx Hx Hs. rewrite Hm in Hx.
    destruct (decide (x = conn)) as [->|Hne].
    + rewrite lookup_insert_eq in Hx. injection Hx as <-. auto.
    + rewrite lookup_insert_ne in Hx by done. eauto.
  - by apply (StronglySorted_deadline s).
  - by apply (Forall_deadline s s' (λ d, t0 + 60 ≤ d ≤ t + 60)).
Qed.

Lemma timer_in_step_fields (t : Z) (s s' : sipe_core_private) :
  http s' = http s → timer s' = timer s →
  (∀ x, x ∈ timeouts (the_http s) → deadline s' x = deadline s x) →
  timer_in_step t s → timer_in_step t s'.
Proof.
  intros Hh Ht Hd (H1 & H2 & H3 & H4). unfold timer_in_step.
  rewrite (the_http_fields s s' Hh), Ht.
  split; [done|]. split; [done|]. split; [done|].
  by apply (Forall_deadline s s' (λ d, next_timeout (the_http s) ≤ d)).
Qed.

Lemma transport_ok_update (t0 t : Z) (s s' : sipe_core_private)
    (conn : conn_id) (c c' : sipe_http_connection) :
  transport_ok t0 t s → heap s !! conn = Some c →
  host c' = host c → port c' = port c → host_port c' = host_port c →
  timeout c' = timeout c →
  (is_Some (connection c') → conn ∈ timeouts (the_http s)) →
  http s' = http s → heap s' = <[conn := c']> (heap s) →
  next_conn s' = next_conn s → timer s' = timer s →
  transport_ok t0 t s'.
Proof.
  intros [Hinv Htm] Hc Hhost Hport Hkey Hto Hsock Hh Hm Hn Ht.
  destruct (pool_inv_update t0 t s s' conn c c') as [Hinv' Hd]; try done.
  split; [done|]. by apply (timer_in_step_fields t s).
Qed.

(** The clock moves on. *)
Lemma transport_ok_later (t0 t t' : Z) (s : sipe_core_private) :
  transport_ok t0 t s → t ≤ t' → t' + 60 < t0 + 2 ^ 31 →
  transport_ok t0 t' s.
Proof.
  intros [(Ht & Hok & Hreg & Hlive & Hsort & Hrange) (H1 & H2 & H3 & H4)] Hle Hb.
  split.
  - split; [lia|]. split; [done|]. split; [done|]. split_and!; try done.
    eapply Forall_impl; [exact Hrange|]. intros x Hx. cbv beta in *. lia.
  - unfold timer_in_step. split; [done|]. split; [done|]. split; [lia|done].
Qed.

Lemma registered_http (s : sipe_core_private) (conn : conn_id)
    (c : sipe_http_connection) :
  registered s → heap s !! conn = Some c →
  ∃ h, http s = Some h ∧ connections h !! host_port c = Some conn.
Proof.
  intros Hreg Hc. destruct (Hreg _ _ Hc) as (Hk & _). revert Hk.
  unfold the_http. destruct (http s) as [h|]; [eauto|].
  cbn. by rewrite lookup_empty.
Qed.

(** Dropping an allocated connection: it leaves table, queue and heap,
    its socket is closed and the request queue is told; [next_timeout]
    and the timer stay as they are. *)
Lemma transport_drop_spec (t0 t : Z) (s : sipe_core_private) (conn : conn_id)
    (c : sipe_http_connection) :
  pool_inv t0 t s → heap s !! conn = Some c →
  ∃ s',
    sipe_http_transport_drop s conn = Some s' ∧
    http s' = Some (Http (delete (host_port c) (connections (the_http s)))
                         (g_queue_remove (timeouts (the_http s)) conn)
                         (next_timeout (the_http s))) ∧
    heap s' = delete conn (heap s) ∧ timer s' = timer s ∧
    next_conn s' = next_conn s ∧
    trace s' = trace s ++ drop_events conn c ∧
    pool_inv t0 t s'.
Proof.
  intros (Ht & Hok & Hreg & Hlive & Hsort & Hrange) Hc.
  destruct (registered_http s conn c Hreg Hc) as (h & Hh & Hk).
  assert (Hth : the_http s = h) by (unfold the_http; by rewrite Hh).
  unfold registered in Hreg. rewrite Hth in *.
  destruct (sipe_http_transport_drop s conn) as [s'|] eqn:Hdrop.
  2:{ revert Hdrop. unfold sipe_http_transport_drop. rewrite Hc.
      cbn [mbind option_bind]. unfold g_hash_table_remove. rewrite Hh.
      cbn [mbind option_bind]. rewrite Hk. unfold sipe_http_transport_free.
      cbn [heap set_http http mbind option_bind]. by rewrite Hc. }
  pose proof (transport_drop_pool_ok s s' conn Hok Hdrop) as Hok'.
  revert Hdrop. unfold sipe_http_transport_drop. rewrite Hc.
  cbn [mbind option_bind]. unfold g_hash_table_remove. rewrite Hh.
  cbn [mbind option_bind]. rewrite Hk. unfold sipe_http_transport_free.
  cbn [heap set_http http mbind option_bind]. rewrite Hc.
  cbn [mbind option_bind timeouts set_connections]. intros [= <-].
  exists (emit
    (set_heap
       (set_http
          match connection c with
          | Some t1 =>
              emit (set_http s (Some (set_connections h
                                        (delete (host_port c) (connections h)))))
                (BackendDisconnect (handle t1))
          | None =>
              set_http s (Some (set_connections h
                                  (delete (host_port c) (connections h))))
          end
          (Some (set_timeouts
                   (set_connections h (delete (host_port c) (connections h)))
                   (g_queue_remove (timeouts h) conn))))
       (delete conn (heap s))) (RequestShutdown conn)).
  assert (Hheap : ∀ sx : sipe_core_private,
            heap match connection c with
                 | Some t1 => emit sx (BackendDisconnect (handle t1))
                 | None => sx
                 end = heap sx) by (intros; by destruct (connection c)).
  split.
  { f_equal. f_equal. f_equal. by rewrite Hheap. }
  split; [done|]. split; [done|].
  split; [by destruct (connection c)|].
  split; [by destruct (connection c)|].
  split.
  { unfold drop_events. destruct (connection c); cbn; [|done].
    by rewrite <- app_assoc. }
  assert (Hnd : NoDup (timeouts h)).
  { destruct Hok as [_ Hok]. rewrite Hh in Hok. by destruct Hok as (_ & _ & _ & ?). }
  destruct (g_queue_remove_NoDup _ conn Hnd) as [_ Hnin].
  assert (Hd : ∀ x, x ∈ g_queue_remove (timeouts h) conn →
                    deadline (set_heap s (delete conn (heap s))) x = deadline s x).
  { intros x Hx. unfold deadline. cbn [heap set_heap].
    rewrite lookup_delete_ne; [done|]. by intros ->. }
  split; [done|]. split.
  { revert Hok'. apply pool_ok_fields; by destruct (connection c). }
  split.
  - intros x cx Hx. cbn in Hx.
    apply lookup_delete_Some in Hx as [Hne Hx].
    destruct (Hreg _ _ Hx) as (Hkx & Hrest). split; [|done].
    cbn. rewrite lookup_delete_ne; [done|]. intros Heq.
    rewrite <- Heq in Hkx. congruence.
  - unfold queue_in_order. cbn. split_and!.
    + intros x cx Hx Hs. apply lookup_delete_Some in Hx as [Hne Hx].
      apply g_queue_remove_other; eauto.
    + apply (StronglySorted_deadline s); [done|].
      by apply g_queue_remove_sorted.
    + apply (Forall_deadline s _ (λ d, t0 + 60 ≤ d ≤ t + 60)); [done|].
      by apply g_queue_remove_Forall.
Qed.

Lemma transport_ok_drop (t0 t : Z) (s s' : sipe_core_private)
    (conn : conn_id) :
  transport_ok t0 t s → sipe_http_transport_drop s conn = Some s' →
  transport_ok t0 t s'.
Proof.
  intros [Hinv (H1 & H2 & H3 & H4)] Hdrop.
  destruct (heap s !! conn) as [c|] eqn:Hc.
  2:{ unfold sipe_http_transport_drop in Hdrop. by rewrite Hc in Hdrop. }
  destruct (transport_drop_spec t0 t s conn c Hinv Hc)
    as (s1 & Hs1 & Hh & Hm & Htm & _ & _ & Hinv').
  rewrite Hdrop in Hs1. injection Hs1 as <-. split; [done|].
  assert (Hnd : NoDup (timeouts (the_http s))).
  { destruct Hinv as (_ & [_ Hok] & Hreg & _).
    destruct (registered_http s conn c Hreg Hc) as (h & Hh' & _).
    unfold the_http. rewrite Hh' in *. cbn. by destruct Hok as (_ & _ & _ & ?). }
  destruct (g_queue_remove_NoDup _ conn Hnd) as [_ Hnin].
  unfold timer_in_step, the_http. rewrite Hh, Htm. cbn.
  split; [done|]. split.
  { intros Hne. apply H2. intros Hq. rewrite Hq in Hne. done. }
  split; [done|].
  apply Forall_forall. intros x Hx.
  assert (deadline s' x = deadline s x) as ->.
  { unfold deadline. rewrite Hm, lookup_delete_ne; [done|]. by intros ->. }
  rewrite Forall_forall in H4. apply H4. by eapply g_queue_remove_subseteq.
Qed.

(** [g_queue_insert_sorted] with [timeout_compare] keeps a queue in
    the order of its deadlines, as long as the differences fit a
    [gint]. *)
Lemma g_queue_insert_sorted_order (s : sipe_core_private) (q : list conn_id)
    (data : conn_id) :
  is_Some (heap s !! data) →
  Forall (λ x, is_Some (heap s !! x) ∧
               - 2 ^ 31 ≤ deadline s x - deadline s data < 2 ^ 31) q →
  StronglySorted (λ a b, deadline s a ≤ deadline s b) q →
  ∃ q', g_queue_insert_sorted (timeout_compare (heap s)) q data = Some q' ∧
        q' ≡ₚ data :: q ∧
        StronglySorted (λ a b, deadline s a ≤ deadline s b) q'.
Proof.
  intros [cd Hd] Hq Hs.
  assert (Hdd : deadline s data = timeout cd) by (unfold deadline; by rewrite Hd).
  induction q as [|x q IH]; cbn [g_queue_insert_sorted].
  - exists [data]. split; [done|]. split; [done|]. repeat constructor.
  - apply Forall_cons in Hq as [[[cx Hx] Hr] Hq].
    apply StronglySorted_inv in Hs as [Hs Hall].
    assert (Hdx : deadline s x = timeout cx) by (unfold deadline; by rewrite Hx).
    rewrite (timeout_compare_Some _ _ _ _ _ Hx Hd). cbn [mbind option_bind].
    rewrite gint_small by lia.
    destruct (_ <? 0) eqn:Hlt.
    + destruct (IH Hq Hs) as (q' & -> & Hp & Hs'). exists (x :: q').
      split; [done|]. split; [rewrite Hp; apply Permutation_swap|].
      constructor; [done|]. apply Forall_forall. intros y Hy.
      rewrite Hp in Hy. apply elem_of_cons in Hy as [->|Hy].
      * apply Z.ltb_lt in Hlt. lia.
      * rewrite Forall_forall in Hall. by apply Hall.
    + exists (data :: x :: q). split; [done|]. split; [done|].
      apply Z.ltb_ge in Hlt. constructor; [by constructor|].
      constructor; [lia|]. eapply Forall_impl; [exact Hall|].
      intros y Hy. cbv beta in *. lia.
Qed.

Lemma transport_ok_init (t0 t : Z) (s : sipe_core_private) :
  transport_ok t0 t s →
  transport_ok t0 t (sipe_http_init s) ∧
  http (sipe_http_init s) = Some (the_http s) ∧
  heap (sipe_http_init s) = heap s ∧ timer (sipe_http_init s) = timer s ∧
  next_conn (sipe_http_init s) = next_conn s.
Proof.
  intros Hok. unfold sipe_http_init, the_http.
  destruct (http s) as [h|] eqn:Hh; [by rewrite Hh|].
  split; [|done].
  destruct Hok as [(Ht & [Hfresh _] & Hreg & Hq) Htm].
  split.
  2:{ unfold timer_in_step, the_http in *. rewrite Hh in Htm. exact Htm. }
  split; [done|]. split; [|split].
  - split; [done|]. cbn. split_and!; try done.
    + rewrite map_to_list_empty. constructor.
    + constructor.
  - unfold registered, the_http in *. rewrite Hh in Hreg. exact Hreg.
  - unfold queue_in_order, the_http in *. rewrite Hh in Hq. exact Hq.
Qed.

(** The first half of [sipe_http_transport_new] keeps the invariants;
    a connection it returns without socket is not in the queue. *)
Lemma transport_lookup_ok (t0 t : Z) (s : sipe_core_private) (h : sipe_http)
    (host_in : string) (p : N) :
  transport_ok t0 t s → http s = Some h →
  let host_ := g_ascii_strdown host_in in
  let key := make_host_port host_ p in
  ∃ s1 conn c,
    transport_lookup s host_ p key = Some (s1, conn) ∧
    transport_ok t0 t s1 ∧ is_Some (http s1) ∧
    heap s1 !! conn = Some c ∧ host_port c = key ∧
    (connection c = None → conn ∉ timeouts (the_http s1)).
Proof.
  intros Hinv Hh host_ key.
  pose proof Hinv
    as [(Ht & Hok & Hreg & Hlive & Hsort & Hrange) (H1 & H2 & H3 & H4)].
  assert (Hth : the_http s = h) by (unfold the_http; by rewrite Hh).
  unfold registered in Hreg. rewrite Hth in *.
  destruct Hok as [Hfresh Hok]. rewrite Hh in Hok.
  destruct Hok as (Hmap & Hnd & Hq & Hndq).
  unfold transport_lookup. rewrite Hh. cbn [mbind option_bind].
  destruct (connections h !! key) as [conn|] eqn:Hkey.
  - destruct (Hmap _ _ Hkey) as [c Hc]. rewrite Hc. cbn [mbind option_bind].
    assert (Hk : host_port c = key).
    { destruct (Hreg _ _ Hc) as (Hkc & _).
      by apply (NoDup_values_inj (connections h) _ _ conn). }
    destruct (connection c) as [tc|] eqn:Hsock.
    + exists s, conn, c. split; [done|]. split; [done|].
      split; [by rewrite Hh|]. split; [done|]. split; [done|]. congruence.
    + destruct (g_queue_remove_NoDup _ conn Hndq) as [Hndq' Hnin].
      eexists _, conn, c. split; [done|]. split.
      { split.
        - split; [done|]. split; [|split].
          + split; [done|]. cbn. split_and!; try done.
            by apply g_queue_remove_Forall.
          + unfold registered. cbn. done.
          + unfold queue_in_order. cbn. split_and!.
            * intros x cx Hx Hs. apply g_queue_remove_other; [eauto|].
              intros ->. rewrite Hc in Hx. injection Hx as <-.
              rewrite Hsock in Hs. by destruct Hs.
            * by apply g_queue_remove_sorted.
            * by apply g_queue_remove_Forall.
        - unfold timer_in_step. cbn. split; [done|]. split.
          { intros Hne. apply H2. intros Hq0. rewrite Hq0 in Hne. done. }
          split; [done|]. by apply g_queue_remove_Forall. }
      split; [by cbn|]. split; [done|]. split; [done|]. done.
  - set (conn := next_conn s).
    set (c0 := HttpConnection host_ p false None key 0).
    assert (Hnew : heap s !! conn = None).
    { destruct (heap s !! conn) eqn:E; [|done].
      assert (conn < next_conn s)%nat by (apply Hfresh; eauto).
      unfold conn in *. lia. }
    assert (Hnq : conn ∉ timeouts h).
    { intros Hin. rewrite Forall_forall in Hq. destruct (Hq _ Hin) as [? E].
      congruence. }
    assert (Hd : ∀ x, x ∈ timeouts h →
              deadline (set_heap s (<[conn := c0]> (heap s))) x = deadline s x).
    { intros x Hx. unfold deadline. cbn. rewrite lookup_insert_ne; [done|].
      by intros ->. }
    eexists _, conn, c0. split; [done|]. split.
    { split.
      - split; [done|]. split; [|split].
        + split.
          * intros x Hx. cbn in *. destruct (decide (x = conn)) as [->|Hne].
            -- unfold conn. lia.
            -- rewrite lookup_insert_ne in Hx by done.
               apply Hfresh in Hx. lia.
          * cbn. split_and!; try done.
            -- intros k x Hk. apply lookup_insert_Some in Hk as [[_ <-]|[_ Hk]].
               ++ rewrite lookup_insert_eq. eauto.
               ++ apply is_Some_insert_mono. by eapply Hmap.
            -- rewrite map_to_list_insert by done. cbn. constructor; [|done].
               intros Hin. apply list_elem_of_fmap in Hin as ([k v] & Hv & Hin).
               cbn in Hv. subst v. apply elem_of_map_to_list in Hin.
               destruct (Hmap _ _ Hin) as [? E]. congruence.
            -- eapply Forall_impl; [exact Hq|]. intros x Hx.
               by apply is_Some_insert_mono.
        + intros x cx Hx. cbn in Hx. cbn.
          destruct (decide (x = conn)) as [->|Hne].
          * rewrite lookup_insert_eq in Hx. injection Hx as <-. cbn.
            rewrite lookup_insert_eq. split; [done|]. split; [done|].
            apply strdown_idemp.
          * rewrite lookup_insert_ne in Hx by done.
            destruct (Hreg _ _ Hx) as (Hkx & Hrest). split; [|done].
            rewrite lookup_insert_ne; [done|]. intros Heq.
            rewrite <- Heq in Hkx. congruence.
        + unfold queue_in_order. cbn. split_and!.
          * intros x cx Hx Hs. destruct (decide (x = conn)) as [->|Hne].
            -- rewrite lookup_insert_eq in Hx. injection Hx as <-.
               cbn in Hs. by destruct Hs.
            -- rewrite lookup_insert_ne in Hx by done. eauto.
          * exact (StronglySorted_deadline s
                     (set_heap s (<[conn := c0]> (heap s))) _ Hd Hsort).
          * exact (Forall_deadline s (set_heap s (<[conn := c0]> (heap s)))
                     (λ d, t0 + 60 ≤ d ≤ t + 60) _ Hd Hrange).
      - unfold timer_in_step. cbn. split; [done|]. split; [done|].
        split; [done|].
        exact (Forall_deadline s (set_heap s (<[conn := c0]> (heap s)))
                 (λ d, next_timeout h ≤ d) _ Hd H4). }
    split; [by cbn|]. split; [apply lookup_insert_eq|]. split; [done|]. done.
Qed.

(** The pool when a connection without socket got one, the deadline
    [now + 60] and its place in the queue. *)
Lemma establish_pool_inv (t0 t now : Z) (s s' : sipe_core_private)
    (h : sipe_http) (conn : conn_id) (c c' : sipe_http_connection)
    (q' : list conn_id) (nt' : Z) :
  pool_inv t0 t s → http s = Some h → heap s !! conn = Some c →
  conn ∉ timeouts h → t ≤ now → now + 60 < t0 + 2 ^ 31 →
  host c' = host c → port c' = port c → host_port c' = host_port c →
  timeout c' = now + 60 →
  http s' = Some (Http (connections h) q' nt') →
  heap s' = <[conn := c']> (heap s) → next_conn s' = next_conn s →
  q' ≡ₚ conn :: timeouts h →
  StronglySorted (λ a b, deadline s' a ≤ deadline s' b) q' →
  pool_inv t0 now s' ∧ deadline s' conn = now + 60 ∧
  ∀ x, x ∈ timeouts h → deadline s' x = deadline s x.
Proof.
  intros (Ht & Hok & Hreg & Hlive & Hsort & Hrange) Hh Hc Hnq Hle Hb
    Hhost Hport Hkey Hto Hh' Hm Hn Hp Hs'.
  assert (Hth : the_http s = h) by (unfold the_http; by rewrite Hh).
  assert (Hth' : the_http s' = Http (connections h) q' nt')
    by (unfold the_http; by rewrite Hh').
  unfold registered in Hreg. rewrite Hth in *.
  destruct Hok as [Hfresh Hok]. rewrite Hh in Hok.
  destruct Hok as (Hmap & Hnd & Hq & Hndq).
  assert (Hdc : deadline s' conn = now + 60).
  { unfold deadline. by rewrite Hm, lookup_insert_eq. }
  assert (Hd : ∀ x, x ∈ timeouts h → deadline s' x = deadline s x).
  { intros x Hx. unfold deadline. rewrite Hm, lookup_insert_ne; [done|].
    by intros ->. }
  split; [|done]. split; [lia|]. split; [|split].
  - split.
    + intros x Hx. rewrite Hm in Hx. rewrite Hn. apply Hfresh.
      eapply is_Some_insert_inv; eauto.
    + rewrite Hh', Hm. cbn. split_and!; try done.
      * intros k x Hk. apply is_Some_insert_mono. by eapply Hmap.
      * apply Forall_forall. intros x Hx. rewrite Hp in Hx.
        apply is_Some_insert_mono.
        apply elem_of_cons in Hx as [->|Hx]; [by eauto|].
        rewrite Forall_forall in Hq. auto.
      * rewrite Hp. by apply NoDup_cons.
  - intros x cx Hx. rewrite Hm in Hx. rewrite Hth'. cbn.
    destruct (decide (x = conn)) as [->|Hne].
    + rewrite lookup_insert_eq in Hx. injection Hx as <-.
      rewrite Hhost, Hport, Hkey. by apply Hreg.
    + rewrite lookup_insert_ne in Hx by done. by apply Hreg.
  - unfold queue_in_order. rewrite Hth'. cbn. split_and!; [|done|].
    + intros x cx Hx Hs. rewrite Hm in Hx. rewrite Hp.
      destruct (decide (x = conn)) as [->|Hne]; [left|right].
      rewrite lookup_insert_ne in Hx by done. eauto.
    + apply Forall_forall. intros x Hx. rewrite Hp in Hx.
      apply elem_of_cons in Hx as [->|Hx]; [lia|].
      rewrite Hd by done. rewrite Forall_forall in Hrange.
      specialize (Hrange _ Hx). cbv beta in Hrange. lia.
Qed.

(** The second half of [sipe_http_transport_new] keeps the invariants
    while the clock moves on to [now]. *)
Lemma transport_establish_ok (t0 t now : Z) (s : sipe_core_private)
    (h : sipe_http) (conn : conn_id) (c : sipe_http_connection)
    (host_ : string) (port_ : N) :
  transport_ok t0 t s → http s = Some h → heap s !! conn = Some c →
  (connection c = None → conn ∉ timeouts h) →
  t ≤ now → now + 60 < t0 + 2 ^ 31 →
  ∃ s' c',
    transport_establish s conn host_ port_ now = Some s' ∧
    transport_ok t0 now s' ∧
    heap s' !! conn = Some c' ∧ is_Some (connection c') ∧
    (connection c = None → timeout c' = now + 60 ∧ connected c' = false) ∧
    (is_Some (connection c) → s' = s) ∧
    connections (the_http s') = connections h.
Proof.
  intros Hinv Hh Hc Hnq Hle Hb.
  assert (Hth : the_http s = h) by (unfold the_http; by rewrite Hh).
  unfold transport_establish. rewrite Hc. cbn [mbind option_bind].
  destruct (connection c) as [tc|] eqn:Hsock.
  { exists s, c. split; [done|]. split; [by eapply transport_ok_later|].
    split; [done|]. split; [by rewrite Hsock|]. split; [done|].
    split; [done|]. by rewrite Hth. }
  specialize (Hnq eq_refl).
  rewrite Hh. cbn [mbind option_bind]. cbv zeta.
  set (c' := set_timeout _ _).
  set (s2 := CorePrivate _ _ _ _ _ _).
  pose proof Hinv
    as [(Ht & Hok & Hreg & Hlive & Hsort & Hrange) (H1 & H2 & H3 & H4)].
  rewrite Hth in *.
  assert (Hq : Forall (λ x, is_Some (heap s !! x)) (timeouts h)).
  { destruct Hok as [_ Hok]. rewrite Hh in Hok. by destruct Hok as (_ & _ & ? & _). }
  assert (Hdc : deadline s2 conn = now + 60).
  { unfold deadline, s2. cbn [heap]. by rewrite lookup_insert_eq. }
  assert (Hd : ∀ x, x ∈ timeouts h → deadline s2 x = deadline s x).
  { intros x Hx. unfold deadline, s2. cbn [heap].
    rewrite lookup_insert_ne; [done|]. by intros ->. }
  destruct (g_queue_insert_sorted_order s2 (timeouts h) conn)
    as (q' & Hins & Hp & Hs').
  { unfold s2. cbn [heap]. rewrite lookup_insert_eq. eauto. }
  { apply Forall_forall. intros x Hx. split.
    - unfold s2. cbn [heap]. apply is_Some_insert_mono.
      rewrite Forall_forall in Hq. auto.
    - rewrite Hdc, Hd by done. rewrite Forall_forall in Hrange.
      specialize (Hrange _ Hx). cbv beta in Hrange. lia. }
  { by apply (StronglySorted_deadline s). }
  rewrite Hins. cbn [mbind option_bind].
  assert (Hgen : ∀ s' nt',
            http s' = Some (Http (connections h) q' nt') →
            heap s' = heap s2 → next_conn s' = next_conn s →
            pool_inv t0 now s' ∧ deadline s' conn = now + 60 ∧
            ∀ x, x ∈ timeouts h → deadline s' x = deadline s x).
  { intros s' nt' Hh' Hm' Hn'.
    apply (establish_pool_inv t0 t now s s' h conn c c' q' nt'); try done.
    - by destruct Hinv.
    - exact (StronglySorted_deadline s2 s' q'
               (λ x _, deadline_fields s2 s' x Hm') Hs'). }
  destruct (next_timeout h =? 0) eqn:Hnt.
  - apply Z.eqb_eq in Hnt.
    unfold start_timer. cbn [http set_http mbind option_bind timeouts set_timeouts].
    destruct q' as [|x q']; [by apply Permutation_nil_cons in Hp|].
    cbn [g_queue_peek_head head mbind option_bind heap set_http].
    assert (Hx : ∃ cx, heap s2 !! x = Some cx ∧ deadline s2 x = timeout cx).
    { assert (Hin : x ∈ conn :: timeouts h) by (rewrite <- Hp; left).
      assert (Hsm : is_Some (heap s2 !! x)).
      { unfold s2. cbn [heap].
        apply elem_of_cons in Hin as [->|Hin].
        - rewrite lookup_insert_eq. eauto.
        - apply is_Some_insert_mono. rewrite Forall_forall in Hq. auto. }
      destruct Hsm as [cx Hcx]. exists cx. split; [done|].
      unfold deadline. by rewrite Hcx. }
    destruct Hx as (cx & Hcx & Hdx). rewrite Hcx. cbn [mbind option_bind].
    eexists _, c'.
    destruct (Hgen
      (sipe_schedule_seconds
         (set_http (set_http s2 (Some (set_timeouts h (x :: q'))))
            (Some (set_next_timeout (set_timeouts h (x :: q')) (timeout cx))))
         x (guint (timeout cx - now))) (timeout cx))
      as (Hinv' & Hdc' & Hd'); [done..|].
    split; [done|]. split.
    { split; [done|].
      destruct Hinv' as (_ & _ & _ & _ & Hsort' & Hrange').
      assert (Hr2 : Forall (λ y, t0 + 60 ≤ deadline s2 y ≤ now + 60) (x :: q'))
        by exact Hrange'.
      assert (Hs2 : StronglySorted (λ a b, deadline s2 a ≤ deadline s2 b)
                      (x :: q')) by exact Hsort'.
      apply Forall_cons in Hr2 as [Hrx _]. rewrite Hdx in Hrx.
      apply StronglySorted_inv in Hs2 as [_ Hall]. rewrite Hdx in Hall.
      assert (Hgoal :
        (timeout cx = 0 ↔ Some (x, guint (timeout cx - now)) = None) ∧
        (x :: q' ≠ [] → timeout cx ≠ 0) ∧
        0 ≤ timeout cx ≤ now + 60 ∧
        Forall (λ y, timeout cx ≤ deadline s2 y) (x :: q')); [|exact Hgoal].
      split; [split; [lia|done]|]. split; [lia|]. split; [lia|].
      constructor; [lia|done]. }
    split; [apply lookup_insert_eq|]. split; [by cbn|].
    split; [done|]. split; [by intros []|done].
  - apply Z.eqb_neq in Hnt. eexists _, c'.
    destruct (Hgen (set_http s2 (Some (set_timeouts h q'))) (next_timeout h))
      as (Hinv' & Hdc' & Hd'); [done..|].
    split; [done|]. split.
    { split; [done|].
      assert (Hgoal :
        (next_timeout h = 0 ↔ timer s = None) ∧
        (q' ≠ [] → next_timeout h ≠ 0) ∧
        0 ≤ next_timeout h ≤ now + 60 ∧
        Forall (λ y, next_timeout h ≤ deadline s2 y) q'); [|exact Hgoal].
      split; [done|]. split; [done|]. split; [lia|].
      apply Forall_forall. intros y Hy. rewrite Hp in Hy.
      apply elem_of_cons in Hy as [->|Hy]; [lia|].
      rewrite Hd by done. rewrite Forall_forall in H4. by apply H4. }
    split; [apply lookup_insert_eq|]. split; [by cbn|].
    split; [done|]. split; [by intros []|done].
Qed.

Lemma transport_new_ok (t0 t now : Z) (s : sipe_core_private)
    (host_in : string) (p : N) :
  transport_ok t0 t s → t ≤ now → now + 60 < t0 + 2 ^ 31 →
  ∃ s' conn c',
    sipe_http_transport_new s host_in p now = Some (s', conn) ∧
    transport_ok t0 now s' ∧
    heap s' !! conn = Some c' ∧ is_Some (connection c').
Proof.
  intros Hinv Hle Hb.
  destruct (transport_ok_init t0 t s Hinv) as (Hinv0 & Hh0 & _).
  unfold sipe_http_transport_new. cbv zeta.
  destruct (transport_lookup_ok t0 t (sipe_http_init s) _ host_in p Hinv0 Hh0)
    as (s1 & conn & c & -> & Hinv1 & [h1 Hh1] & Hc & _ & Hnq).
  cbn [mbind option_bind].
  assert (Hth1 : the_http s1 = h1) by (unfold the_http; by rewrite Hh1).
  rewrite Hth1 in Hnq.
  destruct (transport_establish_ok t0 t now s1 h1 conn c
              (g_ascii_strdown host_in) p Hinv1 Hh1 Hc Hnq Hle Hb)
    as (s' & c' & -> & Hinv' & Hc' & Hs' & _).
  cbn [mbind option_bind]. by exists s', conn, c'.
Qed.

Lemma pool_inv_later (t0 t t' : Z) (s : sipe_core_private) :
  pool_inv t0 t s → t ≤ t' → t' + 60 < t0 + 2 ^ 31 → pool_inv t0 t' s.
Proof.
  intros (Ht & Hok & Hreg & Hlive & Hsort & Hrange) Hle Hb.
  split; [lia|]. split; [done|]. split; [done|]. split_and!; try done.
  eapply Forall_impl; [exact Hrange|]. intros x Hx. cbv beta in *. lia.
Qed.

(** [start_timer] arms the timer for the head of the queue. *)
Lemma start_timer_ok (t0 t now : Z) (s s' : sipe_core_private) :
  pool_inv t0 t s → t ≤ now → now + 60 < t0 + 2 ^ 31 →
  start_timer s now = Some s' → transport_ok t0 now s'.
Proof.
  intros Hinv Hle Hb. unfold start_timer.
  destruct (http s) as [h|] eqn:Hh; [|done]. cbn [mbind option_bind].
  destruct (timeouts h) as [|x q] eqn:Hq; [done|].
  cbn [g_queue_peek_head head mbind option_bind].
  destruct (heap s !! x) as [cx|] eqn:Hx; [|done]. cbn [mbind option_bind].
  intros [= <-].
  assert (Hth : the_http s = h) by (unfold the_http; by rewrite Hh).
  apply (pool_inv_later _ _ now) in Hinv; [|done..].
  pose proof Hinv as (Ht & Hok & Hreg & Hlive & Hsort & Hrange).
  rewrite Hth, Hq in *.
  assert (Hdx : deadline s x = timeout cx) by (unfold deadline; by rewrite Hx).
  split.
  - split; [done|]. split; [|split].
    + revert Hok. unfold pool_ok. cbn. by rewrite Hh.
    + unfold registered, the_http in *. cbn. by rewrite Hh in Hreg.
    + unfold queue_in_order. cbn. by rewrite Hq.
  - apply Forall_cons in Hrange as [Hrx _]. rewrite Hdx in Hrx.
    apply StronglySorted_inv in Hsort as [_ Hall]. rewrite Hdx in Hall.
    assert (Hgoal :
      (timeout cx = 0 ↔ Some (x, guint (timeout cx - now)) = None) ∧
      (timeouts h ≠ [] → timeout cx ≠ 0) ∧
      0 ≤ timeout cx ≤ now + 60 ∧
      Forall (λ y, timeout cx ≤ deadline s y) (timeouts h)); [|exact Hgoal].
    split; [split; [lia|done]|]. split; [lia|]. split; [lia|].
    rewrite Hq. constructor; [lia|done].
Qed.

(** The loop of the timeout handler, entered with [next_timeout] reset
    and the timer slot empty, ends in a state that meets the
    invariants. *)
Lemma timeout_loop_ok (t0 t now : Z) (fuel : nat) :
  ∀ (s s' : sipe_core_private) (conn : conn_id),
  pool_inv t0 t s → next_timeout (the_http s) = 0 → timer s = None →
  t ≤ now → now + 60 < t0 + 2 ^ 31 →
  timeout_loop fuel s conn now = Some s' → transport_ok t0 now s'.
Proof.
  induction fuel as [|fuel IH]; intros s s' conn Hinv Hnt Htm Hle Hb; [done|].
  cbn [timeout_loop].
  destruct (heap s !! conn) as [c|] eqn:Hc.
  2:{ unfold sipe_http_transport_drop. by rewrite Hc. }
  destruct (transport_drop_spec t0 t s conn c Hinv Hc)
    as (s1 & -> & Hh1 & Hm1 & Htm1 & _ & _ & Hinv1).
  cbn [mbind option_bind]. rewrite Hh1. cbn [mbind option_bind timeouts].
  destruct (g_queue_remove _ _) as [|x q] eqn:Hq;
    cbn [g_queue_peek_head head].
  - intros [= <-]. split; [by apply (pool_inv_later _ t)|].
    unfold timer_in_step, the_http. rewrite Hh1, Htm1, Htm, Hnt. cbn.
    split; [done|]. split; [done|]. split; [|constructor].
    destruct Hinv as (? & _). lia.
  - destruct (heap s1 !! x) as [cx|] eqn:Hx; [|done].
    cbn [mbind option_bind]. destruct (_ <? _).
    + by apply (start_timer_ok t0 t).
    + apply IH; try done; [|by rewrite Htm1].
      unfold the_http. by rewrite Hh1.
Qed.

Lemma timer_fire_ok (t0 t now : Z) (s s' : sipe_core_private) :
  transport_ok t0 t s → t ≤ now → now + 60 < t0 + 2 ^ 31 →
  timer_fire s now = Some s' → transport_ok t0 now s'.
Proof.
  intros Hinv Hle Hb. unfold timer_fire.
  destruct (timer s) as [[payload delay]|] eqn:Htm.
  2:{ intros [= <-]. by eapply transport_ok_later. }
  unfold sipe_http_transport_timeout. cbn [http set_timer].
  destruct (http s) as [h|] eqn:Hh; [|done]. cbn [mbind option_bind].
  assert (Hth : the_http s = h) by (unfold the_http; by rewrite Hh).
  destruct Hinv as [(Ht & Hok & Hreg & Hq) _].
  apply (timeout_loop_ok t0 t); try done.
  split; [done|]. split; [|split].
  - revert Hok. unfold pool_ok. cbn. by rewrite Hh.
  - unfold registered, the_http in *. cbn. by rewrite Hh in Hreg.
  - unfold queue_in_order, the_http in *. cbn. by rewrite Hh in Hq.
Qed.

Lemma transport_ok_fields (t0 t : Z) (s s' : sipe_core_private) :
  http s' = http s → heap s' = heap s → next_conn s' = next_conn s →
  timer s' = timer s → transport_ok t0 t s → transport_ok t0 t s'.
Proof.
  intros Hh Hm Hn Htm.
  unfold transport_ok, pool_inv, pool_ok, registered, queue_in_order,
    timer_in_step, deadline, the_http.
  by rewrite Hh, Hm, Hn, Htm.
Qed.

Lemma destroy_values_spec (vs : list conn_id) :
  ∀ (s s' : sipe_core_private),
  destroy_values s vs = Some s' →
  timer s' = timer s ∧ next_conn s' = next_conn s ∧
  ∀ x, heap s' !! x = if decide (x ∈ vs) then None else heap s !! x.
Proof.
  induction vs as [|v vs IH]; intros s s'; cbn [destroy_values].
  - intros [= <-]. split; [done|]. split; [done|]. intros x.
    rewrite decide_False; [done|]. apply not_elem_of_nil.
  - destruct (sipe_http_transport_free s v) as [s1|] eqn:Hfree; [|done].
    cbn [mbind option_bind]. intros Hd.
    destruct (IH _ _ Hd) as (Htm & Hn & Hm).
    assert (Hs1 : timer s1 = timer s ∧ next_conn s1 = next_conn s ∧
                  heap s1 = delete v (heap s)).
    { revert Hfree. unfold sipe_http_transport_free.
      destruct (heap s !! v) as [c|]; [|done]. cbn [mbind option_bind].
      destruct (http s) as [h|]; [|done]. cbn [mbind option_bind].
      intros [= <-]. by destruct (connection c). }
    destruct Hs1 as (Htm1 & Hn1 & Hm1).
    split; [congruence|]. split; [congruence|]. intros x. rewrite Hm, Hm1.
    destruct (decide (x = v)) as [->|Hne].
    + rewrite lookup_delete_eq. rewrite (decide_True (P := v ∈ v :: vs));
        [by case_decide|left].
    + rewrite lookup_delete_ne by done.
      destruct (decide (x ∈ vs)) as [Hin|Hnin].
      * rewrite decide_True; [done|by right].
      * rewrite decide_False; [done|].
        intros [->|Hin]%elem_of_cons; done.
Qed.

(** Shutdown leaves no connection behind. *)
Lemma sipe_http_free_ok (t0 t : Z) (s s' : sipe_core_private) :
  transport_ok t0 t s → sipe_http_free s = Some s' →
  transport_ok t0 t s' ∧ http s' = None ∧ heap s' = ∅ ∧
  next_conn s' = next_conn s ∧
  (http s ≠ None → timer s' = None).
Proof.
  intros Hinv. unfold sipe_http_free.
  destruct (http s) as [h|] eqn:Hh.
  2:{ intros [= <-]. split; [done|]. split; [done|]. split; [|done].
      destruct Hinv as [(_ & _ & Hreg & _) _]. apply map_empty. intros x.
      destruct (heap s !! x) as [c|] eqn:Hc; [|done].
      destruct (registered_http s x c Hreg Hc) as (? & ? & _). congruence. }
  destruct (destroy_values _ _) as [s1|] eqn:Hd; [|done].
  cbn [mbind option_bind]. intros [= <-].
  destruct (destroy_values_spec _ _ _ Hd) as (Htm & Hn & Hm).
  assert (Hempty : heap s1 = ∅).
  { apply map_empty. intros x. rewrite Hm. case_decide as Hin; [done|].
    cbn. destruct (heap s !! x) as [c|] eqn:Hc; [|done]. exfalso.
    apply Hin. destruct Hinv as [(_ & _ & Hreg & _) _].
    destruct (registered_http s x c Hreg Hc) as (h' & Hh' & Hk).
    rewrite Hh in Hh'. injection Hh' as <-.
    apply list_elem_of_fmap. exists (host_port c, x). split; [done|].
    by apply elem_of_map_to_list. }
  destruct Hinv as [((Ht1 & Ht2 & Ht3) & _) _].
  split_and!; try done.
  split.
  - split; [done|]. split; [|split].
    + split; [|done]. intros x [c Hc]. cbn in Hc. rewrite Hempty in Hc.
      by rewrite lookup_empty in Hc.
    + intros x c Hc. cbn in Hc. rewrite Hempty in Hc.
      by rewrite lookup_empty in Hc.
    + unfold queue_in_order. cbn. split_and!; [|constructor|constructor].
      intros x c Hc. rewrite Hempty in Hc. by rewrite lookup_empty in Hc.
  - unfold timer_in_step. cbn. rewrite Htm. cbn.
    split; [done|]. split; [done|]. split; [lia|constructor].
Qed.

Section RunFacts.

Variable sipmsg_parse_header : list ascii → option sipmsg.
Variable SIPMSG_BODYLEN_CHUNKED : Z.

Local Abbreviation input' :=
  (sipe_http_transport_input sipmsg_parse_header SIPMSG_BODYLEN_CHUNKED).
Local Abbreviation run' :=
  (run sipmsg_parse_header SIPMSG_BODYLEN_CHUNKED).

Lemma transport_input_ok (t0 t now : Z) (s s' : sipe_core_private)
    (conn : conn_id) (next : bool) :
  transport_ok t0 t s → t ≤ now → now + 60 < t0 + 2 ^ 31 →
  input' s conn next now = Some s' → transport_ok t0 now s'.
Proof.
  intros Hinv Hle Hb. unfold sipe_http_transport_input.
  destruct (heap s !! conn) as [c|] eqn:Hc; [|done]. cbn [mbind option_bind].
  destruct (connection c) as [tc|] eqn:Hsock; [|done].
  cbn [mbind option_bind].
  destruct (framer _ _ _) as [r rest].
  set (c1 := set_connection c _). set (s1 := set_heap s _).
  assert (Hin : conn ∈ timeouts (the_http s)).
  { destruct Hinv as [(_ & _ & _ & Hlive & _) _]. eapply Hlive; [done|].
    by rewrite Hsock. }
  assert (Hinv1 : transport_ok t0 t s1)
    by (by apply (transport_ok_update t0 t s s1 conn c c1)).
  destruct r as [| |msg|]; try by (intros [= <-]; eapply transport_ok_later).
  destruct (sipe_strcase_equal _ _).
  - set (c2 := set_connected _ _). set (s4 := set_heap _ _).
    assert (Hinv4 : transport_ok t0 t s4).
    { apply (transport_ok_update t0 t s1 s4 conn c1 c2); try done;
        first [ unfold s1; cbn; apply lookup_insert_eq | cbn; by intros [] ]. }
    destruct next; [|by (intros [= <-]; eapply transport_ok_later)].
    destruct (transport_new_ok t0 t now s4 (host c2) (port c2) Hinv4 Hle Hb)
      as (s5 & k & c5 & -> & Hinv5 & _).
    by intros [= <-].
  - destruct next; intros [= <-]; by eapply transport_ok_later.
Qed.

(** Every state of a run meets the invariants. *)
Lemma run_transport_ok (t0 t : Z) (s : sipe_core_private) :
  run' t0 t s → transport_ok t0 t s.
Proof.
  induction 1 as [Ht0|t s host_in p now s' conn _ IH Hle Hb Hnew
                 |t s conn s' _ IH Hcon
                 |t s conn header body_ s' _ IH Hsend
                 |t s conn data next now s' _ IH Hle Hb Hdata
                 |t s conn s' _ IH Herr
                 |t s now s' _ IH Hle Hb Hfire
                 |t s s' _ IH Hfree].
  - split.
    + split; [lia|]. split; [apply pool_ok_initial|]. split.
      * intros x c Hc. cbn in Hc. by rewrite lookup_empty in Hc.
      * unfold queue_in_order. cbn. split_and!; [|constructor|constructor].
        intros x c Hc. by rewrite lookup_empty in Hc.
    + unfold timer_in_step. cbn. split; [done|]. split; [done|].
      split; [lia|constructor].
  - destruct (transport_new_ok t0 t now s host_in p IH Hle Hb)
      as (s1 & k & c1 & Hnew1 & Hinv1 & _). congruence.
  - revert Hcon. unfold sipe_http_transport_connected.
    destruct (heap s !! conn) as [c|] eqn:Hc; [|done].
    cbn [mbind option_bind]. intros [= <-].
    apply (transport_ok_update t0 t s _ conn c (set_connected c true));
      try done.
    intros Hs. destruct IH as [(_ & _ & _ & Hlive & _) _]. eauto.
  - revert Hsend. unfold sipe_http_transport_send.
    destruct (heap s !! conn) as [c|]; [|done]. cbn [mbind option_bind].
    destruct (connection c) as [tc|]; [|done]. cbn [mbind option_bind].
    intros [= <-]. by apply (transport_ok_fields t0 t s).
  - revert Hdata. unfold backend_data.
    destruct (backend_append s conn data) as [sa|] eqn:Ha; [|done].
    cbn [mbind option_bind]. apply (transport_input_ok t0 t); try done.
    revert Ha. unfold backend_append.
    destruct (heap s !! conn) as [c|] eqn:Hc; [|done].
    cbn [mbind option_bind].
    destruct (connection c) as [tc|] eqn:Hsock; [|done].
    cbn [mbind option_bind]. intros [= <-].
    apply (transport_ok_update t0 t s _ conn c
             (set_connection c
                (Some (TransportConnection (handle tc) (buffer tc ++ data)))));
      try done.
    intros _. destruct IH as [(_ & _ & _ & Hlive & _) _].
    eapply Hlive; [done|]. by rewrite Hsock.
  - by apply (transport_ok_drop t0 t s s' conn).
  - by apply (timer_fire_ok t0 t now s).
  - by destruct (sipe_http_free_ok t0 t s s' IH Hfree).
Qed.

End RunFacts.

Lemma pool_inv_queue_ok (t0 t : Z) (s : sipe_core_private) (h : sipe_http) :
  pool_inv t0 t s → http s = Some h → queue_ok (deadline s) s h.
Proof.
  intros (_ & [_ Hok] & Hreg & _ & Hsort & _) Hh.
  assert (Hth : the_http s = h) by (unfold the_http; by rewrite Hh).
  unfold registered in Hreg. rewrite Hth in *. rewrite Hh in Hok.
  destruct Hok as (_ & _ & Hq & Hnd). split; [done|]. split; [|done].
  eapply Forall_impl; [exact Hq|]. intros x [c Hc]. exists c.
  split; [done|]. split; [unfold deadline; by rewrite Hc|]. by apply Hreg.
Qed.

Lemma filter_deadline (s s' : sipe_core_private) (now : Z)
    (q : list conn_id) :
  (∀ x, x ∈ q → deadline s' x = deadline s x) →
  filter (λ x, now < deadline s' x) q = filter (λ x, now < deadline s x) q.
Proof.
  induction q as [|y q IH]; intros Hd; [done|].
  rewrite !filter_cons, (Hd y) by left.
  rewrite IH; [done|]. intros x Hx. apply Hd. by right.
Qed.

(** The timeout handler, called with an allocated connection as its
    payload: the payload is dropped whatever its deadline, then the
    queue loses the connections whose deadline has passed, and the
    timer is armed for the first one left. *)
Lemma transport_timeout_spec (t0 t now : Z) (s : sipe_core_private)
    (h : sipe_http) (payload : conn_id) (c : sipe_http_connection) :
  pool_inv t0 t s → http s = Some h → heap s !! payload = Some c →
  let rest := g_queue_remove (timeouts h) payload in
  let keep := filter (λ x, now < deadline s x) rest in
  ∃ s' h' tl,
    sipe_http_transport_timeout s payload now = Some s' ∧
    http s' = Some h' ∧ timeouts h' = keep ∧
    (∀ x, x = payload ∨ (x ∈ rest ∧ deadline s x ≤ now) →
          heap s' !! x = None) ∧
    (∀ x, x ≠ payload → (x ∈ rest → now < deadline s x) →
          heap s' !! x = heap s !! x) ∧
    trace s' = trace s ++ tl ∧
    (∀ x cx, heap s !! x = Some cx → heap s' !! x = None →
             ∃ l1 l2, tl = l1 ++ drop_events x cx ++ l2) ∧
    next_timeout h' = match keep with x :: _ => deadline s x | [] => 0 end ∧
    timer s' = match keep with
               | x :: _ => Some (x, guint (deadline s x - now))
               | [] => timer s
               end.
Proof.
  intros Hinv Hh Hc rest keep.
  assert (Hth : the_http s = h) by (unfold the_http; by rewrite Hh).
  unfold sipe_http_transport_timeout. rewrite Hh. cbn [mbind option_bind].
  set (s0 := set_http s (Some (set_next_timeout h 0))).
  assert (Hinv0 : pool_inv t0 t s0).
  { destruct Hinv as (Ht & Hok & Hreg & Hq). split; [done|]. split; [|split].
    - revert Hok. unfold pool_ok. cbn. by rewrite Hh.
    - unfold registered, the_http in *. cbn. by rewrite Hh in Hreg.
    - unfold queue_in_order, the_http in *. cbn. by rewrite Hh in Hq. }
  cbn [timeout_loop].
  destruct (transport_drop_spec t0 t s0 payload c Hinv0 Hc)
    as (s1 & -> & Hh1 & Hm1 & Htm1 & _ & Htr1 & Hinv1).
  assert (Hh1' : http s1
            = Some (Http (delete (host_port c) (connections h)) rest 0))
    by exact Hh1.
  clear Hh1. rename Hh1' into Hh1.
  cbn [mbind option_bind]. rewrite Hh1. cbn [mbind option_bind timeouts].
  change (heap s0) with (heap s) in Hm1.
  change (timer s0) with (timer s) in Htm1.
  change (trace s0) with (trace s) in Htr1.
  assert (Hnd : NoDup (timeouts h)).
  { destruct Hinv as (_ & [_ Hok] & _). rewrite Hh in Hok.
    by destruct Hok as (_ & _ & _ & ?). }
  destruct (g_queue_remove_NoDup _ payload Hnd) as [Hnd' Hnin].
  fold rest in Hnd', Hnin.
  assert (Hd1 : ∀ x, x ∈ rest → deadline s1 x = deadline s x).
  { intros x Hx. unfold deadline. rewrite Hm1, lookup_delete_ne; [done|].
    by intros ->. }
  pose proof (pool_inv_queue_ok t0 t s1 _ Hinv1 Hh1) as Hqok.
  destruct rest as [|x q2] eqn:Hrest; cbn [g_queue_peek_head head].
  - eexists s1, _, (drop_events payload c). split; [done|].
    split; [done|]. split; [done|]. split_and!; try done.
    + intros x [->|[Hx _]]; [|by apply elem_of_nil in Hx].
      rewrite Hm1. apply lookup_delete_eq.
    + intros x Hne _. rewrite Hm1. by apply lookup_delete_ne.
    + intros x cx Hx Hx'. rewrite Hm1 in Hx'.
      destruct (decide (x = payload)) as [->|Hne].
      * assert (cx = c) as -> by congruence. exists [], [].
        by rewrite app_nil_r.
      * rewrite lookup_delete_ne in Hx' by done. congruence.
  - pose proof Hqok as (_ & Hall1 & Hsort1). cbn [timeouts] in Hall1, Hsort1.
    pose proof Hall1 as [(cx & Hcx & Hdx & Hkx) _]%Forall_cons.
    rewrite Hcx. cbn [mbind option_bind]. rewrite Hdx.
    assert (Hxne : x ≠ payload) by (intros ->; apply Hnin; left).
    destruct (now <? deadline s1 x) eqn:Hnow.
    + apply Z.ltb_lt in Hnow.
      assert (Hall : Forall (λ y, now < deadline s y) (x :: q2)).
      { apply StronglySorted_inv in Hsort1 as [_ Hle].
        apply Forall_forall. intros y Hy. rewrite <- Hd1 by done.
        apply elem_of_cons in Hy as [->|Hy]; [done|].
        rewrite Forall_forall in Hle. specialize (Hle _ Hy). cbv beta in Hle.
        lia. }
      assert (Hkeep : keep = x :: q2) by (by apply filter_Forall_id).
      rewrite Hkeep. unfold start_timer. rewrite Hh1.
      cbn [mbind option_bind timeouts g_queue_peek_head head]. rewrite Hcx.
      cbn [mbind option_bind]. rewrite Hdx.
      rewrite (Hd1 x) by left.
      eexists _, _,
        (drop_events payload c ++ [ScheduleSeconds x (guint (deadline s x - now))]).
      split; [done|]. split; [done|]. split; [done|]. split_and!; try done.
      * intros y [->|[Hy Hle]].
        -- cbn. rewrite Hm1. apply lookup_delete_eq.
        -- rewrite Forall_forall in Hall. specialize (Hall _ Hy).
           cbv beta in Hall. lia.
      * intros y Hne _. cbn. rewrite Hm1. by apply lookup_delete_ne.
      * cbn. rewrite Htr1. by rewrite <- app_assoc.
      * intros y cy Hy Hy'. cbn in Hy'. rewrite Hm1 in Hy'.
        destruct (decide (y = payload)) as [->|Hne].
        -- assert (cy = c) as -> by congruence.
           by exists [], [ScheduleSeconds x (guint (deadline s x - now))].
        -- rewrite lookup_delete_ne in Hy' by done. congruence.
    + apply Z.ltb_ge in Hnow.
      assert (Hkeep : keep = filter (λ y, now < deadline s1 y) q2).
      { unfold keep. rewrite filter_cons_False by (rewrite <- Hd1 by left; lia).
        symmetry. apply filter_deadline. intros y Hy. apply Hd1. by right. }
      assert (Hfuel : (length q2 < length (timeouts h))%nat).
      { assert (Hl : (length (x :: q2) ≤ length (timeouts h))%nat).
        { apply submseteq_length, NoDup_submseteq; [done|].
          intros y Hy. rewrite <- Hrest in Hy.
          by eapply g_queue_remove_subseteq. }
        cbn in Hl. lia. }
      destruct (timeout_loop_spec (deadline s1) now q2 (length (timeouts h))
                  s1 _ x Hh1 eq_refl Hqok Hfuel)
        as (s' & h' & tl & -> & Hh' & Hq' & Hgone & Hkept & Htr & Hev
            & _ & _ & Hnt & Htimer).
      cbv zeta in *. rewrite <- Hkeep in *.
      assert (Hkd : ∀ y, y ∈ keep → y ∈ q2 ∧ now < deadline s y).
      { intros y Hy. rewrite Hkeep in Hy.
        apply list_elem_of_filter in Hy as [Hlt Hy]. split; [done|].
        rewrite <- Hd1; [done|by right]. }
      exists s', h', (drop_events payload c ++ tl). split; [done|].
      split; [done|]. split; [done|]. split_and!.
      * intros y [->|[Hy Hle]].
        -- rewrite Hkept, Hm1; [apply lookup_delete_eq|]. left. done.
        -- apply Hgone; [done|]. intros Hk. apply Hkd in Hk. lia.
      * intros y Hne Hy. destruct (decide (y ∈ x :: q2)) as [Hin|Hout].
        -- rewrite Hkept, Hm1; [by apply lookup_delete_ne|]. right.
           rewrite Hkeep. apply list_elem_of_filter. split.
           ++ rewrite Hd1 by done. auto.
           ++ apply elem_of_cons in Hin as [->|Hin]; [|done].
              specialize (Hy ltac:(left)). rewrite <- Hd1 in Hy by left. lia.
        -- rewrite Hkept, Hm1; [by apply lookup_delete_ne|]. by left.
      * rewrite Htr, Htr1. by rewrite <- app_assoc.
      * intros y cy Hy Hy'. destruct (decide (y = payload)) as [->|Hne].
        -- assert (cy = c) as -> by congruence. by exists [], tl.
        -- assert (Hy1 : heap s1 !! y = Some cy)
             by (by rewrite Hm1, lookup_delete_ne).
           destruct (decide (y ∈ x :: q2)) as [Hin|Hout].
           ++ destruct (Hev y cy Hin) as (_ & l1 & l2 & Hl); [|done|].
              { intros Hk. rewrite Hkept in Hy' by (by right). congruence. }
              exists (drop_events payload c ++ l1), l2.
              rewrite Hl. by rewrite <- !app_assoc.
           ++ rewrite Hkept in Hy' by (by left). congruence.
      * rewrite Hnt. destruct keep as [|y k] eqn:Hk; [done|].
        apply Hd1. destruct (Hkd y ltac:(left)) as [Hy _]. by right.
      * rewrite Htimer, Htm1. destruct keep as [|y k] eqn:Hk; [done|].
        rewrite Hd1; [done|]. destruct (Hkd y ltac:(left)) as [Hy _].
        by right.
Qed.

(** What a request for a connection does to the timer: a timer that is
    scheduled is left alone, and with no timer and an empty queue the
    timer is set for the connection, 60 seconds ahead, unless the
    connection has a socket already. *)
Lemma transport_new_timer (s s' : sipe_core_private) (host_in : string)
    (p : N) (now : Z) (conn : conn_id) :
  sipe_http_transport_new s host_in p now = Some (s', conn) →
  (next_timeout (the_http s) ≠ 0 → timer s' = timer s) ∧
  (next_timeout (the_http s) = 0 → timeouts (the_http s) = [] →
   (∀ c, heap s !! conn = Some c → connection c = None) →
   timer s' = Some (conn, 60)).
Proof.
  unfold sipe_http_transport_new. cbv zeta.
  set (s0 := sipe_http_init s).
  assert (Hs0 : http s0 = Some (the_http s) ∧ heap s0 = heap s ∧
                timer s0 = timer s).
  { unfold s0, sipe_http_init, the_http.
    destruct (http s) eqn:E; [by rewrite E|done]. }
  destruct Hs0 as (Hh0 & Hm0 & Htm0). clearbody s0.
  set (h := the_http s) in *.
  assert (Hest : ∀ s1 m1 q1 c1,
            http s1 = Some (Http m1 q1 (next_timeout h)) →
            timer s1 = timer s → heap s1 !! conn = Some c1 →
            connection c1 = None →
            transport_establish s1 conn (g_ascii_strdown host_in) p now
            = Some s' →
            (next_timeout h ≠ 0 → timer s' = timer s) ∧
            (next_timeout h = 0 → q1 = [] → timer s' = Some (conn, 60))).
  { intros s1 m1 q1 c1 Hh1 Htm1 Hc1 Hsock. unfold transport_establish.
    rewrite Hc1. cbn [mbind option_bind]. rewrite Hsock, Hh1.
    cbn [mbind option_bind timeouts next_timeout]. cbv zeta.
    destruct (g_queue_insert_sorted _ q1 conn) as [q'|] eqn:Hins; [|done].
    cbn [mbind option_bind]. destruct (next_timeout h =? 0) eqn:Hnt.
    - apply Z.eqb_eq in Hnt. intros Hst. split; [done|]. intros _ ->.
      cbn in Hins. injection Hins as <-. revert Hst.
      unfold start_timer. cbn. rewrite lookup_insert_eq. cbn.
      intros [= <-]. cbn. unfold SIPE_HTTP_DEFAULT_TIMEOUT.
      by replace (now + 60 - now) with 60 by lia.
    - apply Z.eqb_neq in Hnt. intros [= <-]. split; [done|]. done. }
  unfold transport_lookup. rewrite Hh0. cbn [mbind option_bind].
  destruct (connections h !! _) as [k|] eqn:Hkey.
  - rewrite Hm0. destruct (heap s !! k) as [c|] eqn:Hc; [|done].
    cbn [mbind option_bind].
    destruct (connection c) as [tc|] eqn:Hsock; cbn [mbind option_bind].
    + unfold transport_establish. rewrite Hm0, Hc. cbn [mbind option_bind].
      rewrite Hsock. cbn [mbind option_bind]. intros [= <- <-].
      split; [done|]. intros _ _ Hno. specialize (Hno _ Hc). congruence.
    + destruct (transport_establish _ _ _ _ _) as [s2|] eqn:He; [|done].
      cbn [mbind option_bind]. intros [= <- <-].
      eapply Hest in He;
        [|first [ reflexivity | exact Htm0 | by cbn; rewrite Hm0
                | exact Hsock ]..].
      destruct He as [H1 H2].
      split; [done|]. intros Hnt Hq _. apply H2; [done|]. by rewrite Hq.
  - cbv zeta. cbn [mbind option_bind].
    destruct (transport_establish _ _ _ _ _) as [s2|] eqn:He; [|done].
    cbn [mbind option_bind]. intros [= <- <-].
    eapply Hest in He;
      [|first [ reflexivity | exact Htm0 | cbn; apply lookup_insert_eq ]..].
    destruct He as [H1 H2].
    split; [done|]. intros Hnt Hq _. by apply H2.
Qed.

(** ** More about the framer *)

Lemma skip_crlf_lead (lead buffer : list ascii) :
  Forall (λ c, c = CR ∨ c = LF) lead →
  skip_crlf (lead ++ buffer) = skip_crlf buffer.
Proof.
  induction lead as [|c lead IH]; [done|].
  intros [Hc Hl]%Forall_cons. destruct Hc as [-> | ->]; by apply IH.
Qed.

(** Where the chunk loop ends with the body, it has moved on by the
    size line, the line ends and the closing line end. *)
Lemma chunk_loop_done_start (fuel : nat) :
  ∀ (buffer : list ascii) (start : nat) (len : Z) (chunks : list chunk)
    (len' : Z) (data : list ascii) (next : nat),
  chunk_loop fuel buffer start len chunks = ChunkDone len' data next →
  (start + 4 ≤ next)%nat.
Proof.
  induction fuel as [|fuel IH]; intros buffer start len chunks len' data next;
    [done|].
  rewrite chunk_loop_unfold.
  destruct (_ =? 0)%nat; [done|].
  destruct (g_ascii_strtoll _) as [v off]. cbv zeta.
  destruct (_ && _); [done|].
  destruct (strstr _ _) as [k|]; [|done].
  destruct (_ <? _); [done|].
  pose proof (guint_range v) as Hv.
  destruct (guint v =? 0).
  - destruct (Z.of_nat (length _) =? _); [|done].
    intros Heq. inversion Heq. lia.
  - destruct (Z.of_nat (length buffer) <? _); [done|].
    intros Hd. apply IH in Hd. lia.
Qed.

Section FramerExtras.

Variable sipmsg_parse_header : list ascii → option sipmsg.
Variable SIPMSG_BODYLEN_CHUNKED : Z.

Local Abbreviation framer := (framer sipmsg_parse_header SIPMSG_BODYLEN_CHUNKED).

(** X1: line ends in front of a response are skipped.  A buffer led by
    any run of CR and LF characters is framed as the buffer without
    them, with the same result and the same bytes left; a buffer of
    nothing but CR and LF, the empty one among them, is [Incomplete]
    and left empty. *)
Theorem framer_leading_line_ends (lead buffer : list ascii) :
  Forall (λ c, c = CR ∨ c = LF) lead →
  framer (lead ++ buffer) = framer buffer ∧
  framer lead = (Incomplete, []).
Proof.
  intros Hlead. split.
  - rewrite <- (framer_skip_crlf _ _ (lead ++ buffer)), skip_crlf_lead by done.
    apply framer_skip_crlf.
  - assert (Hs : skip_crlf lead = []).
    { rewrite <- (app_nil_r lead). by rewrite skip_crlf_lead. }
    rewrite framer_no_terminator; [by rewrite Hs|]. by rewrite Hs.
Qed.

(** X2: the header parser decides between [Malformed] and the rest.
    Without the blank line behind the headers the result is
    [Incomplete] whatever the parser would say; the result is
    [Malformed] exactly when the blank line is there and the parser
    rejects the header block, which is the buffer up to and with the
    line end in front of the blank line. *)
Theorem framer_malformed_iff (buffer : list ascii) :
  (strstr (skip_crlf buffer) CRLFCRLF = None →
   framer buffer = (Incomplete, skip_crlf buffer)) ∧
  (fst (framer buffer) = Malformed ↔
   ∃ pos, strstr (skip_crlf buffer) CRLFCRLF = Some pos ∧
          sipmsg_parse_header (take (pos + 2) (skip_crlf buffer)) = None).
Proof.
  split; [apply framer_no_terminator|].
  unfold framer, sipe_utils_shrink_buffer. rewrite skip_crlf_drop.
  destruct (strstr (skip_crlf buffer) CRLFCRLF) as [pos|] eqn:Hpos.
  2:{ split; [done|]. by intros (? & ? & _). }
  rewrite header_mark_cstr by done.
  destruct (sipmsg_parse_header _) as [msg|] eqn:Hparse.
  - split; [|intros (p & [= <-] & Hp); congruence].
    destruct (bodylen msg =? SIPMSG_BODYLEN_CHUNKED).
    + by destruct (chunk_loop _ _ _ _ _).
    + destruct (_ <=? _); [by destruct (_ <? _)|done].
  - split; [by exists pos|done].
Qed.

(** X3: the framer takes bytes from the front of the buffer and
    nothing else.  Unless it ends in a fault, what it leaves is a
    suffix of what it was given; with [Incomplete] or [Malformed] only
    leading line ends are gone, and with [Complete] at least the four
    bytes of the blank line are consumed, so a buffer is used up after
    finitely many messages. *)
Theorem framer_leftover (buffer rest : list ascii) (r : frame_result) :
  framer buffer = (r, rest) → r ≠ Fault →
  rest `suffix_of` buffer ∧
  (r = Incomplete ∨ r = Malformed → rest = skip_crlf buffer) ∧
  (∀ msg, r = Complete msg → (length rest + 4 ≤ length buffer)%nat).
Proof.
  intros Hf Hr.
  assert (Hsk : skip_crlf buffer `suffix_of` buffer).
  { rewrite <- skip_crlf_drop. apply suffix_drop. }
  pose proof (skip_crlf_length buffer) as Hskl.
  split; [|split].
  - revert Hf. unfold framer, sipe_utils_shrink_buffer.
    rewrite skip_crlf_drop.
    destruct (strstr (skip_crlf buffer) CRLFCRLF) as [pos|] eqn:Hpos;
      [|by intros [= _ <-]].
    destruct (sipmsg_parse_header _) as [msg|];
      [|rewrite header_mark_restore by done; by intros [= _ <-]].
    destruct (bodylen msg =? SIPMSG_BODYLEN_CHUNKED).
    + destruct (chunk_loop _ _ _ _ _) as [| |len data start] eqn:Hloop.
      * rewrite header_mark_restore by done. by intros [= _ <-].
      * by intros [= <- _].
      * apply chunk_loop_done_start in Hloop. intros [= _ <-].
        rewrite header_mark_drop by (done || lia).
        etrans; [apply suffix_drop|done].
    + destruct (_ <=? _).
      * destruct (_ <? _); [by intros [= <- _]|]. intros [= _ <-].
        rewrite header_mark_drop by (done || lia).
        etrans; [apply suffix_drop|done].
      * rewrite header_mark_restore by done. by intros [= _ <-].
  - intros Hr'. by eapply framer_restores.
  - intros msg' ->. revert Hf.
    unfold framer, sipe_utils_shrink_buffer.
    rewrite skip_crlf_drop.
    destruct (strstr (skip_crlf buffer) CRLFCRLF) as [pos|] eqn:Hpos; [|done].
    destruct (header_found _ _ Hpos) as (_ & _ & _ & Hl).
    destruct (sipmsg_parse_header _) as [msg|]; [|done].
    destruct (bodylen msg =? SIPMSG_BODYLEN_CHUNKED).
    + destruct (chunk_loop _ _ _ _ _) as [| |len data start] eqn:Hloop;
        [done..|].
      apply chunk_loop_done_start in Hloop. intros [= _ <-].
      rewrite length_drop, header_mark_length. lia.
    + destruct (_ <=? _); [|done].
      destruct (_ <? _); [done|]. intros [= _ <-].
      rewrite length_drop, header_mark_length. lia.
Qed.

(** X4: a chunk that is not there yet.  Behind a header block that
    announces a chunked body, the framer gives [Incomplete] and keeps
    the buffer when nothing follows the blank line, when the chunk-size
    line has no hex digit, when it is not closed by a line end, or when
    fewer bytes than the chunk and its line end have arrived; this as
    long as the chunk size plus 2 fits [guint]. *)
Theorem framer_chunk_not_there (buffer : list ascii) (pos : nat)
    (msg : sipmsg) (v : Z) (off : nat) :
  let b := skip_crlf buffer in
  let after := drop (pos + 4) b in
  strstr b CRLFCRLF = Some pos →
  sipmsg_parse_header (take (pos + 2) b) = Some msg →
  bodylen msg = SIPMSG_BODYLEN_CHUNKED →
  g_ascii_strtoll (cstr after) = (v, off) →
  strlen after = 0%nat ∨
  (guint v = 0 ∧ off = 0%nat) ∨
  strstr (drop off after) CRLF = None ∨
  (∃ k, strstr (drop off after) CRLF = Some k ∧
        Z.of_nat (length buffer) < 2 ^ 32 ∧ guint v + 2 < 2 ^ 32 ∧
        Z.of_nat (length after) - Z.of_nat (off + k + 2) < guint v + 2) →
  framer buffer = (Incomplete, b).
Proof.
  intros b after Hpos Hparse Hch Hv Hcase.
  rewrite (framer_chunked_branch _ _ buffer pos msg Hpos Hparse Hch).
  fold b. set (marked := <[(pos + 2)%nat := NUL]> b).
  destruct (header_found _ _ Hpos) as (_ & _ & _ & Hl). fold b in Hl.
  pose proof (skip_crlf_length buffer) as Hskl. fold b in Hskl.
  assert (Hdrop : ∀ k, drop (pos + 4 + k) marked = drop k after).
  { intros k. unfold marked, after.
    rewrite header_mark_drop by (done || lia). by rewrite drop_drop. }
  assert (Hd0 : drop (pos + 4) marked = after).
  { rewrite <- (Nat.add_0_r (pos + 4)), Hdrop. apply drop_0. }
  assert (Hlen : length marked = length b) by apply length_insert.
  assert (Hla : length after = (length b - (pos + 4))%nat)
    by apply length_drop.
  destruct Hcase as [H0|Hcase].
  { rewrite chunk_loop_unfold, Hd0, H0. done. }
  rewrite (chunk_loop_gives_up _ marked (pos + 4) 0 [] v off); [done| |].
  { by rewrite Hd0. }
  rewrite Hdrop.
  destruct Hcase as [?|[?|(k & Hk & Hb & Hv2 & Hshort)]];
    [by left|right; by left|].
  right. right. exists k. split; [done|]. rewrite Hlen.
  split; [lia|]. split; [done|]. lia.
Qed.

End FramerExtras.

Section SendAndFrame.

Variable sipmsg_parse_header : list ascii → option sipmsg.
Variable SIPMSG_BODYLEN_CHUNKED : Z.

Local Abbreviation framer := (framer sipmsg_parse_header SIPMSG_BODYLEN_CHUNKED).



End SendAndFrame.

(** X6: how a chunk-size line is read: [g_ascii_strtoll] with base 16
    takes a run of hexadecimal digits of either case, up to the first
    character that is none, gives their value and stops behind them;
    in front of a character that is no digit, no white space and no
    sign it converts nothing and stops where it began. *)
Theorem strtoll_hex_digits (d rest : list ascii) :
  (d ≠ [] → Forall (λ c, c ∈ hexdigits) d → stops rest →
   hexval d ≤ G_MAXINT64 →
   g_ascii_strtoll (d ++ rest) = (hexval d, length d)) ∧
  (∀ c, digit16 c = None → ISSPACE c = false →
        Ascii.eqb c (chr 45) = false → Ascii.eqb c (chr 43) = false →
        g_ascii_strtoll (c :: rest) = (0, 0%nat)).
Proof.
  split.
  - intros Hne Hd Hst Hmax. by apply strtoll_hex.
  - intros c Hdig Hsp Hm Hp.
    unfold g_ascii_strtoll, g_parse_long_long.
    cbn [count_space]. rewrite Hsp. cbn [drop]. rewrite Hm, Hp.
    cbn [orb drop].
    destruct rest as [|x rest'].
    + cbn [drop parse_digits]. by rewrite Hdig.
    + assert (Ascii.eqb c (chr 48) = false) as ->.
      { apply ascii_eqb_false. intros ->. by vm_compute in Hdig. }
      cbn [andb drop parse_digits]. by rewrite Hdig.
Qed.

Lemma framer_leading_line_ends_witness :
  framer (const_parser [] 0) (-1)
    (CRLF ++ [LF] ++ bytes "HTTP/1.1 200 OK" ++ CRLFCRLF)
  = (Complete (Sipmsg 200 [] 0 (Some [])), []) ∧
  framer (const_parser [] 0) (-1) (CRLF ++ [LF]) = (Incomplete, []).
Proof.
  destruct (framer_leading_line_ends (const_parser [] 0) (-1)
              (CRLF ++ [LF]) (bytes "HTTP/1.1 200 OK" ++ CRLFCRLF))
    as [H1 H2].
  - repeat first [ apply Forall_nil_2
                 | apply Forall_cons_2;
                   [first [left; reflexivity | right; reflexivity]|] ].
  - split; [|exact H2]. rewrite <- app_assoc in H1. rewrite H1. reflexivity.
Defined.

Lemma framer_malformed_iff_witness :
  fst (framer (λ _, None) (-1) (bytes "garbage" ++ CRLFCRLF)) = Malformed.
Proof.
  apply (framer_malformed_iff (λ _, None) (-1) (bytes "garbage" ++ CRLFCRLF)).
  exists 7%nat. split; reflexivity.
Defined.

Lemma framer_leftover_witness :
  bytes "HTTP" `suffix_of`
    (bytes "HTTP/1.1 200 OK" ++ CRLFCRLF ++ bytes "helloHTTP").
Proof.
  apply (framer_leftover (const_parser [] 5) (-1)
           (bytes "HTTP/1.1 200 OK" ++ CRLFCRLF ++ bytes "helloHTTP")
           (bytes "HTTP") (Complete (Sipmsg 200 [] 5 (Some (bytes "hello"))))).
  - reflexivity.
  - discriminate.
Defined.

Lemma framer_chunk_not_there_witness :
  framer (const_parser [] (-1)) (-1)
    (bytes "HTTP/1.1 200 OK" ++ CRLFCRLF ++ bytes "5" ++ CRLF ++ bytes "hel")
  = (Incomplete,
     bytes "HTTP/1.1 200 OK" ++ CRLFCRLF ++ bytes "5" ++ CRLF ++ bytes "hel").
Proof.
  apply (framer_chunk_not_there (const_parser [] (-1)) (-1)
           (bytes "HTTP/1.1 200 OK" ++ CRLFCRLF ++ bytes "5" ++ CRLF
              ++ bytes "hel") 15 (Sipmsg 200 [] (-1) None) 5 1%nat).
  - reflexivity.
  - reflexivity.
  - reflexivity.
  - reflexivity.
  - right. right. right. exists 0%nat.
    split; [reflexivity|]. split; [by vm_compute|]. split; by vm_compute.
Defined.


Lemma strtoll_hex_digits_witness :
  g_ascii_strtoll (bytes "1aF;ext" ++ CRLF) = (431, 3%nat) ∧
  g_ascii_strtoll (bytes ";ext") = (0, 0%nat).
Proof.
  destruct (strtoll_hex_digits (bytes "1aF") (bytes ";ext" ++ CRLF)) as [H1 _].
  destruct (strtoll_hex_digits [] (bytes "ext")) as [_ H2].
  split.
  - apply H1; [discriminate| |split; reflexivity|by vm_compute].
    repeat constructor; apply (bool_decide_unpack _); by vm_compute.
  - apply (H2 (chr 59)); reflexivity.
Defined.

Lemma cstr_idemp (l : list ascii) : cstr (cstr l) = cstr l.
Proof.
  induction l as [|c l IH]; [done|]. cbn [cstr].
  destruct (Ascii.eqb c NUL) eqn:E; [done|]. cbn [cstr]. by rewrite E, IH.
Qed.

(** [strstr] reads its first argument as a C string. *)
Lemma strstr_cstr (hay needle : list ascii) :
  strstr (cstr hay) needle = strstr hay needle.
Proof.
  induction hay as [|c hay IH]; [done|].
  rewrite (strstr_unfold (c :: hay)). cbn [cstr].
  destruct (Ascii.eqb c NUL) eqn:E.
  - rewrite strstr_unfold. cbn [cstr]. by destruct (starts_with needle []).
  - rewrite strstr_unfold. cbn [cstr]. rewrite E, cstr_idemp.
    destruct (starts_with _ _); [done|]. by rewrite IH.
Qed.

Lemma cstr_app_NUL_in (l more : list ascii) :
  NUL ∈ l → cstr (l ++ more) = cstr l.
Proof.
  induction l as [|c l IH]; [by intros ?%elem_of_nil|].
  intros Hin. cbn [app cstr]. destruct (Ascii.eqb c NUL) eqn:E; [done|].
  f_equal. apply IH. apply elem_of_cons in Hin as [Heq|Hin]; [|done].
  rewrite <- Heq in E. by vm_compute in E.
Qed.

Section NulInHeaders.

Variable sipmsg_parse_header : list ascii → option sipmsg.
Variable SIPMSG_BODYLEN_CHUNKED : Z.

Local Abbreviation framer := (framer sipmsg_parse_header SIPMSG_BODYLEN_CHUNKED).

(** X21: a NUL byte in front of the blank line stalls the framer.  The
    blank line is looked for with [strstr], which stops at the first
    NUL of the buffer: when the buffer holds a NUL and no blank line in
    front of it, the result is [Incomplete] now and for whatever bytes
    arrive later, and nothing of the buffer is consumed. *)
Theorem framer_nul_stalls (buffer : list ascii) :
  NUL ∈ buffer →
  strstr (skip_crlf buffer) CRLFCRLF = None →
  ∀ more, framer (buffer ++ more) = (Incomplete, skip_crlf buffer ++ more).
Proof.
  intros Hnul Hnone more.
  assert (Hin : NUL ∈ skip_crlf buffer).
  { clear Hnone. induction buffer as [|c buffer IH];
      [by apply elem_of_nil in Hnul|].
    cbn [skip_crlf]. destruct (Ascii.eqb c CR || Ascii.eqb c LF) eqn:E;
      [|done].
    apply IH. apply elem_of_cons in Hnul as [Heq|Hnul]; [|done].
    rewrite <- Heq in E. by vm_compute in E. }
  assert (Hsk : skip_crlf (buffer ++ more) = skip_crlf buffer ++ more).
  { clear Hnul Hnone. induction buffer as [|c buffer IH];
      [by apply elem_of_nil in Hin|].
    cbn [skip_crlf app] in *.
    destruct (Ascii.eqb c CR || Ascii.eqb c LF); [by apply IH|done]. }
  rewrite framer_no_terminator; [by rewrite Hsk|].
  rewrite Hsk, <- strstr_cstr, cstr_app_NUL_in by done.
  by rewrite strstr_cstr.
Qed.

End NulInHeaders.

Lemma framer_nul_stalls_witness :
  framer (const_parser [] 0) (-1)
    ((bytes "HTTP/1.1 200 OK" ++ [NUL]) ++ CRLFCRLF)
  = (Incomplete, (bytes "HTTP/1.1 200 OK" ++ [NUL]) ++ CRLFCRLF).
Proof.
  apply (framer_nul_stalls (const_parser [] 0) (-1)
           (bytes "HTTP/1.1 200 OK" ++ [NUL])).
  - apply (bool_decide_unpack _). by vm_compute.
  - reflexivity.
Defined.

(** The chunk loop does not leave the buffer as long as no size line
    reads as a number that wraps around with 2 added. *)
Lemma chunk_loop_no_fault (buffer : list ascii) (lo : nat) :
  Z.of_nat (length buffer) < 2 ^ 31 →
  (∀ k, (lo ≤ k)%nat →
        guint (g_ascii_strtoll (cstr (drop k buffer))).1 + 2 < 2 ^ 32) →
  ∀ (fuel start : nat) (chunks : list chunk),
  (lo ≤ start ≤ length buffer)%nat → (length buffer - start < fuel)%nat →
  Z.of_nat (length (concat (chunk_data buffer <$> chunks))) ≤ Z.of_nat start →
  chunk_loop fuel buffer start
    (Z.of_nat (length (concat (chunk_data buffer <$> chunks)))) chunks
  ≠ ChunkFault.
Proof.
  intros Hlen Hwrap. induction fuel as [|fuel IH];
    intros start chunks Hstart Hfuel Htotal; [lia|].
  rewrite chunk_loop_unfold.
  destruct (_ =? 0)%nat; [done|].
  specialize (Hwrap start ltac:(lia)).
  destruct (g_ascii_strtoll _) as [v off]. cbn [fst] in Hwrap. cbv zeta.
  destruct (_ && _); [done|].
  destruct (strstr _ _) as [k|] eqn:Hs; [|done].
  pose proof (guint_range v) as Hv.
  assert (Hk : (start + off + k + 2 ≤ length buffer)%nat).
  { apply strstr_Some in Hs as (pre & tl & Hd & <- & _).
    apply (f_equal length) in Hd. rewrite length_drop, !length_app in Hd.
    change (length CRLF) with 2%nat in Hd. lia. }
  rewrite (guint_small (_ - _)), (guint_small (_ + 2)) by lia.
  destruct (_ <? _) eqn:Hrem; [done|]. apply Z.ltb_ge in Hrem.
  set (total := Z.of_nat (length (concat (chunk_data buffer <$> chunks)))) in *.
  rewrite (gint_small (total + guint v)) by lia.
  destruct (guint v =? 0) eqn:H0.
  - apply Z.eqb_eq in H0. rewrite H0, Z.add_0_r, Z.eqb_refl. done.
  - replace (Z.of_nat (length buffer) <? _) with false
      by (symmetry; apply Z.ltb_ge; lia).
    replace (total + guint v)
      with (Z.of_nat (length (concat (chunk_data buffer <$>
              (chunks ++ [Chunk (guint v) (start + off + k + 2)]))))).
    + apply IH; [lia|lia|].
      rewrite fmap_app, concat_app, length_app. cbn [fmap list_fmap concat].
      rewrite app_nil_r. unfold chunk_data at 2. cbn [chunk_length chunk_start].
      rewrite length_take, length_drop. fold total. lia.
    + rewrite fmap_app, concat_app, length_app. cbn [fmap list_fmap concat].
      rewrite app_nil_r. unfold chunk_data at 2. cbn [chunk_length chunk_start].
      rewrite length_take, length_drop. fold total. lia.
Qed.

Section NoFault.

Variable sipmsg_parse_header : list ascii → option sipmsg.
Variable SIPMSG_BODYLEN_CHUNKED : Z.

Local Abbreviation framer := (framer sipmsg_parse_header SIPMSG_BODYLEN_CHUNKED).

(** X23: the size wrap is the only fault of the chunked path.  For a
    buffer shorter than [2 ^ 31] bytes in which no place behind the
    header block reads as a chunk size that wraps around with 2 added,
    the framer on a chunked body stays inside the buffer: the result is
    [Incomplete] or [Complete]. *)
Theorem framer_chunked_no_fault (buffer : list ascii) (pos : nat)
    (msg : sipmsg) :
  let b := skip_crlf buffer in
  strstr b CRLFCRLF = Some pos →
  sipmsg_parse_header (take (pos + 2) b) = Some msg →
  bodylen msg = SIPMSG_BODYLEN_CHUNKED →
  Z.of_nat (length buffer) < 2 ^ 31 →
  (∀ k, guint (g_ascii_strtoll (cstr (drop (pos + 4 + k) b))).1 + 2 < 2 ^ 32) →
  fst (framer buffer) = Incomplete ∨ ∃ m, fst (framer buffer) = Complete m.
Proof.
  intros b Hpos Hparse Hch Hlen Hwrap.
  rewrite (framer_chunked_branch _ _ buffer pos msg Hpos Hparse Hch).
  fold b. set (marked := <[(pos + 2)%nat := NUL]> b).
  destruct (header_found _ _ Hpos) as (_ & _ & _ & Hl). fold b in Hl.
  pose proof (skip_crlf_length buffer) as Hskl. fold b in Hskl.
  assert (Hml : length marked = length b) by apply length_insert.
  pose proof (chunk_loop_no_fault marked (pos + 4)) as Hnf.
  specialize (Hnf ltac:(lia)).
  assert (Hw : ∀ k, (pos + 4 ≤ k)%nat →
            guint (g_ascii_strtoll (cstr (drop k marked))).1 + 2 < 2 ^ 32).
  { intros k Hk. unfold marked. rewrite header_mark_drop by (done || lia).
    replace k with (pos + 4 + (k - (pos + 4)))%nat by lia. apply Hwrap. }
  specialize (Hnf Hw (S (length b)) (pos + 4)%nat []
                ltac:(lia) ltac:(lia) ltac:(cbn; lia)).
  cbn [fmap list_fmap concat length] in Hnf.
  change (Z.of_nat 0) with 0 in Hnf.
  destruct (chunk_loop _ _ _ _ _) as [| |len data start]; [by left|done|].
  right. by eexists.
Qed.

End NoFault.

Lemma framer_chunked_no_fault_witness :
  fst (framer (const_parser [] (-1)) (-1)
         (bytes "HTTP/1.1 200 OK" ++ CRLFCRLF ++ bytes "2" ++ CRLF
            ++ bytes "hi" ++ CRLF ++ bytes "0" ++ CRLFCRLF))
  = Complete (Sipmsg 200 [] 2 (Some (bytes "hi"))).
Proof.
  destruct (framer_chunked_no_fault (const_parser [] (-1)) (-1)
              (bytes "HTTP/1.1 200 OK" ++ CRLFCRLF ++ bytes "2" ++ CRLF
                 ++ bytes "hi" ++ CRLF ++ bytes "0" ++ CRLFCRLF)
              15 (Sipmsg 200 [] (-1) None)) as [H|[m H]].
  - reflexivity.
  - reflexivity.
  - reflexivity.
  - by vm_compute.
  - intros k. do 13 (destruct k as [|k]; [by vm_compute|]).
    rewrite drop_ge by (cbn; lia). by vm_compute.
  - by vm_compute in H.
  - reflexivity.
Defined.

(** ** More about the pool *)

Lemma has_colon_app (a b : string) : has_colon (a +:+ String (chr 58) b) = true.
Proof.
  induction a as [|c a IH]; [done|].
  change (has_colon (String c a +:+ String (chr 58) b))
    with (Ascii.eqb c (chr 58) || has_colon (a +:+ String (chr 58) b)).
  rewrite IH. apply orb_true_r.
Qed.

Lemma pretty_N_go_colon (x : N) (s : string) :
  has_colon s = false → has_colon (pretty_N_go x s) = false.
Proof.
  revert s. induction (N.lt_wf_0 x) as [x _ IH]; intros s Hs.
  assert (x = 0 ∨ 0 < x)%N as [->|?] by lia.
  - by rewrite pretty_N_go_0.
  - rewrite pretty_N_go_step by done. apply IH.
    { by apply N.div_lt. }
    cbn [has_colon]. rewrite Hs. unfold pretty_N_char.
    by repeat case_match.
Qed.

Lemma pretty_N_colon (p : N) : has_colon (pretty p) = false.
Proof.
  unfold pretty, pretty_N. case_decide; [done|]. by apply pretty_N_go_colon.
Qed.

Lemma app_colon_inj (h1 h2 d1 d2 : string) :
  has_colon d1 = false → has_colon d2 = false →
  h1 +:+ String (chr 58) d1 = h2 +:+ String (chr 58) d2 →
  h1 = h2 ∧ d1 = d2.
Proof.
  intros Hd1 Hd2. revert h2.
  induction h1 as [|c h1 IH]; intros [|c' h2] Heq.
  - by injection Heq as ->.
  - injection Heq as _ Heq. rewrite Heq, has_colon_app in Hd1. done.
  - injection Heq as _ Heq. rewrite <- Heq, has_colon_app in Hd2. done.
  - injection Heq as -> Heq. by destruct (IH _ Heq) as [-> ->].
Qed.

(** The key tells host and port apart: the digits of the port hold no
    colon, so the last colon of the key is the one in front of them. *)
Lemma make_host_port_inj (h1 h2 : string) (p1 p2 : N) :
  make_host_port h1 p1 = make_host_port h2 p2 → h1 = h2 ∧ p1 = p2.
Proof.
  unfold make_host_port. intros Heq.
  destruct (app_colon_inj h1 h2 (pretty p1) (pretty p2)) as [-> Hp];
    [apply pretty_N_colon..|exact Heq|].
  split; [done|]. by apply (inj pretty).
Qed.

Lemma g_queue_remove_cons_perm (q : list conn_id) (x : conn_id) :
  x ∈ q → x :: g_queue_remove q x ≡ₚ q.
Proof.
  induction q as [|y q IH]; cbn [g_queue_remove].
  - intros Hx. by apply elem_of_nil in Hx.
  - intros Hx. case_decide as Hy; [by subst|].
    apply elem_of_cons in Hx as [->|Hx]; [done|].
    rewrite Permutation_swap. by rewrite IH.
Qed.

Lemma destroy_values_trace (vs : list conn_id) :
  ∀ (s s' : sipe_core_private),
  NoDup vs → destroy_values s vs = Some s' →
  ∃ tl, trace s' = trace s ++ tl ∧
        ∀ x c, x ∈ vs → heap s !! x = Some c →
               ∃ l1 l2, tl = l1 ++ drop_events x c ++ l2.
Proof.
  induction vs as [|v vs IH]; intros s s' Hnd; cbn [destroy_values].
  - intros [= <-]. exists []. split; [by rewrite app_nil_r|].
    intros x c Hx. by apply elem_of_nil in Hx.
  - apply NoDup_cons in Hnd as [Hv Hnd].
    destruct (sipe_http_transport_free s v) as [s1|] eqn:Hfree; [|done].
    cbn [mbind option_bind]. intros Hd.
    destruct (IH _ _ Hnd Hd) as (tl & Htr & Hev).
    assert (Hs1 : ∃ cv, heap s !! v = Some cv ∧
                        trace s1 = trace s ++ drop_events v cv ∧
                        heap s1 = delete v (heap s)).
    { revert Hfree. unfold sipe_http_transport_free.
      destruct (heap s !! v) as [c|]; [|done]. cbn [mbind option_bind].
      destruct (http s) as [h|]; [|done]. cbn [mbind option_bind].
      intros [= <-]. exists c. split; [done|]. unfold drop_events.
      destruct (connection c); cbn; [|done]. by rewrite <- app_assoc. }
    destruct Hs1 as (cv & Hcv & Htr1 & Hm1).
    exists (drop_events v cv ++ tl). split.
    { rewrite Htr, Htr1. by rewrite <- app_assoc. }
    intros x c Hx Hc. apply elem_of_cons in Hx as [->|Hx].
    + assert (c = cv) as -> by congruence. by exists [], tl.
    + destruct (Hev x c Hx) as (l1 & l2 & ->).
      { rewrite Hm1, lookup_delete_ne; [done|]. by intros ->. }
      exists (drop_events v cv ++ l1), l2. by rewrite <- !app_assoc.
Qed.

(** X7: inserting into a queue in the order of its deadlines: the new
    connection is added, nothing else changes place and the order is
    kept, as long as [timeout_compare] gets differences that fit its
    [gint]. *)
Theorem queue_insert_keeps_order (s : sipe_core_private) (q : list conn_id)
    (data : conn_id) :
  is_Some (heap s !! data) →
  Forall (λ x, is_Some (heap s !! x) ∧
               - 2 ^ 31 ≤ deadline s x - deadline s data < 2 ^ 31) q →
  StronglySorted (λ a b, deadline s a ≤ deadline s b) q →
  ∃ q', g_queue_insert_sorted (timeout_compare (heap s)) q data = Some q' ∧
        q' ≡ₚ data :: q ∧
        StronglySorted (λ a b, deadline s a ≤ deadline s b) q'.
Proof. apply g_queue_insert_sorted_order. Qed.

(** X8: two requests in a row get the same connection exactly when their
    hosts differ at most in the case of letters and their ports are
    equal. *)
Theorem transport_new_same_iff (s s1 s2 : sipe_core_private)
    (h1 h2 : string) (p1 p2 : N) (t1 t2 : Z) (c1 c2 : conn_id) :
  pool_ok s →
  sipe_http_transport_new s h1 p1 t1 = Some (s1, c1) →
  sipe_http_transport_new s1 h2 p2 t2 = Some (s2, c2) →
  c1 = c2 ↔ differ_only_in_case h1 h2 ∧ p1 = p2.
Proof.
  intros Hok Hn1 Hn2.
  destruct (transport_new_spec s h1 p1 t1 Hok)
    as (s1' & c1' & hh1 & cc1 & tt1 & Hn1' & Hh1 & Hk1 & Hc1 & Hsock1 & Hok1).
  rewrite Hn1 in Hn1'. injection Hn1' as <- <-.
  destruct (transport_new_spec s1 h2 p2 t2 Hok1)
    as (s2' & c2' & hh2 & cc2 & tt2 & Hn2' & Hh2 & Hk2 & Hc2 & Hsock2 & Hok2).
  rewrite Hn2 in Hn2'. injection Hn2' as <- <-.
  assert (Hth1 : the_http s1 = hh1) by (unfold the_http; by rewrite Hh1).
  rewrite Hth1 in Hk2.
  set (k1 := make_host_port (g_ascii_strdown h1) p1) in *.
  set (k2 := make_host_port (g_ascii_strdown h2) p2) in *.
  assert (Hkeys : k1 = k2 ↔ differ_only_in_case h1 h2 ∧ p1 = p2).
  { split.
    - intros [Hd ->]%make_host_port_inj. split; [|done].
      by apply strdown_differ_only_in_case.
    - intros [Hd ->]. unfold k1, k2.
      by rewrite (differ_only_in_case_strdown _ _ Hd). }
  rewrite <- Hkeys. split.
  - intros <-. destruct (decide (k1 = k2)) as [|Hne]; [done|]. exfalso.
    destruct Hok2 as [_ Hok2]. rewrite Hh2 in Hok2.
    destruct Hok2 as (_ & Hnd & _).
    apply Hne. apply (NoDup_values_inj (connections hh2) k1 k2 c1 Hnd).
    + rewrite Hk2, lookup_insert_ne by done. rewrite Hk1.
      apply lookup_insert_eq.
    + rewrite Hk2. apply lookup_insert_eq.
  - intros Heq.
    assert (Hre : sipe_http_transport_new s1 h2 p2 t2 = Some (s1, c1)).
    { apply (transport_new_reuse s1 hh1 h2 p2 t2 c1 cc1 tt1); try done.
      fold k2. rewrite <- Heq, Hk1. apply lookup_insert_eq. }
    congruence.
Qed.

Section RunTheorems.

Variable sipmsg_parse_header : list ascii → option sipmsg.
Variable SIPMSG_BODYLEN_CHUNKED : Z.

Local Abbreviation input' :=
  (sipe_http_transport_input sipmsg_parse_header SIPMSG_BODYLEN_CHUNKED).
Local Abbreviation run' :=
  (run sipmsg_parse_header SIPMSG_BODYLEN_CHUNKED).

(** X9: table and heap agree in every state of a run: each allocated
    connection is in the table under its own key, the key is the
    lower-case host and the port, every entry of the table and every
    element of the queue is an allocated connection, none is there
    twice, and without a table there is neither a connection nor a
    timer. *)
Theorem run_registered (t0 t : Z) (s : sipe_core_private) :
  run' t0 t s →
  pool_ok s ∧
  (∀ conn c, heap s !! conn = Some c →
     connections (the_http s) !! host_port c = Some conn ∧
     host_port c = make_host_port (host c) (port c) ∧
     g_ascii_strdown (host c) = host c) ∧
  (http s = None → heap s = ∅ ∧ timer s = None).
Proof.
  intros Hrun. apply run_transport_ok in Hrun.
  destruct Hrun as [(_ & Hok & Hreg & _) (H1 & _)].
  split; [done|]. split; [done|]. intros Hh. split.
  - apply map_empty. intros x.
    destruct (heap s !! x) as [c|] eqn:Hc; [|done].
    destruct (registered_http s x c Hreg Hc) as (? & ? & _). congruence.
  - apply H1. unfold the_http. by rewrite Hh.
Qed.

(** X10: the timeout queue in every state of a run: it holds every
    connection that has a socket, it is in ascending order of
    deadlines, and each deadline lies between 60 seconds behind the
    start of the run and 60 seconds behind its clock. *)
Theorem run_queue_in_order (t0 t : Z) (s : sipe_core_private) :
  run' t0 t s →
  let q := timeouts (the_http s) in
  (∀ conn c, heap s !! conn = Some c → is_Some (connection c) → conn ∈ q) ∧
  StronglySorted (λ a b, deadline s a ≤ deadline s b) q ∧
  Forall (λ x, t0 + 60 ≤ deadline s x ≤ t + 60) q.
Proof.
  intros Hrun. apply run_transport_ok in Hrun.
  by destruct Hrun as [(_ & _ & _ & Hq) _].
Qed.

(** X11: the timer in every state of a run: [next_timeout] is 0 exactly
    when no timer is scheduled; while a connection is queued a timer is
    scheduled; and [next_timeout] is not behind the deadline of any
    queued connection, so no connection stays longer than its
    deadline asks for. *)
Theorem run_timer_in_step (t0 t : Z) (s : sipe_core_private) :
  run' t0 t s →
  let h := the_http s in
  (next_timeout h = 0 ↔ timer s = None) ∧
  (timeouts h ≠ [] → is_Some (timer s) ∧ next_timeout h ≠ 0) ∧
  Forall (λ x, next_timeout h ≤ deadline s x) (timeouts h).
Proof.
  intros Hrun. apply run_transport_ok in Hrun.
  destruct Hrun as [_ (H1 & H2 & _ & H4)].
  split; [done|]. split; [|done]. intros Hq. specialize (H2 Hq).
  split; [|done]. destruct (timer s) eqn:Htm; [done|].
  exfalso. apply H2. by apply H1.
Qed.

(** X12: a request for a connection in a state of a run never fails.  The
    connection it returns carries the destination, with the host in
    lower case, has a socket and a place in the timeout queue, and its
    deadline is at most 60 seconds ahead.  A timer that is scheduled is
    left as it is; without one, the timer is set for this connection,
    60 seconds ahead. *)
Theorem transport_new_establishes (t0 t now : Z) (s : sipe_core_private)
    (host_in : string) (p : N) :
  run' t0 t s → t ≤ now → now + 60 < t0 + 2 ^ 31 →
  ∃ s' conn c',
    sipe_http_transport_new s host_in p now = Some (s', conn) ∧
    heap s' !! conn = Some c' ∧
    host c' = g_ascii_strdown host_in ∧ port c' = p ∧
    is_Some (connection c') ∧ conn ∈ timeouts (the_http s') ∧
    t0 + 60 ≤ timeout c' ≤ now + 60 ∧
    timer s' = match timer s with
               | Some armed => Some armed
               | None => Some (conn, 60)
               end.
Proof.
  intros Hrun Hle Hb. apply run_transport_ok in Hrun.
  destruct (transport_new_ok t0 t now s host_in p Hrun Hle Hb)
    as (s' & conn & c' & Hnew & Hinv' & Hc' & Hsock).
  exists s', conn, c'. split; [done|]. split; [done|].
  assert (Htimer : timer s' = match timer s with
                              | Some armed => Some armed
                              | None => Some (conn, 60)
                              end).
  { destruct (transport_new_timer s s' host_in p now conn Hnew) as [Ht1 Ht2].
    destruct Hrun as [(_ & _ & _ & Hlive & _) (H1 & H2 & _)].
    destruct (timer s) as [armed|] eqn:Htm.
    - apply Ht1. intros Hnt. apply H1 in Hnt. done.
    - assert (Hnt : next_timeout (the_http s) = 0) by (by apply H1).
      assert (Hq : timeouts (the_http s) = []).
      { destruct (timeouts (the_http s)) eqn:E; [done|].
        exfalso. by apply H2. }
      apply Ht2; [done..|]. intros c Hc.
      destruct (connection c) eqn:Hs; [|done].
      exfalso. assert (Hin : conn ∈ timeouts (the_http s)).
      { eapply Hlive; [done|]. by rewrite Hs. }
      rewrite Hq in Hin. by apply elem_of_nil in Hin. }
  destruct Hrun as [(_ & Hok & _) _].
  destruct (transport_new_spec s host_in p now Hok)
    as (s1 & conn1 & h1 & cc1 & tt1 & Hnew1 & Hh1 & Hk1 & _).
  rewrite Hnew in Hnew1. injection Hnew1 as <- <-.
  destruct Hinv' as [(_ & [_ Hok'] & Hreg' & Hlive & _ & Hrange) _].
  assert (Hth : the_http s' = h1) by (unfold the_http; by rewrite Hh1).
  unfold registered in Hreg'. rewrite Hth in *. rewrite Hh1 in Hok'.
  destruct Hok' as (_ & Hnd & _).
  destruct (Hreg' _ _ Hc') as (Hkc & Hkey & _).
  assert (Heq : host_port c' = make_host_port (g_ascii_strdown host_in) p).
  { apply (NoDup_values_inj (connections h1) _ _ conn Hnd Hkc).
    rewrite Hk1. apply lookup_insert_eq. }
  rewrite Hkey in Heq. apply make_host_port_inj in Heq as [-> ->].
  split; [done|]. split; [done|]. split; [done|].
  assert (Hin : conn ∈ timeouts h1) by eauto. split; [done|].
  split; [|done].
  rewrite Forall_forall in Hrange. specialize (Hrange _ Hin).
  unfold deadline in Hrange. by rewrite Hc' in Hrange.
Qed.

(** X13: a transport error on an allocated connection drops exactly that
    connection: it leaves heap, table and queue, its socket is closed
    and the request queue is told.  Nothing else changes; the timer and
    [next_timeout] are as they were. *)
Theorem transport_error_drops (t0 t : Z) (s : sipe_core_private)
    (conn : conn_id) (c : sipe_http_connection) :
  run' t0 t s → heap s !! conn = Some c →
  ∃ s',
    sipe_http_transport_error s conn = Some s' ∧
    heap s' = delete conn (heap s) ∧
    connections (the_http s') = delete (host_port c) (connections (the_http s)) ∧
    timeouts (the_http s') = g_queue_remove (timeouts (the_http s)) conn ∧
    (conn ∉ timeouts (the_http s')) ∧
    next_timeout (the_http s') = next_timeout (the_http s) ∧
    timer s' = timer s ∧
    trace s' = trace s ++ drop_events conn c.
Proof.
  intros Hrun Hc. apply run_transport_ok in Hrun. destruct Hrun as [Hinv _].
  destruct (transport_drop_spec t0 t s conn c Hinv Hc)
    as (s' & Hdrop & Hh' & Hm & Htm & _ & Htr & _).
  exists s'. split; [done|]. split; [done|].
  assert (Hth : the_http s' = Http (delete (host_port c) (connections (the_http s)))
                         (g_queue_remove (timeouts (the_http s)) conn)
                         (next_timeout (the_http s)))
    by (unfold the_http at 1; by rewrite Hh').
  rewrite Hth. cbn. split_and!; try done.
  destruct Hinv as (_ & [_ Hok] & Hreg & _).
  destruct (registered_http s conn c Hreg Hc) as (h & Hh & _).
  unfold the_http. rewrite Hh in *. cbn.
  destruct Hok as (_ & _ & _ & Hnd).
  by destruct (g_queue_remove_NoDup _ conn Hnd).
Qed.

(** X14: the timeout handler, run with an allocated connection as payload
    at time [now]: the payload is dropped whatever its deadline; of the
    other queued connections those with a deadline up to [now] are
    dropped as well, each with its socket closed and the request queue
    told, and the others stay as they are; then [next_timeout] and the
    timer are set for the first connection left, between 1 and 60
    seconds ahead, or [next_timeout] is 0 and no timer is set when none
    is left. *)
Theorem transport_timeout_evicts (t0 t now : Z) (s : sipe_core_private)
    (payload : conn_id) (c : sipe_http_connection) :
  run' t0 t s → t ≤ now → heap s !! payload = Some c →
  let rest := g_queue_remove (timeouts (the_http s)) payload in
  let keep := filter (λ x, now < deadline s x) rest in
  ∃ s' tl,
    sipe_http_transport_timeout s payload now = Some s' ∧
    timeouts (the_http s') = keep ∧
    (∀ x, x = payload ∨ (x ∈ rest ∧ deadline s x ≤ now) →
          heap s' !! x = None) ∧
    (∀ x, x ≠ payload → (x ∈ rest → now < deadline s x) →
          heap s' !! x = heap s !! x) ∧
    trace s' = trace s ++ tl ∧
    (∀ x cx, heap s !! x = Some cx → heap s' !! x = None →
             ∃ l1 l2, tl = l1 ++ drop_events x cx ++ l2) ∧
    next_timeout (the_http s')
    = match keep with x :: _ => deadline s x | [] => 0 end ∧
    match keep with
    | x :: _ => timer s' = Some (x, deadline s x - now) ∧
                0 < deadline s x - now ≤ 60
    | [] => timer s' = timer s
    end.
Proof.
  intros Hrun Hle Hc rest keep. apply run_transport_ok in Hrun.
  destruct Hrun as [Hinv _].
  pose proof Hinv as (_ & _ & Hreg & _).
  destruct (registered_http s payload c Hreg Hc) as (h & Hh & _).
  assert (Hth : the_http s = h) by (unfold the_http; by rewrite Hh).
  subst rest keep. rewrite Hth.
  destruct (transport_timeout_spec t0 t now s h payload c Hinv Hh Hc)
    as (s' & h' & tl & Hto & Hh' & Hq & Hgone & Hkept & Htr & Hev & Hnt & Htm).
  cbv zeta in *.
  assert (Hth' : the_http s' = h') by (unfold the_http; by rewrite Hh').
  exists s', tl. rewrite Hth'.
  split; [done|]. split; [done|]. split; [done|]. split; [done|].
  split; [done|]. split; [done|]. split; [done|].
  destruct (filter _ _) as [|x k] eqn:Hk; [done|].
  assert (Hx : x ∈ filter (λ x, now < deadline s x)
                      (g_queue_remove (timeouts h) payload))
    by (rewrite Hk; left).
  apply list_elem_of_filter in Hx as [Hlt Hx].
  apply g_queue_remove_subseteq in Hx.
  destruct Hinv as (_ & _ & _ & _ & _ & Hrange). rewrite Hth in Hrange.
  rewrite Forall_forall in Hrange. specialize (Hrange _ Hx).
  cbv beta in Hrange. rewrite Htm, guint_small by lia. split; [done|lia].
Qed.

(** X15: shutdown in a state of a run never fails and lets go of
    everything: the timer is cancelled first, then every connection is
    freed, with its socket closed and the request queue told, and in
    the end there is neither a table nor any connection. *)
Theorem sipe_http_free_releases (t0 t : Z) (s : sipe_core_private) :
  run' t0 t s →
  ∃ s',
    sipe_http_free s = Some s' ∧ http s' = None ∧ heap s' = ∅ ∧
    (http s ≠ None →
     timer s' = None ∧
     ∃ tl, trace s' = trace s ++ ScheduleCancel :: tl ∧
           ∀ x c, heap s !! x = Some c →
                  ∃ l1 l2, tl = l1 ++ drop_events x c ++ l2).
Proof.
  intros Hrun. apply run_transport_ok in Hrun.
  pose proof Hrun as [(_ & [_ Hok] & Hreg & _) _].
  destruct (sipe_http_free s) as [s'|] eqn:Hfree.
  2:{ exfalso. revert Hfree. unfold sipe_http_free.
      destruct (http s) as [h|] eqn:Hh; [|done].
      destruct Hok as (Hmap & Hnd & _).
      destruct (destroy_values_total (snd <$> map_to_list (connections h))
                  (sipe_schedule_cancel s) h) as [s1 ->]; try done.
      apply Forall_forall. intros v Hv.
      apply list_elem_of_fmap in Hv as ([k v'] & -> & Hin).
      apply elem_of_map_to_list in Hin. by eapply Hmap. }
  destruct (sipe_http_free_ok t0 t s s' Hrun Hfree)
    as (_ & Hh' & Hm' & _ & Htm').
  exists s'. split; [done|]. split; [done|]. split; [done|].
  intros Hne. split; [auto|]. revert Hfree. unfold sipe_http_free.
  destruct (http s) as [h|] eqn:Hh; [|done].
  destruct (destroy_values _ _) as [s1|] eqn:Hd; [|done].
  cbn [mbind option_bind]. intros [= <-].
  destruct Hok as (_ & Hnd & _).
  destruct (destroy_values_trace _ _ _ Hnd Hd) as (tl & Htr & Hev).
  exists tl. split.
  { cbn. rewrite Htr. cbn. by rewrite <- app_assoc. }
  intros x c Hc. apply (Hev x c); [|done].
  destruct (registered_http s x c Hreg Hc) as (h0 & Hh0 & Hk).
  rewrite Hh in Hh0. injection Hh0 as <-.
  apply list_elem_of_fmap. exists (host_port c, x). split; [done|].
  by apply elem_of_map_to_list.
Qed.

(** Input on one connection stays with that connection. *)
Lemma input_isolated (t0 t now : Z) (s s' : sipe_core_private)
    (conn : conn_id) (next : bool) :
  transport_ok t0 t s → input' s conn next now = Some s' →
  connections (the_http s') = connections (the_http s) ∧
  timeouts (the_http s') ≡ₚ timeouts (the_http s) ∧
  (∀ x, x ≠ conn → heap s' !! x = heap s !! x) ∧
  ∃ c c', heap s !! conn = Some c ∧ heap s' !! conn = Some c' ∧
          host c' = host c ∧ port c' = port c ∧ host_port c' = host_port c.
Proof.
  intros Hrun.
  destruct Hrun as [(_ & [_ Hok] & Hreg & Hlive & _) _].
  unfold sipe_http_transport_input.
  destruct (heap s !! conn) as [c|] eqn:Hc; [|done]. cbn [mbind option_bind].
  destruct (connection c) as [tc|] eqn:Hsock; [|done].
  cbn [mbind option_bind].
  destruct (framer _ _ _) as [r rest].
  set (c1 := set_connection c _). set (s1 := set_heap s _).
  assert (H1 : ∀ (sx : sipe_core_private) (cx : sipe_http_connection),
            http sx = http s → heap sx = <[conn := cx]> (heap s) →
            host cx = host c → port cx = port c →
            host_port cx = host_port c →
            connections (the_http sx) = connections (the_http s) ∧
            timeouts (the_http sx) ≡ₚ timeouts (the_http s) ∧
            (∀ x, x ≠ conn → heap sx !! x = heap s !! x) ∧
            ∃ c0 c', Some c = Some c0 ∧ heap sx !! conn = Some c' ∧
                    host c' = host c0 ∧ port c' = port c0 ∧
                    host_port c' = host_port c0).
  { intros sx cx Hhx Hmx Hx1 Hx2 Hx3.
    rewrite (the_http_fields s sx Hhx). split; [done|]. split; [done|]. split.
    - intros x Hne. by rewrite Hmx, lookup_insert_ne.
    - exists c, cx. split; [done|]. split; [|done].
      rewrite Hmx. apply lookup_insert_eq. }
  destruct r as [| |msg|]; [by intros [= <-]; apply (H1 _ c1)
                           |by intros [= <-]; apply (H1 _ c1)| |done].
  destruct (sipe_strcase_equal _ _).
  - set (c2 := set_connected _ _). set (s4 := set_heap _ _).
    destruct next.
    2:{ intros [= <-]. apply (H1 _ c2); try done.
        unfold s4, s1. cbn [heap set_heap emit].
        by rewrite insert_insert_eq. }
    destruct (registered_http s conn c Hreg Hc) as (h & Hh & Hk).
    assert (Hth : the_http s = h) by (unfold the_http; by rewrite Hh).
    destruct (Hreg _ _ Hc) as (_ & Hkey & Hlow).
    rewrite Hh in Hok. destruct Hok as (_ & _ & Hq & _).
    destruct (transport_new_reestablish s4 h (host c2) (port c2) now conn c2)
      as (s5 & q & nt & tl & -> & Hm5 & Hh5 & Hp & _).
    { done. }
    { cbn. rewrite Hlow, <- Hkey. done. }
    { unfold s4, s1. cbn. apply lookup_insert_eq. }
    { done. }
    { unfold s4, s1. cbn. eapply Forall_impl; [exact Hq|].
      intros x Hx. by do 2 apply is_Some_insert_mono. }
    cbn [fmap option_fmap option_map fst]. intros [= <-].
    assert (Hth5 : the_http s5 = Http (connections h) q nt)
      by (unfold the_http; by rewrite Hh5).
    rewrite Hth5, Hth. cbn [connections timeouts]. split; [done|]. split.
    { rewrite Hp. apply g_queue_remove_cons_perm. rewrite <- Hth.
      eapply Hlive; [done|]. by rewrite Hsock. }
    split.
    + intros x Hne. rewrite Hm5. unfold s4, s1. cbn.
      by rewrite !lookup_insert_ne.
    + eexists c, _. split; [done|]. split.
      { rewrite Hm5. apply lookup_insert_eq. }
      done.
  - destruct next; intros [= <-]; by apply (H1 _ c1).
Qed.

Lemma backend_append_spec (s sa : sipe_core_private) (conn : conn_id)
    (data : list ascii) :
  backend_append s conn data = Some sa →
  ∃ c tc,
    heap s !! conn = Some c ∧ connection c = Some tc ∧
    http sa = http s ∧ next_conn sa = next_conn s ∧ timer sa = timer s ∧
    heap sa = <[conn := set_connection c
                  (Some (TransportConnection (handle tc) (buffer tc ++ data)))]>
                (heap s).
Proof.
  unfold backend_append.
  destruct (heap s !! conn) as [c|] eqn:Hc; [|done]. cbn [mbind option_bind].
  destruct (connection c) as [tc|] eqn:Hsock; [|done].
  cbn [mbind option_bind]. intros [= <-]. by exists c, tc.
Qed.

Lemma backend_append_ok (t0 t : Z) (s sa : sipe_core_private)
    (conn : conn_id) (data : list ascii) :
  transport_ok t0 t s → backend_append s conn data = Some sa →
  transport_ok t0 t sa.
Proof.
  intros Hinv Ha.
  destruct (backend_append_spec s sa conn data Ha)
    as (c & tc & Hc & Hsock & Hh & Hn & Htm & Hm).
  apply (transport_ok_update t0 t s sa conn c
           (set_connection c
              (Some (TransportConnection (handle tc) (buffer tc ++ data)))));
    try done.
  intros _. destruct Hinv as [(_ & _ & _ & Hlive & _) _].
  eapply Hlive; [done|]. by rewrite Hsock.
Qed.

(** X16: data for one connection stays with that connection.  After
    the backend has added bytes to the buffer of a connection and
    called the input callback, the table is as it was, the timeout
    queue has the same elements, every other connection is untouched,
    and the connection has its host, port and key, whether or not the
    response closes the connection and a new socket is opened for it. *)
Theorem transport_input_isolated (t0 t now : Z) (s s' : sipe_core_private)
    (conn : conn_id) (data : list ascii) (next : bool) :
  run' t0 t s →
  backend_data sipmsg_parse_header SIPMSG_BODYLEN_CHUNKED
    s conn data next now = Some s' →
  connections (the_http s') = connections (the_http s) ∧
  timeouts (the_http s') ≡ₚ timeouts (the_http s) ∧
  (∀ x, x ≠ conn → heap s' !! x = heap s !! x) ∧
  ∃ c c', heap s !! conn = Some c ∧ heap s' !! conn = Some c' ∧
          host c' = host c ∧ port c' = port c ∧ host_port c' = host_port c.
Proof.
  intros Hrun. apply run_transport_ok in Hrun. unfold backend_data.
  destruct (backend_append s conn data) as [sa|] eqn:Ha; [|done].
  cbn [mbind option_bind]. intros Hin.
  pose proof (backend_append_ok t0 t s sa conn data Hrun Ha) as Hinva.
  destruct (backend_append_spec s sa conn data Ha)
    as (c & tc & Hc & Hsock & Hh & Hn & Htm & Hm).
  destruct (input_isolated t0 t now sa s' conn next Hinva Hin)
    as (H1 & H2 & H3 & ca & c' & Hca & Hc' & H4 & H5 & H6).
  rewrite (the_http_fields s sa Hh) in H1, H2.
  split; [done|]. split; [done|]. split.
  - intros x Hne. rewrite H3 by done. by rewrite Hm, lookup_insert_ne.
  - exists c, c'. split; [done|]. split; [done|].
    rewrite Hm, lookup_insert_eq in Hca. injection Hca as <-. done.
Qed.

End RunTheorems.

Ltac run_example_pool :=
  apply (RunNew _ _ 0 0 initial "a" 443 0 example_pool 0%nat);
    [apply RunInit; lia | lia | lia | reflexivity].

Ltac run_example_two :=
  apply (RunNew _ _ 0 0 example_pool "b" 443 10 example_two 1%nat);
    [run_example_pool | lia | lia | reflexivity].

Lemma queue_insert_keeps_order_witness :
  g_queue_insert_sorted (timeout_compare (heap example_two)) [0%nat] 1%nat
  = Some [0%nat; 1%nat].
Proof.
  destruct (queue_insert_keeps_order example_two [0%nat] 1%nat)
    as (q' & H & _).
  - apply (bool_decide_unpack _). by vm_compute.
  - constructor; [|constructor]. split.
    + apply (bool_decide_unpack _). by vm_compute.
    + split; by vm_compute.
  - repeat constructor.
  - pose proof H as H'. vm_compute in H'. injection H' as <-. exact H.
Defined.

Lemma transport_new_same_iff_witness :
  0%nat = 1%nat ↔ differ_only_in_case "a" "b" ∧ 443%N = 443%N.
Proof.
  apply (transport_new_same_iff initial example_pool example_two
           "a" "b" 443 443 0 10 0%nat 1%nat).
  - apply pool_ok_initial.
  - reflexivity.
  - reflexivity.
Defined.

Lemma run_registered_witness :
  connections (the_http example_two) !! "b:443"%string = Some 1%nat.
Proof.
  destruct (run_registered (const_parser [] 0) (-1) 0 10 example_two)
    as (_ & Hreg & _).
  - run_example_two.
  - apply (Hreg 1%nat
             (HttpConnection "b" 443 false
                (Some (TransportConnection 1%nat [])) "b:443" 70)).
    reflexivity.
Defined.

Lemma run_queue_in_order_witness :
  StronglySorted (λ a b, deadline example_two a ≤ deadline example_two b)
    [0%nat; 1%nat].
Proof.
  destruct (run_queue_in_order (const_parser [] 0) (-1) 0 10 example_two)
    as (_ & Hsort & _).
  - run_example_two.
  - exact Hsort.
Defined.

Lemma run_timer_in_step_witness :
  is_Some (timer example_two) ∧ next_timeout (the_http example_two) ≠ 0.
Proof.
  destruct (run_timer_in_step (const_parser [] 0) (-1) 0 10 example_two)
    as (_ & Harmed & _).
  - run_example_two.
  - apply Harmed. discriminate.
Defined.

Lemma transport_new_establishes_witness :
  ∃ s' conn c',
    sipe_http_transport_new example_pool "B" 443 10 = Some (s', conn) ∧
    heap s' !! conn = Some c' ∧ host c' = "b"%string ∧
    is_Some (connection c') ∧ timeout c' ≤ 70.
Proof.
  destruct (transport_new_establishes (const_parser [] 0) (-1) 0 0 10
              example_pool "B" 443)
    as (s' & conn & c' & H1 & H2 & H3 & _ & H5 & _ & H7 & _).
  - run_example_pool.
  - lia.
  - lia.
  - exists s', conn, c'. split; [exact H1|]. split; [exact H2|].
    split; [exact H3|]. split; [exact H5|]. lia.
Defined.

Lemma transport_error_drops_witness :
  ∃ s',
    sipe_http_transport_error example_two 0%nat = Some s' ∧
    timeouts (the_http s') = [1%nat] ∧
    next_timeout (the_http s') = 60 ∧ timer s' = Some (0%nat, 60).
Proof.
  destruct (transport_error_drops (const_parser [] 0) (-1) 0 10 example_two
              0%nat
              (HttpConnection "a" 443 false
                 (Some (TransportConnection 0%nat [])) "a:443" 60))
    as (s' & H1 & _ & _ & H4 & _ & H6 & H7 & _).
  - run_example_two.
  - reflexivity.
  - exists s'. split; [exact H1|]. split; [exact H4|].
    split; [exact H6|exact H7].
Defined.

Lemma transport_timeout_evicts_witness :
  ∃ s',
    sipe_http_transport_timeout example_two 1%nat 65 = Some s' ∧
    timeouts (the_http s') = [] ∧
    heap s' !! 0%nat = None ∧ heap s' !! 1%nat = None ∧
    next_timeout (the_http s') = 0.
Proof.
  destruct (transport_timeout_evicts (const_parser [] 0) (-1) 0 10 65
              example_two 1%nat
              (HttpConnection "b" 443 false
                 (Some (TransportConnection 1%nat [])) "b:443" 70))
    as (s' & tl & H1 & H2 & H3 & _ & _ & _ & H7 & _).
  - run_example_two.
  - lia.
  - reflexivity.
  - exists s'. split; [exact H1|]. split; [exact H2|].
    split; [|split; [|exact H7]].
    + apply H3. right. split; [by left|by vm_compute].
    + apply H3. by left.
Defined.

Lemma sipe_http_free_releases_witness :
  ∃ s', sipe_http_free example_two = Some s' ∧ heap s' = ∅ ∧ timer s' = None.
Proof.
  destruct (sipe_http_free_releases (const_parser [] 0) (-1) 0 10 example_two)
    as (s' & H1 & _ & H3 & H4).
  - run_example_two.
  - exists s'. split; [exact H1|]. split; [exact H3|].
    apply H4. discriminate.
Defined.

Lemma transport_input_isolated_witness :
  ∃ s',
    backend_data (const_parser [] 0) (-1) example_two 1%nat
      (bytes "HTTP/1.1 200 OK" ++ CRLFCRLF) true 20 = Some s' ∧
    heap s' !! 0%nat = heap example_two !! 0%nat ∧
    connections (the_http s') = connections (the_http example_two).
Proof.
  assert (Hr : ∃ s', backend_data (const_parser [] 0) (-1) example_two 1%nat
                       (bytes "HTTP/1.1 200 OK" ++ CRLFCRLF) true 20
                     = Some s')
    by (eexists; reflexivity).
  destruct Hr as [s' Hr].
  destruct (transport_input_isolated (const_parser [] 0) (-1) 0 10 20
              example_two s' 1%nat (bytes "HTTP/1.1 200 OK" ++ CRLFCRLF) true)
    as (H1 & _ & H3 & _).
  - run_example_two.
  - exact Hr.
  - exists s'. split; [exact Hr|]. split; [|exact H1]. by apply H3.
Defined.

Section TimerFails.

Variable sipmsg_parse_header : list ascii → option sipmsg.
Variable SIPMSG_BODYLEN_CHUNKED : Z.

Local Abbreviation run' :=
  (run sipmsg_parse_header SIPMSG_BODYLEN_CHUNKED).

(** X22: when the timer can fail.  In a state of a run the timeout
    handler reads freed memory exactly when the connection the timer
    was scheduled with has been freed since; with an allocated payload
    it always runs to its end. *)
Theorem timer_fire_fails_iff (t0 t now : Z) (s : sipe_core_private)
    (payload : conn_id) (delay : Z) :
  run' t0 t s → timer s = Some (payload, delay) →
  timer_fire s now = None ↔ heap s !! payload = None.
Proof.
  intros Hrun Htm. apply run_transport_ok in Hrun.
  destruct Hrun as [Hinv (H1 & _)].
  unfold timer_fire. rewrite Htm. split.
  - intros Hnone. destruct (heap s !! payload) as [c|] eqn:Hc; [|done].
    exfalso. pose proof Hinv as (_ & _ & Hreg & _).
    destruct (registered_http s payload c Hreg Hc) as (h & Hh & _).
    assert (Hinv0 : pool_inv t0 t (set_timer s None)) by exact Hinv.
    destruct (transport_timeout_spec t0 t now (set_timer s None) h payload c
                Hinv0 Hh Hc) as (s' & _ & _ & Hto & _).
    congruence.
  - intros Hc. unfold sipe_http_transport_timeout. cbn [http set_timer].
    destruct (http s) as [h|]; [|done]. cbn [mbind option_bind timeout_loop].
    unfold sipe_http_transport_drop. cbn [heap set_http set_timer].
    by rewrite Hc.
Qed.

End TimerFails.

Lemma timer_fire_fails_iff_witness :
  timer_fire example_two 60 ≠ None.
Proof.
  intros Hnone.
  apply (timer_fire_fails_iff (const_parser [] 0) (-1) 0 10 60 example_two
           0%nat 60) in Hnone.
  - discriminate Hnone.
  - run_example_two.
  - reflexivity.
Defined.

Section InputFails.

Variable sipmsg_parse_header : list ascii → option sipmsg.
Variable SIPMSG_BODYLEN_CHUNKED : Z.

Local Abbreviation input' :=
  (sipe_http_transport_input sipmsg_parse_header SIPMSG_BODYLEN_CHUNKED).
Local Abbreviation run' :=
  (run sipmsg_parse_header SIPMSG_BODYLEN_CHUNKED).
Local Abbreviation framer :=
  (framer sipmsg_parse_header SIPMSG_BODYLEN_CHUNKED).

Lemma input_fails (t0 t now : Z) (s : sipe_core_private)
    (conn : conn_id) (c : sipe_http_connection)
    (tc : sipe_transport_connection) (next : bool) :
  transport_ok t0 t s → t ≤ now → now + 60 < t0 + 2 ^ 31 →
  heap s !! conn = Some c → connection c = Some tc →
  input' s conn next now = None ↔ fst (framer (buffer tc)) = Fault.
Proof.
  intros Hrun Hle Hb Hc Hsock.
  unfold sipe_http_transport_input. rewrite Hc. cbn [mbind option_bind].
  rewrite Hsock. cbn [mbind option_bind].
  destruct (framer (buffer tc)) as [r rest]. cbn [fst].
  set (c1 := set_connection c _). set (s1 := set_heap s _).
  assert (Hin : conn ∈ timeouts (the_http s)).
  { destruct Hrun as [(_ & _ & _ & Hlive & _) _]. eapply Hlive; [done|].
    by rewrite Hsock. }
  assert (Hinv1 : transport_ok t0 t s1)
    by (by apply (transport_ok_update t0 t s s1 conn c c1)).
  destruct r as [| |msg|]; [done..| |done].
  destruct (sipe_strcase_equal _ _); [|by destruct next].
  set (c2 := set_connected _ _). set (s4 := set_heap _ _).
  destruct next; [|done].
  assert (Hinv4 : transport_ok t0 t s4).
  { apply (transport_ok_update t0 t s1 s4 conn c1 c2); try done;
      first [ unfold s1; cbn; apply lookup_insert_eq | cbn; by intros [] ]. }
  destruct (transport_new_ok t0 t now s4 (host c2) (port c2) Hinv4 Hle Hb)
    as (s5 & k & c5 & -> & _).
  done.
Qed.

(** X24: when the arrival of data can fail.  In a state of a run, data
    for a connection that has a socket goes wrong exactly when the
    framer leaves the buffer on the bytes that are then in it;
    delivering the response, closing the socket and opening a new one
    for a pending request never fail. *)
Theorem input_fails_iff (t0 t now : Z) (s : sipe_core_private)
    (conn : conn_id) (c : sipe_http_connection)
    (tc : sipe_transport_connection) (data : list ascii) (next : bool) :
  run' t0 t s → t ≤ now → now + 60 < t0 + 2 ^ 31 →
  heap s !! conn = Some c → connection c = Some tc →
  backend_data sipmsg_parse_header SIPMSG_BODYLEN_CHUNKED
    s conn data next now = None
  ↔ fst (framer (buffer tc ++ data)) = Fault.
Proof.
  intros Hrun Hle Hb Hc Hsock. apply run_transport_ok in Hrun.
  unfold backend_data.
  destruct (backend_append s conn data) as [sa|] eqn:Ha.
  2:{ exfalso. revert Ha. unfold backend_append. rewrite Hc.
      cbn [mbind option_bind]. by rewrite Hsock. }
  cbn [mbind option_bind].
  pose proof (backend_append_ok t0 t s sa conn data Hrun Ha) as Hinva.
  destruct (backend_append_spec s sa conn data Ha)
    as (c0 & tc0 & Hc0 & Hsock0 & _ & _ & _ & Hm).
  rewrite Hc in Hc0. injection Hc0 as <-.
  rewrite Hsock in Hsock0. injection Hsock0 as <-.
  apply (input_fails t0 t now sa conn
           (set_connection c
              (Some (TransportConnection (handle tc) (buffer tc ++ data))))
           (TransportConnection (handle tc) (buffer tc ++ data)) next);
    try done.
  rewrite Hm. apply lookup_insert_eq.
Qed.

End InputFails.

Lemma input_fails_iff_witness :
  backend_data (const_parser [] 0) (-1) example_two 1%nat
    (bytes "HTTP/1.1 200 OK" ++ CRLFCRLF) true 20 ≠ None.
Proof.
  intros Hnone.
  apply (input_fails_iff (const_parser [] 0) (-1) 0 10 20 example_two 1%nat
           (HttpConnection "b" 443 false
              (Some (TransportConnection 1%nat [])) "b:443" 70)
           (TransportConnection 1%nat [])
           (bytes "HTTP/1.1 200 OK" ++ CRLFCRLF) true) in Hnone.
  - discriminate Hnone.
  - run_example_two.
  - lia.
  - lia.
  - reflexivity.
  - reflexivity.
Defined.

(** ** The media backend: streams, the signal handler, candidates *)

Lemma sipe_strequal_spec (left right : option string) :
  sipe_strequal left right = true ↔ left = right.
Proof.
  destruct left as [l|], right as [r|]; cbn; try (split; congruence).
  rewrite String.eqb_eq. split; congruence.
Qed.

Lemma session_find_in_app (l : list (stream_id * sipe_backend_stream))
    (x : stream_id * sipe_backend_stream) (sid who : option string) :
  session_find_in (l ++ [x]) sid who
  = match session_find_in l sid who with
    | Some y => Some y
    | None =>
        if sipe_strequal (sessionid (snd x)) sid
           && sipe_strequal (participant (snd x)) who
        then Some x else None
    end.
Proof.
  induction l as [|[a s] l IH]; cbn [app session_find_in].
  - destruct x as [xa xs]. cbn. by destruct (_ && _).
  - destruct (sipe_strequal (sessionid s) sid
              && sipe_strequal (participant s) who); [done|]. exact IH.
Qed.

Lemma session_find_in_Some (l : list (stream_id * sipe_backend_stream))
    (sid who : option string) (a : stream_id) (s : sipe_backend_stream) :
  session_find_in l sid who = Some (a, s) →
  (a, s) ∈ l ∧ sessionid s = sid ∧ participant s = who.
Proof.
  induction l as [|[b t] l IH]; cbn [session_find_in]; [done|].
  destruct (_ && _) eqn:Hm.
  - intros [= -> ->]. apply andb_true_iff in Hm as [H1 H2].
    apply sipe_strequal_spec in H1, H2. split; [left|done].
  - intros Hf. destruct (IH Hf) as (Hin & Hrest). split; [by right|done].
Qed.

Lemma g_slist_remove_length (l : list (stream_id * sipe_backend_stream))
    (a : stream_id) (s : sipe_backend_stream) :
  (a, s) ∈ l → (length (g_slist_remove l a) + 1 = length l)%nat.
Proof.
  induction l as [|[b t] l IH]; cbn [g_slist_remove].
  - intros Hin. by apply elem_of_nil in Hin.
  - intros Hin. case_decide as Hb; [cbn; lia|].
    apply elem_of_cons in Hin as [[= -> ->]|Hin]; [done|].
    cbn [length]. specialize (IH Hin). lia.
Qed.

Lemma g_slist_remove_gone (l : list (stream_id * sipe_backend_stream))
    (a : stream_id) :
  NoDup (fst <$> l) → a ∉ fst <$> g_slist_remove l a.
Proof.
  induction l as [|[b t] l IH]; cbn [g_slist_remove fmap list_fmap].
  - intros _. apply not_elem_of_nil.
  - intros [Hb Hnd]%NoDup_cons. case_decide as Heq.
    + by subst.
    + cbn. apply not_elem_of_cons. split; [congruence|]. by apply IH.
Qed.

Lemma g_slist_remove_other (l : list (stream_id * sipe_backend_stream))
    (a : stream_id) (x : stream_id * sipe_backend_stream) :
  x.1 ≠ a → x ∈ g_slist_remove l a ↔ x ∈ l.
Proof.
  intros Hne. induction l as [|[b t] l IH]; cbn [g_slist_remove]; [done|].
  case_decide as Heq.
  - subst. rewrite elem_of_cons. split; [by right|].
    intros [->|Hin]; [done|done].
  - rewrite !elem_of_cons, IH. done.
Qed.

(** X17: a stream that the backend accepted is kept and found.  When
    [purple_media_add_stream] succeeds, [sipe_backend_media_add_stream]
    returns a new stream object, appends it to the streams of the media
    with the session id of its transmitter and the participant, and
    [session_find] with these two finds a stream that carries them: the
    new one if no older stream does.  When libpurple refuses, the
    result is NULL and the media is unchanged. *)
Theorem add_stream_then_find (media : sipe_backend_media)
    (who : option string) (type : SipeMediaType) (use_nice initiator : bool) :
  let sid := if use_nice then "sipe-voice-nice"%string
             else "sipe-voice-rawudp"%string in
  let stream := BackendStream (Some sid) who in
  (∃ media' ev,
     sipe_backend_media_add_stream media who type use_nice initiator true
     = (media', Some (next_stream media), ev) ∧
     streams media' = streams media ++ [(next_stream media, stream)] ∧
     in_recursion media' = in_recursion media ∧
     ∃ a s, session_find media' (Some sid) who = Some (a, s) ∧
            sessionid s = Some sid ∧ participant s = who ∧
            (session_find media (Some sid) who = None →
             (a, s) = (next_stream media, stream))) ∧
  (∃ ev,
     sipe_backend_media_add_stream media who type use_nice initiator false
     = (media, None, ev)).
Proof.
  intros sid stream. split.
  - unfold sipe_backend_media_add_stream.
    destruct use_nice; cbn [sid stream]; eexists _, _;
      (split; [reflexivity|]); (split; [reflexivity|]);
      (split; [reflexivity|]);
      unfold session_find; cbn [streams]; rewrite session_find_in_app;
      cbn [snd sessionid participant];
      (destruct (session_find_in (streams media) _ who) as [[a s]|] eqn:Hf;
       [ apply session_find_in_Some in Hf as (_ & H1 & H2);
         exists a, s; by split_and!
       | assert (sipe_strequal who who = true) as ->
           by (by apply sipe_strequal_spec);
         cbn; eexists _, _; by split_and! ]).
  - unfold sipe_backend_media_add_stream. destruct use_nice; by eexists.
Qed.

Section StreamInfoFacts.

Variable hold_flags : sipe_media_call → bool → bool → bool * bool.

Local Abbreviation on_stream_info := (on_stream_info_cb hold_flags).

(** X18: a stream that ends.  [PURPLE_MEDIA_INFO_HANGUP] or
    [PURPLE_MEDIA_INFO_REJECT] with a session id and a participant,
    outside the recursion guard, calls nothing; the first stream with
    this session id and participant is removed from the streams of the
    media, which get shorter by one and keep all other streams; when
    there is none, or when only one of session id and participant is
    given, nothing changes. *)
Theorem stream_hangup_removes (call : sipe_media_call)
    (type : PurpleMediaInfoType) (sid who : string) (local : bool) :
  let m := backend_private call in
  in_recursion m = false →
  type = PURPLE_MEDIA_INFO_HANGUP ∨ type = PURPLE_MEDIA_INFO_REJECT →
  NoDup (fst <$> streams m) →
  (∃ call',
     on_stream_info call type (Some sid) (Some who) local = (call', []) ∧
     match session_find m (Some sid) (Some who) with
     | None => call' = call
     | Some (a, s) =>
         call' = set_streams call (g_slist_remove (streams m) a) ∧
         sessionid s = Some sid ∧ participant s = Some who ∧
         (length (streams (backend_private call')) + 1
          = length (streams m))%nat ∧
         (a ∉ fst <$> streams (backend_private call')) ∧
         ∀ x, x.1 ≠ a → x ∈ streams (backend_private call') ↔ x ∈ streams m
     end) ∧
  on_stream_info call type (Some sid) None local = (call, []) ∧
  on_stream_info call type None (Some who) local = (call, []).
Proof.
  intros m Hrec Htype Hnd. unfold on_stream_info_cb. fold m. rewrite Hrec.
  split; [|by destruct Htype as [-> | ->]].
  assert (Hgen :
    ∃ call',
      match session_find m (Some sid) (Some who) with
      | Some (a, _) => (set_streams call (g_slist_remove (streams m) a), [])
      | None => (call, [])
      end = (call', @nil media_event) ∧
      match session_find m (Some sid) (Some who) with
      | None => call' = call
      | Some (a, s) =>
          call' = set_streams call (g_slist_remove (streams m) a) ∧
          sessionid s = Some sid ∧ participant s = Some who ∧
          (length (streams (backend_private call')) + 1
           = length (streams m))%nat ∧
          (a ∉ fst <$> streams (backend_private call')) ∧
          ∀ x, x.1 ≠ a → x ∈ streams (backend_private call') ↔ x ∈ streams m
      end).
  { destruct (session_find m (Some sid) (Some who)) as [[a s]|] eqn:Hf.
    - apply session_find_in_Some in Hf as (Hin & H1 & H2).
      eexists. split; [reflexivity|]. split; [done|]. split; [done|].
      split; [done|]. cbn [set_streams backend_private streams].
      split; [by eapply g_slist_remove_length|].
      split; [by apply g_slist_remove_gone|].
      intros x Hx. by apply g_slist_remove_other.
    - by exists call. }
  by destruct Htype as [-> | ->].
Qed.


End StreamInfoFacts.

(** X20: the two conversions of the network protocol undo each other
    on TCP and UDP and disagree on everything else: a value that is
    neither becomes TCP on the way to libpurple and UDP on the way
    back. *)
Theorem network_protocol_round_trip :
  (∀ proto,
     purple_network_protocol_to_sipe (sipe_network_protocol_to_purple proto)
     = match proto with
       | SIPE_NETWORK_PROTOCOL_UDP => SIPE_NETWORK_PROTOCOL_UDP
       | _ => SIPE_NETWORK_PROTOCOL_TCP
       end) ∧
  (∀ proto,
     sipe_network_protocol_to_purple (purple_network_protocol_to_sipe proto)
     = match proto with
       | PURPLE_MEDIA_NETWORK_PROTOCOL_TCP => PURPLE_MEDIA_NETWORK_PROTOCOL_TCP
       | _ => PURPLE_MEDIA_NETWORK_PROTOCOL_UDP
       end).
Proof. split; by intros []. Qed.

Lemma stream_hangup_removes_witness :
  on_stream_info_cb (λ _ _ _, (false, false)) example_call
    PURPLE_MEDIA_INFO_HANGUP (Some "sipe-voice-nice") (Some "alice") true
  = (set_streams example_call
       [(0%nat, BackendStream (Some "sipe-voice-nice") (Some "bob"))], []).
Proof.
  destruct (stream_hangup_removes (λ _ _ _, (false, false)) example_call
              PURPLE_MEDIA_INFO_HANGUP "sipe-voice-nice" "alice" true)
    as ((call' & H1 & H2) & _).
  - reflexivity.
  - by left.
  - apply (bool_decide_unpack _). by vm_compute.
  - cbn in H2. destruct H2 as (-> & _). exact H1.
Defined.


Lemma add_stream_then_find_witness :
  ∃ media' ev,
    sipe_backend_media_add_stream (backend_private example_call)
      (Some "carol") SIPE_MEDIA_AUDIO true true true
    = (media', Some 2%nat, ev) ∧
    session_find media' (Some "sipe-voice-nice") (Some "carol")
    = Some (2%nat, BackendStream (Some "sipe-voice-nice") (Some "carol")).
Proof.
  destruct (add_stream_then_find (backend_private example_call)
              (Some "carol") SIPE_MEDIA_AUDIO true true)
    as ((media' & ev & H1 & _ & _ & a & s & H2 & _ & _ & H3) & _).
  exists media', ev. split; [exact H1|].
  rewrite H2. f_equal. apply H3. reflexivity.
Defined.
